(** * fetch-imusician-artist-data: batched fetching with rate-limit retry

    A shallow embedding of the TypeScript sources

    - [index.ts] (the command-line orchestrator: [chunkRequests], [main],
      [prepareOutputData]), in its current form, in the earlier form that
      wrote a CSV report by hand, and in its first form that printed a
      table, and
    - [spotify.ts] ([retryAfterRateLimitApplied], [SpotifyClient]),

    together with the three lodash helpers the orchestrator imports
    ([chunk], [uniq], [flatten]), the part of [Promise.all] and of
    [parseInt] that the code relies on.

    ** Modelling conventions

    - A thrown value is a [JsError]; an asynchronous computation ends in an
      [outcome]: [Fulfilled] with a value or [Rejected] with the error.
    - A promise is the state transformer that runs when the promise settles:
      [Promise St A := St -> outcome A * St].  The store [St] holds whatever
      the callbacks share (dictionaries, the upstream server).  In which
      order the promises handed to [Promise.all] settle is not fixed by the
      program; it is chosen by a scheduler, an arbitrary function from the
      list of pending positions to the one that settles next.  Theorems
      quantify over all schedulers, and every order of completion is the
      choice of one of them.
    - Granularity.  What a promise does to the store (the request it sends,
      the dictionary entry it writes) is attributed to the moment it
      settles, as one step.  In the program the requests of a group leave
      when [requestFn] is called, and an operation that is still in flight
      when [Promise.all] is rejected goes on in the background; once the
      run is rejected the model says nothing about such operations: their
      requests are not in [sent] and their writes not in the store.  In
      the same way the two stages that the current [main] hands to
      [Promise.all] run as two whole phases, in the order the scheduler
      picks; runs in which their requests interleave are not represented.
      Statements about fulfilled runs do not depend on this; statements
      about rejected runs speak of the operations that had settled.
    - A plain JavaScript object used as a dictionary is a [JsObject.Dict]:
      its own properties and its prototype.  Reading a key falls through to
      the prototype, and assigning to ["__proto__"] replaces the prototype.
    - JavaScript numbers that the code uses as counters and indices are
      [nat]; numbers read from the network are [jsnum]: a double whose value
      is an integer, an infinity, or NaN.  [to_double] rounds an integer to
      the nearest double, as [parseInt] and [*] do.
    - Console output and timers are recorded in a journal. *)

From Stdlib Require Import ZArith Lia Ascii String.
From Stdlib Require Floats.SpecFloat.
From stdpp Require Import base tactics option list strings pretty gmap.

Set Default Proof Using "Type".
Open Scope string_scope.
Open Scope list_scope.

(** ** lodash *)

Module Lodash.
Section Lists.
Context {A : Type}.

(** [chunk(array, size)]: [size] is clamped at zero; an empty array or a
    size below one gives [[]]; otherwise consecutive slices
    [array.slice(index, index += size)] while [index < length]. *)
Fixpoint chunk_slices (fuel : nat) (array : list A) (size : nat) : list (list A) :=
  match fuel with
  | 0 => []
  | S fuel' =>
      match array with
      | [] => []
      | _ :: _ => take size array :: chunk_slices fuel' (drop size array) size
      end
  end.

Definition chunk (array : list A) (size : nat) : list (list A) :=
  if decide (size < 1) then [] else chunk_slices (length array) array size.

(** [flatten(array)] removes one level of nesting. *)
Definition flatten (array : list (list A)) : list A := concat array.

Context `{EqDecision A}.

(** [uniq(array)]: walk the array and push every value not yet present
    in the result. *)
Definition uniq_step (result : list A) (value : A) : list A :=
  if decide (value ∈ result) then result else result ++ [value].

Definition uniq (array : list A) : list A := foldl uniq_step [] array.

(** Position of the first occurrence of [x] in [l] ([length l] when absent). *)
Fixpoint first_index (x : A) (l : list A) : nat :=
  match l with
  | [] => 0
  | y :: l' => if decide (x = y) then 0 else S (first_index x l')
  end.
End Lists.
End Lodash.

Import Lodash.

(** ** Errors and outcomes *)

(** The part of an HTTP error response that the code inspects. *)
Record ErrorResponse := {
  status : Z;
  headers : gmap string string;
}.

(** A thrown value.  [response] is absent for errors that do not come from
    an HTTP response (a network failure, [new Error("Not authenticated")]). *)
Record JsError := {
  message : string;
  response : option ErrorResponse;
}.

Inductive outcome (A : Type) : Type :=
  | Fulfilled (value : A)
  | Rejected (error : JsError).
Arguments Fulfilled {A} value.
Arguments Rejected {A} error.

(** A promise over a store [St]: the transformer run when it settles. *)
Abbreviation Promise St A := (St -> outcome A * St)%type (only parsing).

(** ** Promise.all *)

Module Async.
Section PromiseAll.
Context {St R : Type}.

(** The values array of [Promise.all] once nothing is pending. *)
Definition collect (values : list (option R)) : list R := omap id values.

(** One settlement at a time: the scheduler [pick] names one of the
    pending promises (by its place in the pending list, modulo its
    length); a fulfilment stores the value at the promise's position, a
    rejection rejects the whole [Promise.all] at once.  The third
    component lists the positions in the order in which they settled.
    A promise acts on the store when it is picked; the promises still
    pending at a rejection are dropped without having acted, whereas the
    operations behind them would go on in the program. *)
Fixpoint settle (fuel : nat) (pick : list nat -> nat)
    (pending : list (nat * Promise St R)) (values : list (option R)) (s : St)
    : outcome (list R) * St * list nat :=
  match fuel with
  | 0 => (Fulfilled (collect values), s, [])
  | S fuel' =>
      let k := pick pending.*1 `mod` length pending in
      match pending !! k with
      | None => (Fulfilled (collect values), s, [])
      | Some (pos, p) =>
          match p s with
          | (Fulfilled r, s') =>
              let '(o, s'', order) :=
                settle fuel' pick (delete k pending) (<[pos := Some r]> values) s' in
              (o, s'', pos :: order)
          | (Rejected e, s') => (Rejected e, s', [pos])
          end
      end
  end.

Definition Promise_all (pick : list nat -> nat) (promises : list (Promise St R)) (s : St)
    : outcome (list R) * St * list nat :=
  settle (length promises) pick (imap (fun pos p => (pos, p)) promises)
    (replicate (length promises) None) s.
End PromiseAll.
End Async.

Import Async.

(** ** index.ts: the batch executor *)

(** What an observer of one [chunkRequests] call sees: [requestFn] being
    called for the element at place [index] of group [i], and the promise
    it returned settling. *)
Inductive event : Type :=
  | Call (i index : nat)
  | Settled (i index : nat).

Global Instance event_eq_dec : EqDecision event.
Proof. solve_decision. Defined.

Section ChunkRequests.
Context {St InputElement Result : Type}.

(** The [for] loop over [chunks], from group [i] on, with the groups
    done so far in [result].  The trace records the calls of [requestFn]
    for a whole group before any settlement of that group, as [map] makes
    them. *)
Fixpoint chunkRequests_loop (sched : nat -> list nat -> nat)
    (requestFn : InputElement -> nat -> Promise St Result) (concurrentRequests : nat)
    (chunks : list (list InputElement)) (i : nat) (result : list (list Result)) (s : St)
    : outcome (list Result) * St * list event :=
  match chunks with
  | [] => (Fulfilled (flatten result), s, [])
  | chunks_i :: rest =>
      let promises :=
        imap (fun index value => requestFn value (i * concurrentRequests + index)) chunks_i in
      let calls := Call i <$> seq 0 (length chunks_i) in
      match Promise_all (sched i) promises s with
      | (Fulfilled values, s', order) =>
          let '(o, s'', trace) :=
            chunkRequests_loop sched requestFn concurrentRequests rest (i + 1)
              (result ++ [values]) s' in
          (o, s'', calls ++ (Settled i <$> order) ++ trace)
      | (Rejected e, s', order) => (Rejected e, s', calls ++ (Settled i <$> order))
      end
  end.

Definition chunkRequests (sched : nat -> list nat -> nat)
    (inputArray : list InputElement)
    (requestFn : InputElement -> nat -> Promise St Result)
    (concurrentRequests : nat) (s : St)
    : outcome (list Result) * St * list event :=
  chunkRequests_loop sched requestFn concurrentRequests
    (chunk inputArray concurrentRequests) 0 [] s.
End ChunkRequests.

(** The operations still pending after a trace. *)
Definition pending_step (acc : list (nat * nat)) (ev : event) : list (nat * nat) :=
  match ev with
  | Call i index => acc ++ [(i, index)]
  | Settled i index => filter (fun op => op <> (i, index)) acc
  end.

Definition pending (trace : list event) : list (nat * nat) :=
  foldl pending_step [] trace.

(** The discipline of one call: at every instant at most
    [concurrentRequests] operations are pending, and an operation is
    launched only while the operations launched before it in its own
    group, and no others, are pending. *)
Definition in_flight_bounded (concurrentRequests : nat) (trace : list event) : Prop :=
  forall m, length (pending (take m trace)) <= concurrentRequests.

Definition launched_by_group (trace : list event) : Prop :=
  forall m i k, trace !! m = Some (Call i k) -> pending (take m trace) = pair i <$> seq 0 k.

(** Schedulers used in examples: first in, first out, and last launched
    settles first. *)
Definition fifo : list nat -> nat := fun _ => 0.
Definition lifo : list nat -> nat := fun ps => length ps - 1.

(** The scheduler that makes the promises settle in a given order: of the
    positions listed in [order], the first one still pending is next. *)
Definition in_sequence (order : list nat) : list nat -> nat :=
  fun pending_positions =>
    match list_find (fun pos => pos ∈ pending_positions) order with
    | Some (_, pos) => default 0 (fst <$> list_find (fun p => p = pos) pending_positions)
    | None => 0
    end.

(** ** spotify.ts: the rate-limit retry wrapper *)

(** A number read from the network.  A JavaScript number is a double; the
    ones that [parseInt] and a product of them with an integer can give are
    NaN, the two infinities, and the doubles whose value is an integer:
    [Num z] is the double of value [z].  (The two zeros are both [Num 0]:
    they print alike and set the same timer.) *)
Inductive jsnum : Type :=
  | NaN
  | Num (z : Z)
  | Infinity (negative : bool).

(** The double nearest to the integer [z], ties to even.  Below 2^53 in
    absolute value every integer is a double.  Above, the 53 leading bits
    are kept and the [shift] bits below them are rounded away; a result of
    2^1024 or more overflows to an infinity. *)
Definition to_double (z : Z) : jsnum :=
  let a := Z.abs z in
  if (a <? 2 ^ 53)%Z then Num z
  else
    let shift := (Z.log2 a - 52)%Z in
    let q := Z.shiftr a shift in
    let r := Z.land a (Z.ones shift) in
    let half := Z.shiftl 1 (shift - 1) in
    let q' := if (r <? half)%Z then q
              else if (half <? r)%Z then (q + 1)%Z
              else if Z.even q then q else (q + 1)%Z in
    let m := Z.shiftl q' shift in
    if (2 ^ 1024 <=? m)%Z then Infinity (z <? 0)%Z else Num (Z.sgn z * m).

(** The same rounding by the Standard Library's specification of binary64
    arithmetic, against which [to_double] is checked below. *)
Definition of_spec_float (x : SpecFloat.spec_float) : jsnum :=
  match x with
  | SpecFloat.S754_zero _ => Num 0
  | SpecFloat.S754_infinity s => Infinity s
  | SpecFloat.S754_nan => NaN
  | SpecFloat.S754_finite s m e => Num (SpecFloat.cond_Zopp s (Z.shiftl (Zpos m) e))
  end.

Definition binary64_of_Z (z : Z) : jsnum :=
  of_spec_float (SpecFloat.binary_normalize 53 1024 z 0 false).

Definition same_double (a b : jsnum) : bool :=
  match a, b with
  | NaN, NaN => true
  | Num x, Num y => (x =? y)%Z
  | Infinity x, Infinity y => Bool.eqb x y
  | _, _ => false
  end.

(** [to_double] and [binary64_of_Z] agree on [z], [-z], [z + step],
    [-(z + step)], ... ([n] steps). *)
Fixpoint doubles_agree (n : nat) (z step : Z) : bool :=
  match n with
  | 0 => true
  | S n' =>
      same_double (to_double z) (binary64_of_Z z)
      && same_double (to_double (- z)) (binary64_of_Z (- z))
      && doubles_agree n' (z + step) step
  end.

(** [a * k] for a number [a] and an integer [k] that is itself a double
    (the code multiplies by 1000): the exact product, rounded. *)
Definition jsmul (a : jsnum) (k : Z) : jsnum :=
  match a with
  | NaN => NaN
  | Num z => to_double (z * k)
  | Infinity negative =>
      if (k =? 0)%Z then NaN else Infinity (xorb negative (k <? 0)%Z)
  end.

Module JsParse.
(** White space skipped by [parseInt], among the characters a header
    value can hold (code units below 256): tab, line feed, vertical tab,
    form feed, carriage return, space and no-break space. *)
Definition is_white_space (c : ascii) : bool :=
  let n := nat_of_ascii c in
  Nat.eqb n 32 || (Nat.leb 9 n && Nat.leb n 13) || Nat.eqb n 160.

Definition digit_of (c : ascii) : option Z :=
  let n := nat_of_ascii c in
  if Nat.leb 48 n && Nat.leb n 57 then Some (Z.of_nat (n - 48)) else None.

Fixpoint trim_start (s : string) : string :=
  match s with
  | String c s' => if is_white_space c then trim_start s' else s
  | EmptyString => s
  end.

(** Value of the longest prefix of decimal digits, if there is one. *)
Fixpoint digits_prefix (s : string) (acc : option Z) : option Z :=
  match s with
  | String c s' =>
      match digit_of c with
      | Some d => digits_prefix s' (Some (10 * default 0%Z acc + d)%Z)
      | None => acc
      end
  | EmptyString => acc
  end.

(** An optional sign in front, and what follows it. *)
Definition split_sign (s : string) : Z * string :=
  match s with
  | String "-" rest => ((-1)%Z, rest)
  | String "+" rest => (1%Z, rest)
  | _ => (1%Z, s)
  end.

(** [parseInt(input, 10)]; [None] is [undefined], whose string form has
    no leading digit.  The result is the Number value for the integer that
    the digits denote: that integer rounded to a double.  (Past the 20th
    significant digit the language lets an engine replace digits by zeros
    before rounding; V8 rounds the exact value.) *)
Definition parseInt (input : option string) : jsnum :=
  match input with
  | None => NaN
  | Some s =>
      let '(sign, s) := split_sign (trim_start s) in
      match digits_prefix s None with
      | None => NaN
      | Some v => to_double (sign * v)
      end
  end.

(** A header value that is present and, after white space and an
    optional sign, starts with a decimal digit. *)
Definition numeric (input : option string) : bool :=
  match input with
  | None => false
  | Some s =>
      match (split_sign (trim_start s)).2 with
      | String c _ => bool_decide (is_Some (digit_of c))
      | EmptyString => false
      end
  end.
End JsParse.

Import JsParse.

Global Instance nat_ge_dec (x y : nat) : Decision (x >= y) := decide (y <= x).

Definition TOO_MANY_REQUESTS : Z := 429.
Definition MAX_RETRIES : nat := 10.

(** What the wrapper itself does besides calling [innerFn]: the console
    line, and the timer it awaits, with the delay handed to [setTimeout]
    (Node runs a timer whose delay is NaN, below 1 or above 2^31 - 1
    after 1 ms). *)
Inductive RetryEffect : Type :=
  | RateLimitLog (secondsToWait : jsnum) (retry : nat)
  | Timeout (ms : jsnum).

(** [error.response?.status] *)
Definition response_status (error : JsError) : option Z := status <$> response error.

(** [error.response.headers["retry-after"]] *)
Definition retry_after_header (error : JsError) : option string :=
  response error ≫= fun r => headers r !! "retry-after".

Section Retry.
Context {W T : Type}.

Fixpoint retry_loop (fuel : nat) (innerFn : Promise W T) (previousRetries : nat) (w : W)
    : outcome T * W * list RetryEffect :=
  match innerFn w with
  | (Fulfilled value, w') => (Fulfilled value, w', [])
  | (Rejected error, w') =>
      if decide (response_status error <> Some TOO_MANY_REQUESTS
                 \/ previousRetries >= MAX_RETRIES)
      then (Rejected error, w', [])
      else
        match fuel with
        | 0 => (Rejected error, w', [])
        | S fuel' =>
            let secondsToWait := parseInt (retry_after_header error) in
            let '(o, w'', effects) :=
              retry_loop fuel' innerFn (previousRetries + 1) w' in
            (o, w'',
             RateLimitLog secondsToWait (previousRetries + 1)
               :: Timeout (jsmul secondsToWait 1000) :: effects)
        end
  end.

(** The recursion ends because [previousRetries] grows up to
    [MAX_RETRIES]; the fuel given here is never used up (see
    [retryAfterRateLimitApplied_unfold]). *)
Definition retryAfterRateLimitApplied (innerFn : Promise W T) (previousRetries : nat) (w : W)
    : outcome T * W * list RetryEffect :=
  retry_loop (MAX_RETRIES - previousRetries) innerFn previousRetries w.
End Retry.

(** State effect of [n] successive invocations of [innerFn]. *)
Definition invoke_times {W T : Type} (innerFn : Promise W T) (n : nat) (w : W) : W :=
  Nat.iter n (fun w => snd (innerFn w)) w.

(** The console lines and timers of a run of retries that starts at
    attempt count [previousRetries] and waits [waits] in turn. *)
Fixpoint retry_effects (previousRetries : nat) (waits : list jsnum) : list RetryEffect :=
  match waits with
  | [] => []
  | secondsToWait :: rest =>
      RateLimitLog secondsToWait (previousRetries + 1)
        :: Timeout (jsmul secondsToWait 1000)
        :: retry_effects (previousRetries + 1) rest
  end.

(** The reading of a missing or non-numeric Retry-After header as a fatal
    error of the attempt: the wrapper ends rejected after the one
    invocation, without a retry. *)
Definition header_failure_is_fatal {W T : Type}
    (innerFn : Promise W T) (previousRetries : nat) (w : W) : Prop :=
  forall error w',
    innerFn w = (Rejected error, w') ->
    response_status error = Some TOO_MANY_REQUESTS ->
    parseInt (retry_after_header error) = NaN ->
    exists fatal, retryAfterRateLimitApplied innerFn previousRetries w = (Rejected fatal, w', []).

(** ** Plain objects used as dictionaries

    The dictionaries of [main] are object literals ([{}]) indexed by
    identifier.  Such an object has its own properties and a prototype,
    [Object.prototype] at first.  A read [dict[key]] that finds no own
    property goes up the prototype chain; a write [dict[key] = value] makes
    an own property, except that a write to the inherited accessor
    ["__proto__"] replaces the prototype when the value is an object and
    does nothing otherwise. *)

Module JsObject.
(** The functions that [Object.prototype] holds (V8), by property name;
    its one other property is the accessor ["__proto__"]. *)
Definition prototype_functions : list string :=
  ["constructor"; "__defineGetter__"; "__defineSetter__"; "hasOwnProperty";
   "__lookupGetter__"; "__lookupSetter__"; "isPrototypeOf"; "propertyIsEnumerable";
   "toString"; "valueOf"; "toLocaleString"].

(** The [name] of the function found under [key]: [constructor] is
    [Object]; the others are named as their key. *)
Definition function_name (key : string) : string :=
  if decide (key = "constructor") then "Object" else key.

(** What a dictionary can hold: whether a value is an object (and not
    [undefined]), and the names of the properties an object has of its
    own. *)
Class Stored (V : Type) := {
  is_object : V -> bool;
  own_names : V -> list string;
}.

(** [prototype] is [None] for [Object.prototype] and [Some holder] once
    the prototype has been replaced by the object [holder] (whose own
    prototype is [Object.prototype]: the objects stored come from
    [JSON.parse]). *)
Record Dict (V : Type) := {
  own : gmap string V;
  prototype : option V;
}.
Arguments own {V} _.
Arguments prototype {V} _.

(** What a read finds. *)
Inductive Reading (V : Type) : Type :=
  | Own (value : V)
  | Proto (object : option V)
  | Inherited (holder : V) (key : string)
  | Builtin (key : string)
  | Missing.
Arguments Own {V} value.
Arguments Proto {V} object.
Arguments Inherited {V} holder key.
Arguments Builtin {V} key.
Arguments Missing {V}.

Section Dict.
Context {V : Type} `{!Stored V}.

(** Whether the object that replaced the prototype, if one did, has an
    own property [key]. *)
Definition holder_has (key : string) (d : Dict V) : Prop :=
  match prototype d with
  | Some holder => key ∈ own_names holder
  | None => False
  end.

Global Instance holder_has_dec key d : Decision (holder_has key d).
Proof. unfold holder_has. destruct (prototype d); apply _. Defined.

(** [dict[key]]: an own property; else a property of the object that
    replaced the prototype; else what [Object.prototype] has under [key]:
    the accessor ["__proto__"], which gives the prototype of [dict], or
    one of its functions; else [undefined]. *)
Definition read (key : string) (d : Dict V) : Reading V :=
  match own d !! key with
  | Some value => Own value
  | None =>
      match prototype d with
      | Some holder =>
          if decide (key ∈ own_names holder) then Inherited holder key
          else if decide (key = "__proto__") then Proto (prototype d)
          else if decide (key ∈ prototype_functions) then Builtin key
          else Missing
      | None =>
          if decide (key = "__proto__") then Proto None
          else if decide (key ∈ prototype_functions) then Builtin key
          else Missing
      end
  end.

(** [dict[key] = value]. *)
Definition assign (key : string) (value : V) (d : Dict V) : Dict V :=
  if decide (key = "__proto__" /\ own d !! key = None /\ ~ holder_has key d)
  then
    if is_object value then {| own := own d; prototype := Some value |} else d
  else {| own := <[key := value]> (own d); prototype := prototype d |}.
End Dict.
End JsObject.

(** [d !! key] is the own property [key] of the dictionary [d], if it has
    one, and [∅] is the object literal [{}]. *)
Global Instance dict_lookup {V : Type} : Lookup string V (JsObject.Dict V) :=
  fun key d => JsObject.own d !! key.

Global Instance dict_empty {V : Type} : Empty (JsObject.Dict V) :=
  {| JsObject.own := ∅; JsObject.prototype := None |}.

(** ** spotify.ts: the client *)

(** Of the API objects, the fields that the program reads. *)
Record ArtistObject := {
  artist_id : string;
  artist_name : string;
  artist_popularity : Z;
  followers_total : Z;
}.

Record SimplifiedAlbumObject := {
  album_id : string;
  album_name : string;
  release_date : string;
}.

(** The properties that the declared types give to the two kinds of
    objects. *)
Definition artist_property_names : list string :=
  ["id"; "external_urls"; "followers"; "genres"; "href"; "images"; "name";
   "popularity"; "type"; "uri"].

Definition album_property_names : list string :=
  ["album_group"; "album_type"; "artists"; "available_markets"; "external_urls";
   "href"; "id"; "images"; "name"; "release_date"; "release_date_precision";
   "total_tracks"; "type"; "uri"].

Global Instance artist_stored : JsObject.Stored ArtistObject := {|
  JsObject.is_object := fun _ => true;
  JsObject.own_names := fun _ => artist_property_names;
|}.

(** The dictionary of latest albums holds albums and [undefined]. *)
Global Instance album_stored : JsObject.Stored (option SimplifiedAlbumObject) := {|
  JsObject.is_object := fun value => bool_decide (is_Some value);
  JsObject.own_names := fun value =>
    match value with
    | Some _ => album_property_names
    | None => []
    end;
|}.

(** An identifier that is the name of no property which a dictionary of
    artists can inherit: not ["__proto__"], not the name of a function of
    [Object.prototype], not the name of a property of an artist. *)
Definition ordinary_key (key : string) : Prop :=
  key <> "__proto__"
  /\ (key ∉ JsObject.prototype_functions)
  /\ (key ∉ artist_property_names).

Global Instance ordinary_key_dec key : Decision (ordinary_key key).
Proof. unfold ordinary_key. apply _. Defined.

Record PagingObject (Resource : Type) := {
  items : list Resource;
}.
Arguments items {Resource} _.

Record ArtistsBody := {
  artists : list ArtistObject;
}.

Record AxiosResponse (D : Type) := {
  data : D;
}.
Arguments data {D} _.

Record SpotifyAccessTokenResponse := {
  access_token : string;
}.

Inductive ParamValue : Type :=
  | PStr (s : string)
  | PNum (n : Z).

(** A GET request as the client hands it to axios. *)
Record Request := {
  path : string;
  params : list (string * ParamValue);
}.

(** The [AxiosInstance] made by [authenticate]. *)
Record AxiosInstance := {
  baseURL : string;
  authorization : string;
}.

Record SpotifyClient := {
  accessToken : option SpotifyAccessTokenResponse;
  client : option AxiosInstance;
}.

Definition new_SpotifyClient : SpotifyClient :=
  {| accessToken := None; client := None |}.

(** The upstream service behind axios, at the three places where the
    program calls it.  Each handler answers a request in the current state
    of the server: with a response, or with the error axios raises for a
    status outside 2xx or for a network failure. *)
Record Upstream (Server : Type) := {
  token_endpoint : string -> string -> Promise Server SpotifyAccessTokenResponse;
  artists_endpoint : AxiosInstance -> Request -> Promise Server (AxiosResponse ArtistsBody);
  albums_endpoint :
    AxiosInstance -> Request -> Promise Server (AxiosResponse (PagingObject SimplifiedAlbumObject));
}.
Arguments token_endpoint {Server} _.
Arguments artists_endpoint {Server} _.
Arguments albums_endpoint {Server} _.

(** The world of the client: the server, the requests sent through
    [client.get] so far, and what the retry wrapper printed and waited. *)
Record World (Server : Type) := {
  server : Server;
  sent : list Request;
  journal : list RetryEffect;
}.
Arguments server {Server} _.
Arguments sent {Server} _.
Arguments journal {Server} _.

(** Upstreams that answer: the token endpoint grants every request; the
    artists endpoint answers every request, in whatever state, with the
    artists [catalogue] gives for it; the albums endpoint answers every
    request with the page of items [listing] gives for it. *)
Definition token_granted {Server : Type} (up : Upstream Server) : Prop :=
  forall clientId clientSecret srv,
    exists token srv', token_endpoint up clientId clientSecret srv = (Fulfilled token, srv').

Definition artists_answered_by {Server : Type} (up : Upstream Server)
    (catalogue : Request -> list ArtistObject) : Prop :=
  forall c req srv,
    exists srv',
      artists_endpoint up c req srv
      = (Fulfilled {| data := {| artists := catalogue req |} |}, srv').

Definition albums_answered_by {Server : Type} (up : Upstream Server)
    (listing : Request -> list SimplifiedAlbumObject) : Prop :=
  forall c req srv,
    exists srv',
      albums_endpoint up c req srv
      = (Fulfilled {| data := {| items := listing req |} |}, srv').

Section Client.
Context {Server : Type} (up : Upstream Server).

(** [client.get<D>(path, { params })] *)
Definition axios_get {D : Type}
    (endpoint : AxiosInstance -> Request -> Promise Server (AxiosResponse D))
    (c : AxiosInstance) (req : Request) : Promise (World Server) (AxiosResponse D) :=
  fun w =>
    let '(o, srv) := endpoint c req (server w) in
    (o, {| server := srv; sent := sent w ++ [req]; journal := journal w |}).

Definition record_effects (effects : list RetryEffect) (w : World Server) : World Server :=
  {| server := server w; sent := sent w; journal := journal w ++ effects |}.

(** [authenticate]: one POST to the token endpoint (the handler stands
    for [getAuthToken], Basic header included), then the instance with
    the bearer header. *)
Definition authenticate (this : SpotifyClient) (clientId clientSecret : string)
    : Promise (World Server) SpotifyClient :=
  fun w =>
    match token_endpoint up clientId clientSecret (server w) with
    | (Fulfilled token, srv) =>
        (Fulfilled
           {| accessToken := Some token;
              client := Some {| baseURL := "https://api.spotify.com/v1";
                                authorization := "Bearer " +:+ access_token token |} |},
         {| server := srv; sent := sent w; journal := journal w |})
    | (Rejected e, srv) =>
        (Rejected e, {| server := srv; sent := sent w; journal := journal w |})
    end.

Definition assertClient (this : SpotifyClient) : outcome AxiosInstance :=
  match client this with
  | None => Rejected {| message := "Not authenticated"; response := None |}
  | Some c => Fulfilled c
  end.

(** The request function handed to the retry wrapper:
    [() => this.assertClient().get(path, { params })]. *)
Definition guarded_get {D : Type}
    (endpoint : AxiosInstance -> Request -> Promise Server (AxiosResponse D))
    (this : SpotifyClient) (req : Request) : Promise (World Server) (AxiosResponse D) :=
  fun w =>
    match assertClient this with
    | Rejected e => (Rejected e, w)
    | Fulfilled c => axios_get endpoint c req w
    end.

Definition artists_request (ids : list string) : Request :=
  {| path := "artists"; params := [("ids", PStr (String.concat "," ids))] |}.

Definition albums_request (artistId : string) : Request :=
  {| path := "artists/" +:+ artistId +:+ "/albums"; params := [("limit", PNum 1)] |}.

Definition getArtists (this : SpotifyClient) (ids : list string)
    : Promise (World Server) (list ArtistObject) :=
  fun w =>
    let '(o, w', effects) :=
      retryAfterRateLimitApplied
        (guarded_get (artists_endpoint up) this (artists_request ids)) 0 w in
    match o with
    | Fulfilled response => (Fulfilled (artists (data response)), record_effects effects w')
    | Rejected e => (Rejected e, record_effects effects w')
    end.

(** [response.data.items[0]]: the first item, [undefined] for an empty page. *)
Definition getLatestAlbum (this : SpotifyClient) (artistId : string)
    : Promise (World Server) (option SimplifiedAlbumObject) :=
  fun w =>
    let '(o, w', effects) :=
      retryAfterRateLimitApplied
        (guarded_get (albums_endpoint up) this (albums_request artistId)) 0 w in
    match o with
    | Fulfilled response => (Fulfilled (items (data response) !! 0), record_effects effects w')
    | Rejected e => (Rejected e, record_effects effects w')
    end.
End Client.

(** ** index.ts: the orchestrator *)

(** [{ spotify?: { id: string | null } }] *)
Record SpotifyRef := {
  ref_id : option string;
}.

Record RemoteIds := {
  spotify : option SpotifyRef;
}.

(** [originalInput] is the parsed record, an object: its columns by name. *)
Record InputRecord := {
  originalInput : gmap string string;
  shop_artist_ids : option RemoteIds;
}.

(** A cell of an output record. *)
Inductive Cell : Type :=
  | Text (s : string)
  | Number (z : Z)
  | Undefined.

(** An output record is an object too: [{...originalInput, spotifyId: ...}]
    has the columns of [originalInput], and the six computed columns, which
    replace columns of the same name.  (The order of the properties, which
    the writers follow, is not modelled.) *)
Abbreviation OutputRecord := (gmap string Cell).

Definition computed_columns : list string :=
  ["spotifyId"; "artistName"; "popularity"; "followers"; "latestAlbumName";
   "latestAlbumReleaseDate"].

Definition text_cell (value : option string) : Cell := from_option Text Undefined value.
Definition number_cell (value : option Z) : Cell := from_option Number Undefined value.

(** [shop_artist_ids?.spotify?.id] when it is truthy: present, not null
    and not the empty string. *)
Definition truthy_spotify_id (r : InputRecord) : option string :=
  match shop_artist_ids r with
  | Some {| spotify := Some {| ref_id := Some s |} |} =>
      if decide (s = "") then None else Some s
  | _ => None
  end.

(** The identifier list of [main]: pushed record by record, then [uniq]. *)
Definition extract_spotifyIds (inputRecords : list InputRecord) : list string :=
  omap truthy_spotify_id inputRecords.

Definition resolve_spotifyIds (inputRecords : list InputRecord) : list string :=
  uniq (extract_spotifyIds inputRecords).

(** The error of [undefined.total] (the wording is the engine's and has
    changed between versions of V8). *)
Definition cannot_read_total : JsError :=
  {| message := "Cannot read property 'total' of undefined"; response := None |}.

(** [spotifyArtist?.name], [?.popularity] and [?.followers.total] for what
    [spotifyIdToArtistObject[spotifyId]] has found.  [undefined] gives three
    undefined columns.  An artist gives its three values; the artist that
    replaced the prototype, found under ["__proto__"], does as well.
    Anything else (a function or the prototype object inherited from
    [Object.prototype], a property of the artist that replaced the
    prototype) is not [undefined] and has no [followers]: reading [total]
    of it throws. *)
Definition artist_columns (found : JsObject.Reading ArtistObject)
    : outcome (option ArtistObject) :=
  match found with
  | JsObject.Own artist | JsObject.Proto (Some artist) => Fulfilled (Some artist)
  | JsObject.Missing => Fulfilled None
  | JsObject.Proto None | JsObject.Inherited _ _ | JsObject.Builtin _ =>
      Rejected cannot_read_total
  end.

(** [latestAlbum?.name] and [latestAlbum?.release_date] for what
    [artistIdToLatestAlbumDict[spotifyId]] has found.  A function inherited
    from [Object.prototype] has a [name]; a string, a number or an array
    found in the album that replaced the prototype has neither property,
    and neither has [Object.prototype]. *)
Definition album_columns (found : JsObject.Reading (option SimplifiedAlbumObject))
    : option string * option string :=
  match found with
  | JsObject.Own (Some album) | JsObject.Proto (Some (Some album)) =>
      (Some (album_name album), Some (release_date album))
  | JsObject.Builtin key => (Some (JsObject.function_name key), None)
  | _ => (None, None)
  end.

(** The callback of [inputRecords.map] in [prepareOutputData]. *)
Definition prepare_record
    (spotifyIdToArtistObject : JsObject.Dict ArtistObject)
    (artistIdToLatestAlbumDict : JsObject.Dict (option SimplifiedAlbumObject))
    (r : InputRecord) : outcome OutputRecord :=
  let spotifyId := truthy_spotify_id r in
  let spotifyArtist :=
    match spotifyId with
    | Some key => artist_columns (JsObject.read key spotifyIdToArtistObject)
    | None => Fulfilled None
    end in
  let latestAlbum :=
    match spotifyId with
    | Some key => album_columns (JsObject.read key artistIdToLatestAlbumDict)
    | None => (None, None)
    end in
  match spotifyArtist with
  | Rejected e => Rejected e
  | Fulfilled spotifyArtist =>
      Fulfilled
        (<["latestAlbumReleaseDate" := text_cell latestAlbum.2]>
           (<["latestAlbumName" := text_cell latestAlbum.1]>
              (<["followers" := number_cell (followers_total <$> spotifyArtist)]>
                 (<["popularity" := number_cell (artist_popularity <$> spotifyArtist)]>
                    (<["artistName" := text_cell (artist_name <$> spotifyArtist)]>
                       (<["spotifyId" := text_cell spotifyId]>
                          (Text <$> originalInput r)))))))
  end.

(** [prepareOutputData]: the records in turn; the first one that throws
    ends the call. *)
Fixpoint prepareOutputData (inputRecords : list InputRecord)
    (spotifyIdToArtistObject : JsObject.Dict ArtistObject)
    (artistIdToLatestAlbumDict : JsObject.Dict (option SimplifiedAlbumObject))
    : outcome (list OutputRecord) :=
  match inputRecords with
  | [] => Fulfilled []
  | r :: rest =>
      match prepare_record spotifyIdToArtistObject artistIdToLatestAlbumDict r with
      | Rejected e => Rejected e
      | Fulfilled row =>
          match prepareOutputData rest spotifyIdToArtistObject artistIdToLatestAlbumDict with
          | Rejected e => Rejected e
          | Fulfilled rows => Fulfilled (row :: rows)
          end
      end
  end.

(** What the callbacks of [main] share. *)
Record Store (Server : Type) := {
  world : World Server;
  spotifyIdToArtistObjectDict : JsObject.Dict ArtistObject;
  artistIdToLatestAlbumDict : JsObject.Dict (option SimplifiedAlbumObject);
}.
Arguments world {Server} _.
Arguments spotifyIdToArtistObjectDict {Server} _.
Arguments artistIdToLatestAlbumDict {Server} _.

(** The choices left to the event loop during one run. *)
Record Schedule := {
  sched_artists : nat -> list nat -> nat;
  sched_albums : nat -> list nat -> nat;
  sched_phases : list nat -> nat;
}.

(** What a run leaves behind: how [main] ended, and the records handed to
    the writer ([None]: the writer was not called).  Writing itself, that
    is serialising the records and [fs.writeFile], is not modelled:
    [written] says what the file is to hold, not that the file was
    completed before the process ended. *)
Record Run (Server Row : Type) := {
  exit : outcome ();
  written : option (list Row);
  final : Store Server;
}.
Arguments exit {Server Row} _.
Arguments written {Server Row} _.
Arguments final {Server Row} _.

Section Orchestrator.
Context {Server : Type} (up : Upstream Server).

Definition with_world (st : Store Server) (w : World Server) : Store Server :=
  {| world := w;
     spotifyIdToArtistObjectDict := spotifyIdToArtistObjectDict st;
     artistIdToLatestAlbumDict := artistIdToLatestAlbumDict st |}.

(** [artistsChunk.forEach((artist) => (dict[artist.id] = artist))] *)
Definition store_artists (artistsChunk : list ArtistObject) (st : Store Server) : Store Server :=
  {| world := world st;
     spotifyIdToArtistObjectDict :=
       foldl (fun d artist => JsObject.assign (artist_id artist) artist d)
         (spotifyIdToArtistObjectDict st) artistsChunk;
     artistIdToLatestAlbumDict := artistIdToLatestAlbumDict st |}.

(** [artistIdToLatestAlbumDict[spotifyId] = album] *)
Definition store_album (spotifyId : string) (album : option SimplifiedAlbumObject)
    (st : Store Server) : Store Server :=
  {| world := world st;
     spotifyIdToArtistObjectDict := spotifyIdToArtistObjectDict st;
     artistIdToLatestAlbumDict :=
       JsObject.assign spotifyId album (artistIdToLatestAlbumDict st) |}.

(** First callback of [main]. *)
Definition fetch_artists_chunk (spotifyClient : SpotifyClient)
    (idsChunk : list string) (index : nat) : Promise (Store Server) () :=
  fun st =>
    match getArtists up spotifyClient idsChunk (world st) with
    | (Fulfilled artistsChunk, w) => (Fulfilled (), store_artists artistsChunk (with_world st w))
    | (Rejected e, w) => (Rejected e, with_world st w)
    end.

(** Second callback of [main]. *)
Definition fetch_latest_album (spotifyClient : SpotifyClient)
    (spotifyId : string) (i : nat) : Promise (Store Server) () :=
  fun st =>
    match getLatestAlbum up spotifyClient spotifyId (world st) with
    | (Fulfilled album, w) => (Fulfilled (), store_album spotifyId album (with_world st w))
    | (Rejected e, w) => (Rejected e, with_world st w)
    end.

(** The artist-fetch stage,
    [chunkRequests(chunk(spotifyIds, 50), callback)]; [main] leaves the
    third argument at its default, 10. *)
Definition artists_stage (sched : nat -> list nat -> nat) (concurrentRequests : nat)
    (spotifyClient : SpotifyClient) (spotifyIds : list string) (st : Store Server)
    : outcome (list ()) * Store Server * list event :=
  chunkRequests sched (chunk spotifyIds 50) (fetch_artists_chunk spotifyClient)
    concurrentRequests st.

Definition albums_stage (sched : nat -> list nat -> nat) (concurrentRequests : nat)
    (spotifyClient : SpotifyClient) (spotifyIds : list string) (st : Store Server)
    : outcome (list ()) * Store Server * list event :=
  chunkRequests sched spotifyIds (fetch_latest_album spotifyClient) concurrentRequests st.

(** [main], from the parsed input records on.  The body of [try] is the
    [Promise.all] of the two stages followed by [prepareOutputData]; the
    [finally] block writes [outputRecords], which is assigned only at the
    end of the body, so that an exception thrown by [prepareOutputData]
    leaves it empty as a rejected stage does.  The two stages run as whole
    phases in the order [sched_phases] picks. *)
Definition main (sch : Schedule) (clientId clientSecret : string)
    (inputRecords : list InputRecord) (srv : Server) : Run Server OutputRecord :=
  let spotifyIds := resolve_spotifyIds inputRecords in
  let w0 := {| server := srv; sent := []; journal := [] |} in
  let st0 :=
    {| world := w0; spotifyIdToArtistObjectDict := ∅; artistIdToLatestAlbumDict := ∅ |} in
  match authenticate up new_SpotifyClient clientId clientSecret w0 with
  | (Rejected e, w) => {| exit := Rejected e; written := None; final := with_world st0 w |}
  | (Fulfilled spotifyClient, w) =>
      let outputRecords : list OutputRecord := [] in
      let phases : list (Promise (Store Server) (list ())) :=
        [ (fun st => (artists_stage (sched_artists sch) 10 spotifyClient spotifyIds st).1);
          (fun st => (albums_stage (sched_albums sch) 10 spotifyClient spotifyIds st).1) ] in
      match Promise_all (sched_phases sch) phases (with_world st0 w) with
      | (Fulfilled _, st, _) =>
          match prepareOutputData inputRecords (spotifyIdToArtistObjectDict st)
                  (artistIdToLatestAlbumDict st) with
          | Fulfilled rows =>
              let outputRecords := rows in
              {| exit := Fulfilled (); written := Some outputRecords; final := st |}
          | Rejected e =>
              {| exit := Rejected e; written := Some outputRecords; final := st |}
          end
      | (Rejected e, st, _) =>
          {| exit := Rejected e; written := Some outputRecords; final := st |}
      end
  end.
End Orchestrator.

(** ** index.ts, earlier revision: the report written by hand *)

Module Csv.
(** One line of the report: the artist's columns and the two album
    columns ([undefined] prints as an empty cell). *)
Record Line := {
  line_id : string;
  line_name : string;
  line_popularity : Z;
  line_followers : Z;
  line_album_name : option string;
  line_release_date : option string;
}.

Section Orchestrator.
Context {Server : Type} (up : Upstream Server).

(** The lines below the header in [writeOutput]. *)
Definition writeOutput (artists : list ArtistObject)
    (artistIdToLatestAlbumDict : JsObject.Dict (option SimplifiedAlbumObject)) : list Line :=
  (fun a =>
     let album := album_columns (JsObject.read (artist_id a) artistIdToLatestAlbumDict) in
     {| line_id := artist_id a;
        line_name := artist_name a;
        line_popularity := artist_popularity a;
        line_followers := followers_total a;
        line_album_name := album.1;
        line_release_date := album.2 |}) <$> artists.

(** First callback: [return await spotifyClient.getArtists(idsChunk)]. *)
Definition fetch_artists_chunk (spotifyClient : SpotifyClient)
    (idsChunk : list string) (index : nat) : Promise (Store Server) (list ArtistObject) :=
  fun st =>
    let '(o, w) := getArtists up spotifyClient idsChunk (world st) in
    (o, with_world st w).

(** Second callback, over the fetched artists. *)
Definition fetch_latest_album (spotifyClient : SpotifyClient)
    (artist : ArtistObject) (i : nat) : Promise (Store Server) () :=
  fun st =>
    match getLatestAlbum up spotifyClient (artist_id artist) (world st) with
    | (Fulfilled album, w) =>
        (Fulfilled (), store_album (artist_id artist) album (with_world st w))
    | (Rejected e, w) => (Rejected e, with_world st w)
    end.

(** [main] of the earlier revision: the two stages run one after the
    other, and [finally] hands [artists] and the album dictionary, as they
    are at that moment, to [writeOutput].  [writeOutput] starts
    [fs.writeFile] and does not wait for it; when [main] is rejected
    nothing handles the rejection, and whether the file is completed
    before the process ends depends on the runtime.  [written] is the
    data handed over. *)
Definition main (sch : Schedule) (clientId clientSecret : string)
    (inputRecords : list InputRecord) (srv : Server) : Run Server Line :=
  let spotifyIds := resolve_spotifyIds inputRecords in
  let w0 := {| server := srv; sent := []; journal := [] |} in
  let st0 :=
    {| world := w0; spotifyIdToArtistObjectDict := ∅; artistIdToLatestAlbumDict := ∅ |} in
  match authenticate up new_SpotifyClient clientId clientSecret w0 with
  | (Rejected e, w) => {| exit := Rejected e; written := None; final := with_world st0 w |}
  | (Fulfilled spotifyClient, w) =>
      let artists : list ArtistObject := [] in
      match chunkRequests (sched_artists sch) (chunk spotifyIds 50)
              (fetch_artists_chunk spotifyClient) 10 (with_world st0 w) with
      | (Rejected e, st, _) =>
          {| exit := Rejected e;
             written := Some (writeOutput artists (artistIdToLatestAlbumDict st));
             final := st |}
      | (Fulfilled chunkedArtists, st, _) =>
          let artists := flatten chunkedArtists in
          match chunkRequests (sched_albums sch) artists
                  (fetch_latest_album spotifyClient) 10 st with
          | (o, st', _) =>
              {| exit := match o with Fulfilled _ => Fulfilled () | Rejected e => Rejected e end;
                 written := Some (writeOutput artists (artistIdToLatestAlbumDict st'));
                 final := st' |}
          end
      end
  end.
End Orchestrator.
End Csv.

(** ** Runs of the batch executor, as sequences of operations *)

(** The indices handed to [requestFn], in the order of the calls, and the
    indices of the operations that settled, in the order of settlement. *)
Definition called_indices (concurrentRequests : nat) (trace : list event) : list nat :=
  omap (fun ev => match ev with
                  | Call i index => Some (i * concurrentRequests + index)
                  | Settled _ _ => None
                  end) trace.

Definition settled_indices (concurrentRequests : nat) (trace : list event) : list nat :=
  omap (fun ev => match ev with
                  | Call _ _ => None
                  | Settled i index => Some (i * concurrentRequests + index)
                  end) trace.

(** [ran has js s s' err]: from store [s], the operations named [js] ran
    one after the other and left [s']; each of them is one of the
    operations [has] knows under that name; all were fulfilled ([err] is
    [None]), or all but the last, which was rejected with [err]. *)
Inductive ran {St R : Type} (has : nat -> Promise St R -> Prop)
    : list nat -> St -> St -> option JsError -> Prop :=
  | ran_nil s : ran has [] s s None
  | ran_fulfilled j p r s s1 js s' err :
      has j p -> p s = (Fulfilled r, s1) -> ran has js s1 s' err ->
      ran has (j :: js) s s' err
  | ran_rejected j p e s s1 :
      has j p -> p s = (Rejected e, s1) ->
      ran has [j] s s1 (Some e).

(** [ran_log has log s s' err], a run with its results: from store [s]
    the operations listed in [log] ran one after the other, each on the
    store its predecessor left, and each was fulfilled with the value that
    [log] gives beside its index; then the run ended in [s'] ([err] is
    [None]), or the operation of index [j] ran on that store, was rejected
    with [e] and left [s'] ([err] is [Some (j, e)]). *)
Inductive ran_log {St R : Type} (has : nat -> Promise St R -> Prop)
    : list (nat * R) -> St -> St -> option (nat * JsError) -> Prop :=
  | ran_log_nil s : ran_log has [] s s None
  | ran_log_fulfilled j p r s s1 log s' err :
      has j p -> p s = (Fulfilled r, s1) -> ran_log has log s1 s' err ->
      ran_log has ((j, r) :: log) s s' err
  | ran_log_rejected j p e s s1 :
      has j p -> p s = (Rejected e, s1) ->
      ran_log has [] s s1 (Some (j, e)).

(** The indices of the operations that settled in such a run, in order. *)
Definition settled_in {R : Type} (log : list (nat * R)) (err : option (nat * JsError))
    : list nat :=
  log.*1 ++ match err with
            | Some (j, _) => [j]
            | None => []
            end.

(** The values array of [Promise.all] after the fulfilments of [log]. *)
Definition fill {R : Type} (values : list (option R)) (log : list (nat * R))
    : list (option R) :=
  foldl (fun values entry => <[entry.1 := Some entry.2]> values) values log.

(** The error of an outcome, if it is one. *)
Definition rejection {A : Type} (o : outcome A) : option JsError :=
  match o with
  | Fulfilled _ => None
  | Rejected e => Some e
  end.

(** The operation that [chunkRequests] runs under index [j]. *)
Definition operation_of {St InputElement Result : Type}
    (requestFn : InputElement -> nat -> Promise St Result)
    (inputArray : list InputElement) (j : nat) (p : Promise St Result) : Prop :=
  exists v, inputArray !! j = Some v /\ p = requestFn v j.

(** ** spotify.ts, earlier revision: [getArtists] without the retry wrapper *)

Module Plain.
Section Client.
Context {Server : Type} (up : Upstream Server).

(** [(await this.assertClient().get("artists", { params })).data.artists] *)
Definition getArtists (this : SpotifyClient) (ids : list string)
    : Promise (World Server) (list ArtistObject) :=
  fun w =>
    match guarded_get (artists_endpoint up) this (artists_request ids) w with
    | (Fulfilled response, w') => (Fulfilled (artists (data response)), w')
    | (Rejected e, w') => (Rejected e, w')
    end.
End Client.
End Plain.

(** ** src/index.ts: the first command-line program *)

Module Cli.
(** One call of [console.log]: the header line, or the four columns of an
    artist, which the program joins with tabs. *)
Inductive Printed :=
  | Header
  | Row (id name : string) (popularity followers : Z).

Section Program.
Context {Server : Type} (up : Upstream Server).

(** [main(argv)].  A missing [argv[2]] or [argv[3]] is [undefined], which
    the template literal of [getAuthToken] prints as "undefined". *)
Definition main (argv : list string) (srv : Server)
    : outcome () * World Server * list Printed :=
  let clientId := default "undefined" (argv !! 2) in
  let clientSecret := default "undefined" (argv !! 3) in
  let artistIds := drop 4 argv in
  let w0 := {| server := srv; sent := []; journal := [] |} in
  match authenticate up new_SpotifyClient clientId clientSecret w0 with
  | (Rejected e, w) => (Rejected e, w, [])
  | (Fulfilled spotify, w) =>
      match Plain.getArtists up spotify artistIds w with
      | (Rejected e, w') => (Rejected e, w', [])
      | (Fulfilled artists, w') =>
          (Fulfilled (), w',
           Header :: ((fun artist =>
                         Row (artist_id artist) (artist_name artist)
                           (artist_popularity artist) (followers_total artist))
                        <$> artists))
      end
  end.
End Program.
End Cli.

(** ** Test doubles *)

Module Mock.
(** The error axios raises for a 429 response, with or without a
    Retry-After header. *)
Definition too_many_requests (retryAfter : option string) : JsError :=
  {| message := "Request failed with status code 429";
     response :=
       Some {| status := 429;
               headers := match retryAfter with
                          | Some h => {["retry-after" := h]}
                          | None => ∅
                          end |} |}.

Definition server_error : JsError :=
  {| message := "Request failed with status code 500";
     response := Some {| status := 500; headers := ∅ |} |}.

(** An operation over a counter of its invocations: rejected with
    [error] the first [failures] times, fulfilled with [value] from then on. *)
Definition flaky {T : Type} (failures : nat) (error : JsError) (value : T) : Promise nat T :=
  fun invocations =>
    (if decide (invocations < failures) then Rejected error else Fulfilled value,
     invocations + 1).

(** An operation that is rejected with [error] on every invocation. *)
Definition failing {T : Type} (error : JsError) : Promise nat T :=
  fun invocations => (Rejected error, invocations + 1).

(** An operation whose promise records the order of completion. *)
Definition recording (value : nat) (j : nat) : Promise (list nat) nat :=
  fun completed => (Fulfilled (value + j), completed ++ [j]).

Fixpoint split_on (sep : ascii) (s cur : string) : list string :=
  match s with
  | EmptyString => [cur]
  | String c s' =>
      if decide (c = sep) then cur :: split_on sep s' ""
      else split_on sep s' (cur +:+ String c "")
  end.

(** A catalogue served upstream: the artists it knows, their releases
    (latest first), and the artists whose release listing is broken. *)
Record Catalogue := {
  known_artists : list ArtistObject;
  releases : list (string * list SimplifiedAlbumObject);
  broken : list string;
}.

Definition artist_path (artistId : string) : string :=
  "artists/" +:+ artistId +:+ "/albums".

Definition artist (artistId name : string) : ArtistObject :=
  {| artist_id := artistId; artist_name := name;
     artist_popularity := 50; followers_total := 1000 |}.

Definition album (albumId name date : string) : SimplifiedAlbumObject :=
  {| album_id := albumId; album_name := name; release_date := date |}.

Definition input_record (artistId : string) : InputRecord :=
  {| originalInput := {["artist" := artistId]};
     shop_artist_ids := Some {| spotify := Some {| ref_id := Some artistId |} |} |}.

(** The cells of an output record under the given column names. *)
Definition cells (columns : list string) (row : OutputRecord) : list (option Cell) :=
  (fun column => row !! column) <$> columns.

(** Two artists; the release listing of the second one answers 500. *)
Definition second_listing_broken : Catalogue :=
  {| known_artists := [artist "A" "Alpha"; artist "B" "Beta"];
     releases := [("A", [album "r1" "First" "2020-05-01"])];
     broken := ["B"] |}.

Definition in_order : Schedule :=
  {| sched_artists := fun _ => fifo; sched_albums := fun _ => fifo; sched_phases := fifo |}.

(** [n] one-character identifiers, distinct for [n] up to 200. *)
Definition identifiers (n : nat) : list string :=
  (fun k => String (ascii_of_nat (48 + k)) "") <$> seq 0 n.

Definition authenticated : SpotifyClient :=
  {| accessToken := Some {| access_token := "token" |};
     client := Some {| baseURL := "https://api.spotify.com/v1";
                       authorization := "Bearer token" |} |}.

(** The server counts the requests it has answered. *)
Definition upstream (cat : Catalogue) : Upstream nat :=
  {| token_endpoint := fun _ _ n => (Fulfilled {| access_token := "token" |}, n);
     artists_endpoint := fun _ req n =>
       let ids :=
         match params req with
         | [(_, PStr joined)] => split_on "," joined ""
         | _ => []
         end in
       (Fulfilled
          {| data := {| artists := filter (fun a => artist_id a ∈ ids) (known_artists cat) |} |},
        n + 1);
     albums_endpoint := fun _ req n =>
       if decide (Exists (fun a => artist_path a = path req) (broken cat))
       then (Rejected server_error, n + 1)
       else
         (Fulfilled
            {| data :=
                 {| items :=
                      match list_find (fun r => artist_path r.1 = path req)
                              (releases cat) with
                      | Some (_, (_, albums)) => albums
                      | None => []
                      end |} |},
          n + 1) |}.

(** Like [recording], but the operation called with index [bad] is
    rejected. *)
Definition rejecting_at (bad : nat) (value : nat) (j : nat) : Promise (list nat) nat :=
  fun completed =>
    (if decide (j = bad) then Rejected server_error else Fulfilled (value + j),
     completed ++ [j]).

(** What [upstream] answers, as functions of the request. *)
Definition artists_of (cat : Catalogue) (req : Request) : list ArtistObject :=
  let ids :=
    match params req with
    | [(_, PStr joined)] => split_on "," joined ""
    | _ => []
    end in
  filter (fun a => artist_id a ∈ ids) (known_artists cat).

Definition listing_of (cat : Catalogue) (req : Request) : list SimplifiedAlbumObject :=
  match list_find (fun r => artist_path r.1 = path req) (releases cat) with
  | Some (_, (_, albums)) => albums
  | None => []
  end.

(** A catalogue in which every release listing is answered. *)
Definition all_listed : Catalogue :=
  {| known_artists := [artist "A" "Alpha"; artist "B" "Beta"];
     releases := [("A", [album "r1" "First" "2020-05-01"])];
     broken := [] |}.

(** An upstream whose token endpoint refuses the credentials. *)
Definition unauthorized : JsError :=
  {| message := "Request failed with status code 401";
     response := Some {| status := 401; headers := ∅ |} |}.

Definition refusing (cat : Catalogue) : Upstream nat :=
  {| token_endpoint := fun _ _ n => (Rejected unauthorized, n + 1);
     artists_endpoint := artists_endpoint (upstream cat);
     albums_endpoint := albums_endpoint (upstream cat) |}.

(** The same upstream, except that the first request for a release
    listing is answered 429 with [Retry-After: 1]. *)
Definition rate_limited_once (cat : Catalogue) : Upstream nat :=
  {| token_endpoint := token_endpoint (upstream cat);
     artists_endpoint := artists_endpoint (upstream cat);
     albums_endpoint := fun c req n =>
       if decide (n = 0) then (Rejected (too_many_requests (Some "1")), n + 1)
       else albums_endpoint (upstream cat) c req n |}.
End Mock.

(** * Properties *)

(** ** lodash helpers *)

Section ChunkFacts.
Context {A : Type}.
Implicit Types (l : list A) (size : nat).

Lemma chunk_nil size : chunk (@nil A) size = [].
Proof. unfold chunk. by case_decide. Qed.

Lemma chunk_slices_fuel size fuel1 fuel2 l :
  1 <= size -> length l <= fuel1 -> length l <= fuel2 ->
  chunk_slices fuel1 l size = chunk_slices fuel2 l size.
Proof.
  intros Hsize. revert fuel2 l.
  induction fuel1 as [|fuel1 IH]; intros fuel2 l H1 H2.
  - destruct l; [|simpl in H1; lia]. by destruct fuel2.
  - destruct l as [|x l]; [by destruct fuel2|].
    destruct fuel2 as [|fuel2]; [simpl in H2; lia|].
    simpl. f_equal.
    destruct size as [|size]; [lia|]. simpl.
    apply IH; rewrite length_drop; simpl in *; lia.
Qed.

(** The loop of [chunk], one slice at a time. *)
Lemma chunk_unfold size l :
  1 <= size -> l <> [] -> chunk l size = take size l :: chunk (drop size l) size.
Proof.
  intros Hsize Hl. unfold chunk.
  repeat case_decide; try lia.
  destruct l as [|x l]; [done|].
  change (chunk_slices (length (x :: l)) (x :: l) size)
    with (take size (x :: l) :: chunk_slices (length l) (drop size (x :: l)) size).
  f_equal. apply chunk_slices_fuel; [done| |done].
  destruct size; [lia|]. simpl. rewrite length_drop. lia.
Qed.

Lemma chunk_ind size (P : list A -> list (list A) -> Prop) :
  1 <= size ->
  P [] [] ->
  (forall l, l <> [] -> P (drop size l) (chunk (drop size l) size) ->
             P l (take size l :: chunk (drop size l) size)) ->
  forall l, P l (chunk l size).
Proof.
  intros Hsize Hnil Hcons l.
  induction l as [l IH] using (induction_ltof1 _ (@length A)). unfold ltof in IH.
  destruct (decide (l = [])) as [->|Hl]; [by rewrite chunk_nil|].
  rewrite chunk_unfold by done. apply Hcons; [done|]. apply IH.
  rewrite length_drop. destruct l; [done|]. simpl. lia.
Qed.

Lemma chunk_flatten size l : 1 <= size -> flatten (chunk l size) = l.
Proof.
  intros Hsize. apply (chunk_ind size (fun l c => flatten c = l)); [done..|].
  intros l' _ IH. unfold flatten in *. simpl. by rewrite IH, take_drop.
Qed.

Lemma chunk_sizes size l :
  Forall (fun c => 1 <= length c <= size) (chunk l size).
Proof.
  destruct (decide (1 <= size)) as [Hsize|Hsize].
  - apply (chunk_ind size (fun l c => Forall (fun c => 1 <= length c <= size) c));
      [done|constructor|].
    intros l' Hl' IH. constructor; [|done].
    rewrite length_take. destruct l'; [done|]. simpl. lia.
  - unfold chunk. case_decide; [constructor|lia].
Qed.

Lemma chunk_lengths size l :
  1 <= size ->
  length <$> chunk l size
  = replicate (length l `div` size) size
    ++ (if decide (length l `mod` size = 0) then [] else [length l `mod` size]).
Proof.
  intros Hsize.
  pattern l, (chunk l size). apply chunk_ind; [done| |].
  - rewrite Nat.Div0.div_0_l, Nat.Div0.mod_0_l. simpl. try case_decide; done.
  - intros l' Hl' IH. rewrite fmap_cons, IH, length_take, length_drop.
    destruct (decide (size <= length l')) as [Hle|Hlt].
    + replace (size `min` length l') with size by lia.
      pose proof (Nat.div_add (length l' - size) 1 size ltac:(lia)) as Hd.
      pose proof (Nat.Div0.mod_add (length l' - size) 1 size) as Hm.
      replace (length l' - size + 1 * size) with (length l') in Hd, Hm by lia.
      rewrite Hd, Hm, Nat.add_1_r. done.
    + replace (size `min` length l') with (length l') by lia.
      replace (length l' - size) with 0 by lia.
      rewrite Nat.Div0.div_0_l, Nat.Div0.mod_0_l.
      rewrite Nat.div_small, Nat.mod_small by lia.
      assert (length l' <> 0) by (destruct l'; simpl; [done|lia]).
      simpl. clear IH. case_decide; [lia|done].
Qed.
End ChunkFacts.

Section UniqFacts.
Context {A : Type} `{EqDecision A}.
Implicit Types (l : list A) (x y : A).

Lemma uniq_snoc l x :
  uniq (l ++ [x]) = if decide (x ∈ uniq l) then uniq l else uniq l ++ [x].
Proof. unfold uniq. by rewrite foldl_app. Qed.

Lemma elem_of_uniq l x : x ∈ uniq l <-> x ∈ l.
Proof.
  induction l as [|y l IH] using rev_ind; [done|].
  rewrite uniq_snoc, elem_of_app, list_elem_of_singleton, <- IH.
  case_decide; [|by rewrite elem_of_app, list_elem_of_singleton].
  split; [tauto|]. by intros [?| ->].
Qed.

Lemma NoDup_uniq l : NoDup (uniq l).
Proof.
  induction l as [|y l IH] using rev_ind; [constructor|].
  rewrite uniq_snoc. case_decide; [done|].
  apply NoDup_app. split_and!; [done| |apply NoDup_singleton].
  by intros y' Hy' ->%list_elem_of_singleton.
Qed.

Lemma first_index_lt x l : x ∈ l -> first_index x l < length l.
Proof.
  induction l as [|y l IH]; [by intros ?%elem_of_nil|].
  intros Hx. simpl. case_decide; [lia|].
  apply elem_of_cons in Hx as [?|?]; [done|]. specialize (IH ltac:(done)). lia.
Qed.

Lemma first_index_absent x l : x ∉ l -> first_index x l = length l.
Proof.
  induction l as [|y l IH]; [done|].
  intros Hx. apply not_elem_of_cons in Hx as [? ?].
  simpl. case_decide; [done|]. by rewrite IH.
Qed.

Lemma first_index_app_l x l k : x ∈ l -> first_index x (l ++ k) = first_index x l.
Proof.
  induction l as [|y l IH]; [by intros ?%elem_of_nil|].
  intros Hx. simpl. case_decide; [done|].
  apply elem_of_cons in Hx as [?|?]; [done|]. by rewrite IH.
Qed.

Lemma first_index_app_r x l k :
  x ∉ l -> first_index x (l ++ k) = length l + first_index x k.
Proof.
  induction l as [|y l IH]; [done|].
  intros Hx. apply not_elem_of_cons in Hx as [? ?].
  simpl. case_decide; [done|]. by rewrite IH.
Qed.

Lemma first_index_lookup x l : x ∈ l -> l !! first_index x l = Some x.
Proof.
  induction l as [|y l IH]; [by intros ?%elem_of_nil|].
  intros Hx. simpl. case_decide; [by subst|].
  apply elem_of_cons in Hx as [?|?]; [done|]. by apply IH.
Qed.

(** [uniq] lists the values by increasing position of first occurrence. *)
Lemma uniq_first_occurrence_order l i j x y :
  uniq l !! i = Some x -> uniq l !! j = Some y -> i < j ->
  first_index x l < first_index y l.
Proof.
  revert i j x y. induction l as [|z l IH] using rev_ind; [done|].
  intros i j x y Hi Hj Hij. rewrite uniq_snoc in Hi, Hj.
  assert (forall k a, uniq l !! k = Some a -> a ∈ l) as Hin.
  { intros k a Hk. apply elem_of_uniq. by eapply list_elem_of_lookup_2. }
  destruct (decide (z ∈ uniq l)) as [Hz|Hz].
  - rewrite !first_index_app_l by eauto. eauto.
  - destruct (decide (j < length (uniq l))) as [Hlt|Hge].
    + rewrite lookup_app_l in Hi, Hj by lia.
      rewrite !first_index_app_l by eauto. eauto.
    + rewrite lookup_app_l in Hi by (apply lookup_lt_Some in Hj; rewrite length_app in Hj;
                                     simpl in Hj; lia).
      rewrite lookup_app_r in Hj by lia.
      apply list_lookup_singleton_Some in Hj as [_ <-].
      rewrite first_index_app_l by eauto.
      rewrite first_index_app_r by (by rewrite <- elem_of_uniq).
      pose proof (first_index_lt x l (Hin _ _ Hi)). lia.
Qed.
End UniqFacts.

(** ** Promise.all *)

Section PromiseAllFacts.
Context {St R : Type}.
Implicit Types (pending : list (nat * Promise St R)) (values : list (option R)).

Lemma collect_filled (g : nat -> R) values :
  (forall pos, pos < length values -> values !! pos = Some (Some (g pos))) ->
  collect values = g <$> seq 0 (length values).
Proof.
  intros Hfilled.
  assert (values = (Some ∘ g) <$> seq 0 (length values)) as ->.
  { apply list_eq. intros pos. rewrite list_lookup_fmap.
    destruct (decide (pos < length values)) as [Hlt|Hge].
    - by rewrite Hfilled, lookup_seq_lt.
    - rewrite lookup_ge_None_2 by lia. by rewrite lookup_seq_ge by lia. }
  rewrite length_fmap, length_seq. unfold collect.
  generalize (seq 0 (length values)). intros l.
  induction l as [|x l IH]; [done|]. csimpl. by rewrite IH.
Qed.

Lemma pick_in_range (pick : list nat -> nat) pending :
  pending <> [] -> is_Some (pending !! (pick pending.*1 `mod` length pending)).
Proof.
  intros Hne. apply lookup_lt_is_Some, Nat.mod_upper_bound.
  by destruct pending.
Qed.

(** The promises settle one by one, each at most once; when
    [Promise.all] is fulfilled every one of them has settled. *)
Lemma settle_order fuel pick pending values s o s' order :
  settle fuel pick pending values s = (o, s', order) ->
  order ⊆+ pending.*1
  /\ (length pending <= fuel -> (exists vs, o = Fulfilled vs) -> order ≡ₚ pending.*1).
Proof.
  revert pending values s o s' order.
  induction fuel as [|fuel IH]; intros pending values s o s' order; simpl.
  - intros [= <- <- <-]. split; [apply submseteq_nil_l|].
    intros Hlen _. by destruct pending; [|simpl in Hlen; lia].
  - destruct (pending !! _) as [[pos p]|] eqn:Hk.
    2:{ intros [= <- <- <-]. split; [apply submseteq_nil_l|].
        intros _ _. destruct (decide (pending = [])) as [->|Hne]; [done|].
        destruct (pick_in_range pick pending Hne) as [? ?]. congruence. }
    assert (pending.*1 ≡ₚ pos :: (delete (pick pending.*1 `mod` length pending) pending).*1)
      as Hperm.
    { apply (delete_Permutation _ _ _) in Hk. by rewrite Hk at 1. }
    assert (length (delete (pick pending.*1 `mod` length pending) pending)
            = length pending - 1) as Hlen'.
    { apply length_delete. eauto. }
    destruct (p s) as [[r|e] s1].
    + destruct (settle fuel pick _ _ s1) as [[o1 s2] order1] eqn:Hrec.
      intros [= <- <- <-]. apply IH in Hrec as [Hsub Hall].
      rewrite Hperm. split; [by apply submseteq_skip|].
      intros Hlen Hful. f_equiv. apply Hall; [lia|done].
    + intros [= <- <- <-]. split; [|by intros _ [? ?]].
      rewrite Hperm. apply submseteq_skip, submseteq_nil_l.
Qed.

(** When every pending promise is fulfilled, whatever the store, the
    values array ends up filled position by position. *)
Lemma settle_fulfilled (g : nat -> R) fuel pick pending values s :
  length pending = fuel ->
  NoDup pending.*1 ->
  (forall pos p, (pos, p) ∈ pending ->
     pos < length values /\ forall s, (p s).1 = Fulfilled (g pos)) ->
  (forall pos, pos < length values -> pos ∉ pending.*1 ->
     values !! pos = Some (Some (g pos))) ->
  exists s' order,
    settle fuel pick pending values s = (Fulfilled (g <$> seq 0 (length values)), s', order).
Proof.
  revert pending values s.
  induction fuel as [|fuel IH]; intros pending values s Hlen Hnodup Hpending Hvalues; simpl.
  - destruct pending; [|done]. eexists _, _. f_equal. f_equal. f_equal.
    apply collect_filled. intros pos Hpos. apply Hvalues; [done|]. apply not_elem_of_nil.
  - destruct (pick_in_range pick pending) as [[pos p] Hk]; [by destruct pending|].
    rewrite Hk.
    pose proof (Hk' := Hk). apply (delete_Permutation _ _ _) in Hk'.
    assert ((pos, p) ∈ pending) as Hin by (by eapply list_elem_of_lookup_2).
    destruct (Hpending _ _ Hin) as [Hpos Hp]. specialize (Hp s).
    destruct (p s) as [[r|e] s1]; simpl in Hp; [|done]. injection Hp as ->.
    rewrite Hk' in Hnodup. simpl in Hnodup. apply NoDup_cons in Hnodup as [Hfresh Hnodup].
    edestruct (IH (delete (pick pending.*1 `mod` length pending) pending)
                 (<[pos := Some (g pos)]> values) s1) as (s' & order & ->).
    + rewrite length_delete by eauto. lia.
    + done.
    + intros pos' p' Hin'. rewrite length_insert.
      apply Hpending. by eapply list_elem_of_delete_inv.
    + intros pos' Hpos' Hnot. rewrite length_insert in Hpos'.
      destruct (decide (pos' = pos)) as [->|Hne].
      * by rewrite list_lookup_insert_eq.
      * rewrite list_lookup_insert_ne by done. apply Hvalues; [done|].
        rewrite Hk'. simpl. by apply not_elem_of_cons.
    + rewrite length_insert. by eexists _, _.
Qed.

Lemma imap_tagged_fst {X : Type} (l : list X) :
  (imap (fun pos p => (pos, p)) l).*1 = seq 0 (length l).
Proof.
  apply list_eq. intros i. rewrite list_lookup_fmap, list_lookup_imap.
  destruct (l !! i) eqn:E; simpl.
  - by rewrite lookup_seq_lt by (by eapply lookup_lt_Some).
  - by rewrite lookup_seq_ge by (by apply lookup_ge_None).
Qed.

Lemma elem_of_imap_tagged {X : Type} (l : list X) pos p :
  (pos, p) ∈ imap (fun pos p => (pos, p)) l <-> l !! pos = Some p.
Proof.
  rewrite list_elem_of_lookup. split.
  - intros [k Hk]. rewrite list_lookup_imap in Hk.
    destruct (l !! k) eqn:E; simpl in Hk; [|done]. by injection Hk as -> ->.
  - intros Hpos. exists pos. by rewrite list_lookup_imap, Hpos.
Qed.

Lemma Promise_all_order pick (promises : list (Promise St R)) s o s' order :
  Promise_all pick promises s = (o, s', order) ->
  order ⊆+ seq 0 (length promises)
  /\ ((exists vs, o = Fulfilled vs) -> order ≡ₚ seq 0 (length promises)).
Proof.
  unfold Promise_all. intros [Hsub Hall]%settle_order.
  rewrite imap_tagged_fst in *. split; [done|].
  apply Hall. by rewrite length_imap.
Qed.

Lemma Promise_all_fulfilled (g : nat -> R) pick (promises : list (Promise St R)) s :
  (forall pos p s, promises !! pos = Some p -> (p s).1 = Fulfilled (g pos)) ->
  exists s' order,
    Promise_all pick promises s = (Fulfilled (g <$> seq 0 (length promises)), s', order).
Proof.
  intros Hful. unfold Promise_all.
  edestruct (settle_fulfilled g (length promises) pick
               (imap (fun pos p => (pos, p)) promises)
               (replicate (length promises) None) s) as (s' & order & Heq).
  - by rewrite length_imap.
  - rewrite imap_tagged_fst. apply NoDup_seq.
  - intros pos p Hin%elem_of_imap_tagged. rewrite length_replicate. split; [|by eauto].
    by eapply lookup_lt_Some.
  - intros pos Hpos Hnot. rewrite length_replicate in Hpos.
    rewrite imap_tagged_fst in Hnot. exfalso. apply Hnot.
    apply list_elem_of_lookup. exists pos. by rewrite lookup_seq_lt.
  - rewrite length_replicate in Heq. by eexists _, _.
Qed.

Lemma in_sequence_next (done rest : list nat) (x : nat) (pending_positions : list nat) :
  (forall y, y ∈ done -> y ∉ pending_positions) ->
  x ∈ pending_positions ->
  pending_positions !! in_sequence (done ++ x :: rest) pending_positions = Some x.
Proof.
  intros Hdone Hx. unfold in_sequence.
  rewrite list_find_app_r by (apply list_find_None, Forall_forall; auto).
  csimpl. rewrite decide_True by done. simpl.
  destruct (list_find_elem_of (fun p => p = x) pending_positions x Hx eq_refl)
    as [[k y] Hfind].
  rewrite Hfind. simpl. by apply list_find_Some in Hfind as (Hk & -> & _).
Qed.

(** Every order of completion is the choice of some scheduler. *)
Lemma settle_in_sequence (rest : list nat) :
  forall (done : list nat) fuel pending values s,
  NoDup (done ++ rest) ->
  pending.*1 ≡ₚ rest ->
  length pending <= fuel ->
  (forall pos p s, (pos, p) ∈ pending -> exists r, (p s).1 = Fulfilled r) ->
  (settle fuel (in_sequence (done ++ rest)) pending values s).2 = rest.
Proof.
  induction rest as [|x rest IH]; intros done fuel pending values s Hnodup Hperm Hfuel Hful.
  - apply Permutation_nil_r, fmap_nil_inv in Hperm as ->. by destruct fuel.
  - assert (x ∈ pending.*1) as Hx by (rewrite Hperm; apply list_elem_of_here).
    assert (forall y, y ∈ done -> y ∉ pending.*1) as Hdone.
    { intros y Hy. rewrite Hperm. by apply NoDup_app in Hnodup as (_ & Hdisj & _); apply Hdisj. }
    pose proof (in_sequence_next done rest x pending.*1 Hdone Hx) as Hnext.
    destruct fuel as [|fuel].
    { apply Permutation_length in Hperm. rewrite length_fmap in Hperm. simpl in *. lia. }
    simpl.
    assert (in_sequence (done ++ x :: rest) pending.*1 `mod` length pending
            = in_sequence (done ++ x :: rest) pending.*1) as ->.
    { apply Nat.mod_small. apply lookup_lt_Some in Hnext. by rewrite length_fmap in Hnext. }
    pose proof Hnext as Hnext'. rewrite list_lookup_fmap in Hnext'.
    destruct (pending !! in_sequence (done ++ x :: rest) pending.*1) as [[pos p]|] eqn:Hk;
      simpl in Hnext'; [|done]. injection Hnext' as ->.
    assert ((x, p) ∈ pending) as Hin by (by eapply list_elem_of_lookup_2).
    destruct (Hful x p s Hin) as [r Hr].
    destruct (p s) as [[r'|e] s1]; simpl in Hr; [|done].
    specialize (IH (done ++ [x]) fuel
                  (delete (in_sequence (done ++ x :: rest) pending.*1) pending)
                  (<[x := Some r']> values) s1).
    rewrite <- app_assoc in IH. simpl in IH.
    destruct (settle fuel _ _ _ s1) as [[o s2] order]. simpl in *. f_equal.
    apply IH.
    + done.
    + apply (delete_Permutation _ _ _) in Hk. rewrite Hk in Hperm. simpl in Hperm.
      by apply Permutation_cons_inv in Hperm.
    + rewrite length_delete by eauto. lia.
    + intros pos' p' s' Hin'. apply (Hful pos'). by eapply list_elem_of_delete_inv.
Qed.

Lemma Promise_all_in_sequence (g : nat -> R) (promises : list (Promise St R))
    (order : list nat) s :
  order ≡ₚ seq 0 (length promises) ->
  (forall pos p s, promises !! pos = Some p -> (p s).1 = Fulfilled (g pos)) ->
  exists s',
    Promise_all (in_sequence order) promises s
    = (Fulfilled (g <$> seq 0 (length promises)), s', order).
Proof.
  intros Hperm Hful.
  destruct (Promise_all_fulfilled g (in_sequence order) promises s Hful)
    as (s' & order' & Hall).
  exists s'. rewrite Hall. f_equal.
  apply (f_equal snd) in Hall. simpl in Hall. rewrite <- Hall.
  unfold Promise_all. apply (settle_in_sequence order []).
  - simpl. rewrite Hperm. apply NoDup_seq.
  - by rewrite imap_tagged_fst.
  - by rewrite length_imap.
  - intros pos p s0 Hin%elem_of_imap_tagged. eauto.
Qed.
End PromiseAllFacts.

Example Promise_all_any_order :
  Promise_all (in_sequence [2; 0; 3; 1])
    (imap (fun pos v => Mock.recording v pos) [10; 20; 30; 40]) []
  = (Fulfilled [10; 21; 32; 43], [2; 0; 3; 1], [2; 0; 3; 1]).
Proof. reflexivity. Qed.

(** ** chunkRequests: results *)

Section ChunkRequestsResults.
Context {St InputElement Result : Type}.
Implicit Types (requestFn : InputElement -> nat -> Promise St Result).
Implicit Types (f : InputElement -> nat -> Result) (l : list InputElement).

Lemma group_values f (base : nat) (v0 : InputElement) l :
  (fun pos => f (default v0 (l !! pos)) (base + pos)) <$> seq 0 (length l)
  = imap (fun k v => f v (base + k)) l.
Proof.
  apply list_eq. intros k. rewrite list_lookup_fmap, list_lookup_imap.
  destruct (l !! k) as [v|] eqn:E; simpl.
  - rewrite lookup_seq_lt by (by eapply lookup_lt_Some). simpl. by rewrite E.
  - by rewrite lookup_seq_ge by (by apply lookup_ge_None).
Qed.

Lemma imap_take_drop f (base size : nat) l :
  imap (fun k v => f v (base + k)) (take size l)
    ++ imap (fun k v => f v (base + size + k)) (drop size l)
  = imap (fun k v => f v (base + k)) l.
Proof.
  rewrite <- (take_drop size l) at 3. rewrite imap_app. f_equal.
  destruct (decide (size <= length l)) as [Hle|Hgt].
  - apply imap_ext. intros k v _. simpl. rewrite length_take. f_equal. lia.
  - by rewrite drop_ge by lia.
Qed.

(** The loop, when every operation on the remaining elements is
    fulfilled with the value [f] gives for the element and its index. *)
Lemma chunkRequests_loop_fulfilled sched requestFn (concurrentRequests : nat) f l :
  1 <= concurrentRequests ->
  forall i result s,
  (forall k v s, l !! k = Some v ->
     (requestFn v (i * concurrentRequests + k) s).1
     = Fulfilled (f v (i * concurrentRequests + k))) ->
  exists s' trace,
    chunkRequests_loop sched requestFn concurrentRequests
      (chunk l concurrentRequests) i result s
    = (Fulfilled (flatten result ++ imap (fun k v => f v (i * concurrentRequests + k)) l),
       s', trace).
Proof.
  intros Hsize. pattern l, (chunk l concurrentRequests). apply chunk_ind; [done| |]; clear l.
  - intros i result s _. simpl. rewrite app_nil_r. by eexists _, _.
  - intros l Hl IH i result s Hful. simpl.
    destruct l as [|v0 l0] eqn:El; [done|]. rewrite <- El in *.
    edestruct (Promise_all_fulfilled
                 (fun pos => f (default v0 (take concurrentRequests l !! pos))
                               (i * concurrentRequests + pos))
                 (sched i)
                 (imap (fun index value => requestFn value (i * concurrentRequests + index))
                    (take concurrentRequests l)) s) as (s1 & order & ->).
    { intros pos p s2. rewrite list_lookup_imap.
      destruct (take concurrentRequests l !! pos) as [v|] eqn:E; simpl; [|done].
      intros [= <-]. apply Hful.
      rewrite lookup_take_Some in E. by destruct E. }
    rewrite length_imap, group_values.
    edestruct (IH (i + 1) (result ++ [imap (fun k v => f v (i * concurrentRequests + k))
                                        (take concurrentRequests l)]) s1)
      as (s2 & trace & ->).
    { intros k v s2 Hk. rewrite lookup_drop in Hk.
      replace ((i + 1) * concurrentRequests + k)
        with (i * concurrentRequests + (concurrentRequests + k)) by lia.
      by apply Hful. }
    eexists _, _. f_equal. f_equal. f_equal.
    unfold flatten. rewrite concat_app. simpl. rewrite app_nil_r, <- app_assoc. f_equal.
    rewrite <- (imap_take_drop f (i * concurrentRequests) concurrentRequests l). f_equal.
    apply imap_ext. intros k v _. simpl. f_equal. lia.
Qed.

Lemma chunkRequests_fulfilled sched (inputArray : list InputElement) requestFn
    (concurrentRequests : nat) f (s : St) :
  1 <= concurrentRequests ->
  (forall j v s, inputArray !! j = Some v -> (requestFn v j s).1 = Fulfilled (f v j)) ->
  exists s' trace,
    chunkRequests sched inputArray requestFn concurrentRequests s
    = (Fulfilled (imap (fun j v => f v j) inputArray), s', trace).
Proof.
  intros Hsize Hful. unfold chunkRequests.
  destruct (chunkRequests_loop_fulfilled sched requestFn concurrentRequests f inputArray
              Hsize 0 [] s) as (s' & trace & ->); [|by eexists _, _].
  intros k v s0 Hk. simpl. by apply Hful.
Qed.
End ChunkRequestsResults.

(** ** chunkRequests: what is in flight *)

Section PendingFacts.
Implicit Types (acc : list (nat * nat)) (trace : list event).

Lemma pending_app trace1 trace2 :
  pending (trace1 ++ trace2) = foldl pending_step (pending trace1) trace2.
Proof. apply foldl_app. Qed.

Lemma pending_calls i j n acc :
  foldl pending_step acc (Call i <$> seq j n) = acc ++ (pair i <$> seq j n).
Proof.
  revert j acc. induction n as [|n IH]; intros j acc; simpl.
  - by rewrite app_nil_r.
  - rewrite IH. by rewrite <- app_assoc.
Qed.

Lemma pending_settled i order acc :
  foldl pending_step acc (Settled i <$> order)
  = filter (fun op => op ∉ pair i <$> order) acc.
Proof.
  revert acc. induction order as [|k order IH]; intros acc; simpl.
  - induction acc as [|op acc IHacc]; [done|].
    rewrite filter_cons_True by apply not_elem_of_nil. by rewrite <- IHacc.
  - rewrite IH, list_filter_filter. apply list_filter_iff. intros op.
    rewrite not_elem_of_cons. tauto.
Qed.

Lemma pending_settled_length i order acc :
  length (foldl pending_step acc (Settled i <$> order)) <= length acc.
Proof. rewrite pending_settled. apply length_filter. Qed.

Lemma pending_group_done i n order :
  order ≡ₚ seq 0 n ->
  pending ((Call i <$> seq 0 n) ++ (Settled i <$> order)) = [].
Proof.
  intros Hperm. rewrite pending_app. unfold pending at 1.
  rewrite pending_calls, pending_settled. simpl.
  apply elem_of_nil_inv. intros op [Hnot Hin]%list_elem_of_filter.
  apply Hnot. by rewrite Hperm.
Qed.
End PendingFacts.

Section Discipline.
Context {St InputElement Result : Type}.
Implicit Types (requestFn : InputElement -> nat -> Promise St Result).

Lemma take_calls i n m : take m (Call i <$> seq 0 n) = Call i <$> seq 0 (m `min` n).
Proof. by rewrite <- fmap_take, take_seq. Qed.

Lemma group_bounded i n order m :
  length (pending (take m ((Call i <$> seq 0 n) ++ (Settled i <$> order)))) <= n.
Proof.
  rewrite take_app, pending_app, take_calls, <- fmap_take.
  etrans; [apply pending_settled_length|].
  unfold pending. rewrite pending_calls. simpl.
  rewrite length_fmap, length_seq. lia.
Qed.

Lemma group_launched i n order m i' k :
  ((Call i <$> seq 0 n) ++ (Settled i <$> order)) !! m = Some (Call i' k) ->
  pending (take m ((Call i <$> seq 0 n) ++ (Settled i <$> order))) = pair i' <$> seq 0 k.
Proof.
  intros Hm. apply lookup_app_Some in Hm as [Hm|[_ Hm]].
  - apply list_lookup_fmap_Some in Hm as (k' & [= -> ->] & Hk').
    apply lookup_seq in Hk' as [-> Hlt]. simpl in *.
    rewrite take_app_le by (rewrite length_fmap, length_seq; lia).
    rewrite take_calls. replace (m `min` n) with m by lia.
    unfold pending. by rewrite pending_calls.
  - by apply list_lookup_fmap_Some in Hm as (? & ? & _).
Qed.

Lemma discipline_app (concurrentRequests : nat) trace1 trace2 :
  pending trace1 = [] ->
  in_flight_bounded concurrentRequests trace1 /\ launched_by_group trace1 ->
  in_flight_bounded concurrentRequests trace2 /\ launched_by_group trace2 ->
  in_flight_bounded concurrentRequests (trace1 ++ trace2)
  /\ launched_by_group (trace1 ++ trace2).
Proof.
  intros Hdone [Hb1 Hl1] [Hb2 Hl2].
  assert (forall m, length trace1 <= m ->
            pending (take m (trace1 ++ trace2)) = pending (take (m - length trace1) trace2))
    as Hlate.
  { intros m Hm. rewrite take_app, take_ge by done.
    rewrite pending_app, Hdone. done. }
  split.
  - intros m. destruct (decide (m <= length trace1)) as [Hle|Hgt].
    + rewrite take_app_le by done. apply Hb1.
    + rewrite Hlate by lia. apply Hb2.
  - intros m i k Hm. apply lookup_app_Some in Hm as [Hm|[Hge Hm]].
    + rewrite take_app_le by (apply lookup_lt_Some in Hm; lia). by apply Hl1.
    + rewrite Hlate by lia. by apply Hl2.
Qed.

Lemma chunkRequests_loop_discipline sched requestFn (concurrentRequests : nat) chunks :
  Forall (fun c => length c <= concurrentRequests) chunks ->
  forall i result s o s' trace,
  chunkRequests_loop sched requestFn concurrentRequests chunks i result s = (o, s', trace) ->
  in_flight_bounded concurrentRequests trace /\ launched_by_group trace.
Proof.
  induction 1 as [|c chunks Hc _ IH]; intros i result s o s' trace; simpl.
  - intros [= <- <- <-]. split.
    + intros m. rewrite take_nil. simpl. lia.
    + by intros m i' k ?.
  - destruct (Promise_all _ _ s) as [[o1 s1] order] eqn:Hall.
    apply Promise_all_order in Hall as [_ Hperm]. rewrite length_imap in Hperm.
    assert (in_flight_bounded concurrentRequests
              ((Call i <$> seq 0 (length c)) ++ (Settled i <$> order))
            /\ launched_by_group ((Call i <$> seq 0 (length c)) ++ (Settled i <$> order)))
      as Hgroup.
    { split.
      - intros m. etrans; [apply group_bounded|done].
      - intros m i' k. apply group_launched. }
    destruct o1 as [values|e].
    + destruct (chunkRequests_loop _ _ _ chunks _ _ s1) as [[o2 s2] trace2] eqn:Hrec.
      intros [= <- <- <-]. rewrite app_assoc.
      apply discipline_app; [|done|by eapply IH].
      apply pending_group_done, Hperm. by eexists.
    + by intros [= <- <- <-].
Qed.
End Discipline.

(** ** The retry wrapper *)

Section RetryFacts.
Context {W T : Type}.
Implicit Types (innerFn : Promise W T) (w : W).

(** More fuel than retries left changes nothing. *)
Lemma retry_loop_fuel innerFn fuel1 fuel2 previousRetries w :
  MAX_RETRIES - previousRetries <= fuel1 ->
  MAX_RETRIES - previousRetries <= fuel2 ->
  retry_loop fuel1 innerFn previousRetries w = retry_loop fuel2 innerFn previousRetries w.
Proof.
  revert fuel2 previousRetries w.
  induction fuel1 as [|fuel1 IH]; intros fuel2 previousRetries w H1 H2;
    destruct fuel2 as [|fuel2]; simpl;
    destruct (innerFn w) as [[value|error] w']; try done;
    case_decide as Hstop; try done; try (exfalso; apply Hstop; right; lia).
  rewrite (IH fuel2) by lia. done.
Qed.

(** The body of [retryAfterRateLimitApplied], with the recursive call
    written as in the source. *)
Lemma retryAfterRateLimitApplied_unfold innerFn previousRetries w :
  retryAfterRateLimitApplied innerFn previousRetries w
  = match innerFn w with
    | (Fulfilled value, w') => (Fulfilled value, w', [])
    | (Rejected error, w') =>
        if decide (response_status error <> Some TOO_MANY_REQUESTS
                   \/ previousRetries >= MAX_RETRIES)
        then (Rejected error, w', [])
        else
          let secondsToWait := parseInt (retry_after_header error) in
          let '(o, w'', effects) :=
            retryAfterRateLimitApplied innerFn (previousRetries + 1) w' in
          (o, w'',
           RateLimitLog secondsToWait (previousRetries + 1)
             :: Timeout (jsmul secondsToWait 1000) :: effects)
    end.
Proof.
  unfold retryAfterRateLimitApplied.
  destruct (MAX_RETRIES - previousRetries) as [|fuel] eqn:Hfuel; simpl;
    destruct (innerFn w) as [[value|error] w']; try done;
    case_decide as Hstop; try done.
  - exfalso. apply Hstop. right. lia.
  - rewrite (retry_loop_fuel innerFn fuel (MAX_RETRIES - (previousRetries + 1))) by lia.
    done.
Qed.

Lemma retry_fulfilled innerFn previousRetries w value w' :
  innerFn w = (Fulfilled value, w') ->
  retryAfterRateLimitApplied innerFn previousRetries w = (Fulfilled value, w', []).
Proof. intros H. by rewrite retryAfterRateLimitApplied_unfold, H. Qed.

Lemma retry_propagates innerFn previousRetries w error w' :
  innerFn w = (Rejected error, w') ->
  response_status error <> Some TOO_MANY_REQUESTS \/ previousRetries >= MAX_RETRIES ->
  retryAfterRateLimitApplied innerFn previousRetries w = (Rejected error, w', []).
Proof. intros H Hstop. rewrite retryAfterRateLimitApplied_unfold, H. by rewrite decide_True. Qed.

Lemma retry_again innerFn previousRetries w error w' :
  innerFn w = (Rejected error, w') ->
  response_status error = Some TOO_MANY_REQUESTS ->
  previousRetries < MAX_RETRIES ->
  retryAfterRateLimitApplied innerFn previousRetries w
  = (let secondsToWait := parseInt (retry_after_header error) in
     let '(o, w'', effects) := retryAfterRateLimitApplied innerFn (previousRetries + 1) w' in
     (o, w'',
      RateLimitLog secondsToWait (previousRetries + 1)
        :: Timeout (jsmul secondsToWait 1000) :: effects)).
Proof.
  intros H Hstatus Hlt. rewrite retryAfterRateLimitApplied_unfold, H.
  rewrite decide_False; [done|]. intros [?|?]; [done|lia].
Qed.


Lemma invoke_times_S innerFn n w :
  invoke_times innerFn (S n) w = invoke_times innerFn n (innerFn w).2.
Proof. unfold invoke_times. by rewrite Nat.iter_succ_r. Qed.

(** An operation rejected with the same 429 on every invocation is
    invoked once and then once per retry left. *)
Lemma retry_exhausted innerFn error previousRetries w :
  (forall w, (innerFn w).1 = Rejected error) ->
  response_status error = Some TOO_MANY_REQUESTS ->
  previousRetries <= MAX_RETRIES ->
  retryAfterRateLimitApplied innerFn previousRetries w
  = (Rejected error,
     invoke_times innerFn (S (MAX_RETRIES - previousRetries)) w,
     retry_effects previousRetries
       (replicate (MAX_RETRIES - previousRetries) (parseInt (retry_after_header error)))).
Proof.
  intros Hfail Hstatus.
  remember (MAX_RETRIES - previousRetries) as left eqn:Hleft.
  revert previousRetries w Hleft.
  induction left as [|left IH]; intros previousRetries w Hleft Hle;
    rewrite retryAfterRateLimitApplied_unfold;
    pose proof (Hfail w) as Hw; destruct (innerFn w) as [o w'] eqn:Hinner;
    simpl in Hw; subst o; case_decide as Hstop.
  - unfold invoke_times. simpl. by rewrite Hinner.
  - exfalso. apply Hstop. right. lia.
  - exfalso. destruct Hstop as [?|?]; [done|lia].
  - rewrite (IH (previousRetries + 1) w') by lia.
    rewrite (invoke_times_S innerFn (S left) w), Hinner. done.
Qed.
End RetryFacts.

(** ** What the operations leave in the store *)

Section Logged.
Context {St InputElement Result X : Type} (m : St -> list X).
Implicit Types (requestFn : InputElement -> nat -> Promise St Result).

(** If every promise appends its own entry to a log kept in the store,
    the log grows by the entries of the settled promises, in the order
    in which they settled. *)
Lemma settle_logged (xs : nat -> X) fuel pick
    (pending : list (nat * Promise St Result)) values s o s' order :
  (forall pos p s, (pos, p) ∈ pending -> m (p s).2 = m s ++ [xs pos]) ->
  settle fuel pick pending values s = (o, s', order) ->
  m s' = m s ++ (xs <$> order).
Proof.
  revert pending values s o s' order.
  induction fuel as [|fuel IH]; intros pending values s o s' order Hlog; simpl.
  - intros [= <- <- <-]. by rewrite app_nil_r.
  - destruct (pending !! _) as [[pos p]|] eqn:Hk.
    2:{ intros [= <- <- <-]. by rewrite app_nil_r. }
    assert ((pos, p) ∈ pending) as Hin by (by eapply list_elem_of_lookup_2).
    pose proof (Hlog pos p s Hin) as Hp.
    destruct (p s) as [[r|e] s1]; simpl in Hp.
    + destruct (settle fuel pick _ _ s1) as [[o1 s2] order1] eqn:Hrec.
      intros [= <- <- <-]. apply IH in Hrec.
      * rewrite Hrec, Hp, <- app_assoc. done.
      * intros pos' p' s3 Hin'. apply Hlog. by eapply list_elem_of_delete_inv.
    + intros [= <- <- <-]. by rewrite Hp.
Qed.

(** The same for promises that each add several entries, in an order of
    their own. *)
Lemma settle_logged_many (xs : nat -> list X) fuel pick
    (pending : list (nat * Promise St Result)) values s o s' order :
  (forall pos p s, (pos, p) ∈ pending -> m (p s).2 ≡ₚ m s ++ xs pos) ->
  settle fuel pick pending values s = (o, s', order) ->
  m s' ≡ₚ m s ++ (order ≫= xs).
Proof.
  revert pending values s o s' order.
  induction fuel as [|fuel IH]; intros pending values s o s' order Hlog; simpl.
  - intros [= <- <- <-]. by rewrite app_nil_r.
  - destruct (pending !! _) as [[pos p]|] eqn:Hk.
    2:{ intros [= <- <- <-]. by rewrite app_nil_r. }
    assert ((pos, p) ∈ pending) as Hin by (by eapply list_elem_of_lookup_2).
    pose proof (Hlog pos p s Hin) as Hp.
    destruct (p s) as [[r|e] s1]; simpl in Hp.
    + destruct (settle fuel pick _ _ s1) as [[o1 s2] order1] eqn:Hrec.
      intros [= <- <- <-]. apply IH in Hrec.
      * rewrite Hrec, Hp, <- app_assoc. done.
      * intros pos' p' s3 Hin'. apply Hlog. by eapply list_elem_of_delete_inv.
    + intros [= <- <- <-]. csimpl. by rewrite Hp, app_nil_r.
Qed.

Lemma Promise_all_logged_many (xs : nat -> list X) pick (promises : list (Promise St Result))
    s o s' order :
  (forall pos p s, promises !! pos = Some p -> m (p s).2 ≡ₚ m s ++ xs pos) ->
  Promise_all pick promises s = (o, s', order) ->
  m s' ≡ₚ m s ++ (order ≫= xs).
Proof.
  intros Hlog. unfold Promise_all. apply settle_logged_many.
  intros pos p s0 Hin%elem_of_imap_tagged. by apply Hlog.
Qed.

Lemma Promise_all_logged (xs : nat -> X) pick (promises : list (Promise St Result))
    s o s' order :
  (forall pos p s, promises !! pos = Some p -> m (p s).2 = m s ++ [xs pos]) ->
  Promise_all pick promises s = (o, s', order) ->
  m s' = m s ++ (xs <$> order).
Proof.
  intros Hlog. unfold Promise_all. apply settle_logged.
  intros pos p s0 Hin%elem_of_imap_tagged. by apply Hlog.
Qed.

Lemma chunkRequests_loop_logged sched requestFn (concurrentRequests : nat)
    (f : InputElement -> nat -> Result) (x : InputElement -> nat -> X) l :
  1 <= concurrentRequests ->
  forall i result s o s' trace,
  (forall k v s, l !! k = Some v ->
     (requestFn v (i * concurrentRequests + k) s).1
     = Fulfilled (f v (i * concurrentRequests + k))) ->
  (forall k v s, l !! k = Some v ->
     m (requestFn v (i * concurrentRequests + k) s).2
     = m s ++ [x v (i * concurrentRequests + k)]) ->
  chunkRequests_loop sched requestFn concurrentRequests
    (chunk l concurrentRequests) i result s = (o, s', trace) ->
  m s' ≡ₚ m s ++ imap (fun k v => x v (i * concurrentRequests + k)) l.
Proof.
  intros Hsize. pattern l, (chunk l concurrentRequests). apply chunk_ind; [done| |]; clear l.
  - intros i result s o s' trace _ _. simpl. intros [= <- <- <-]. by rewrite app_nil_r.
  - intros l Hl IH i result s o s' trace Hful Hlog. simpl.
    destruct l as [|v0 l0] eqn:El; [done|]. rewrite <- El in *.
    edestruct (Promise_all_fulfilled
                 (fun pos => f (default v0 (take concurrentRequests l !! pos))
                               (i * concurrentRequests + pos))
                 (sched i)
                 (imap (fun index value => requestFn value (i * concurrentRequests + index))
                    (take concurrentRequests l)) s) as (s1 & order & Hall).
    { intros pos p s2. rewrite list_lookup_imap.
      destruct (take concurrentRequests l !! pos) as [v|] eqn:E; simpl; [|done].
      intros [= <-]. apply Hful.
      rewrite lookup_take_Some in E. by destruct E. }
    rewrite Hall.
    pose proof (Promise_all_order _ _ _ _ _ _ Hall) as [_ Hperm].
    specialize (Hperm ltac:(by eexists)). rewrite length_imap in Hperm.
    apply (Promise_all_logged
             (fun pos => x (default v0 (take concurrentRequests l !! pos))
                           (i * concurrentRequests + pos))) in Hall.
    2:{ intros pos p s2. rewrite list_lookup_imap.
        destruct (take concurrentRequests l !! pos) as [v|] eqn:E; simpl; [|done].
        intros [= <-]. apply Hlog.
        rewrite lookup_take_Some in E. by destruct E. }
    destruct (chunkRequests_loop _ _ _ _ _ _ s1) as [[o2 s2] trace2] eqn:Hrec.
    intros [= <- <- <-].
    apply IH in Hrec.
    + rewrite Hrec, Hall, Hperm, <- app_assoc. f_equiv.
      rewrite (group_values x (i * concurrentRequests) v0).
      rewrite <- (imap_take_drop x (i * concurrentRequests) concurrentRequests l).
      f_equiv. apply reflexive_eq. apply imap_ext. intros k v _. simpl. f_equal. lia.
    + intros k v s3 Hk. rewrite lookup_drop in Hk.
      replace ((i + 1) * concurrentRequests + k)
        with (i * concurrentRequests + (concurrentRequests + k)) by lia.
      by apply Hful.
    + intros k v s3 Hk. rewrite lookup_drop in Hk.
      replace ((i + 1) * concurrentRequests + k)
        with (i * concurrentRequests + (concurrentRequests + k)) by lia.
      by apply Hlog.
Qed.
End Logged.

(** ** The client *)

Section ClientFacts.
Context {Server : Type} (up : Upstream Server).
Implicit Types (this : SpotifyClient) (w : World Server).

Lemma guarded_get_answer {D : Type}
    (endpoint : AxiosInstance -> Request -> Promise Server (AxiosResponse D))
    this c req w :
  client this = Some c ->
  guarded_get endpoint this req w
  = ((endpoint c req (server w)).1,
     {| server := (endpoint c req (server w)).2;
        sent := sent w ++ [req]; journal := journal w |}).
Proof.
  intros Hc. unfold guarded_get, assertClient, axios_get. rewrite Hc.
  by destruct (endpoint c req (server w)).
Qed.

Lemma getArtists_answered this c ids w response srv :
  client this = Some c ->
  artists_endpoint up c (artists_request ids) (server w) = (Fulfilled response, srv) ->
  getArtists up this ids w
  = (Fulfilled (artists (data response)),
     {| server := srv; sent := sent w ++ [artists_request ids]; journal := journal w |}).
Proof.
  intros Hc Hanswer. unfold getArtists.
  rewrite (retry_fulfilled _ _ _ response
             {| server := srv; sent := sent w ++ [artists_request ids];
                journal := journal w |}).
  - unfold record_effects. simpl. by rewrite app_nil_r.
  - rewrite (guarded_get_answer _ _ c) by done. by rewrite Hanswer.
Qed.

Lemma getLatestAlbum_answered this c artistId w response srv :
  client this = Some c ->
  albums_endpoint up c (albums_request artistId) (server w) = (Fulfilled response, srv) ->
  getLatestAlbum up this artistId w
  = (Fulfilled (items (data response) !! 0),
     {| server := srv; sent := sent w ++ [albums_request artistId]; journal := journal w |}).
Proof.
  intros Hc Hanswer. unfold getLatestAlbum.
  rewrite (retry_fulfilled _ _ _ response
             {| server := srv; sent := sent w ++ [albums_request artistId];
                journal := journal w |}).
  - unfold record_effects. simpl. by rewrite app_nil_r.
  - rewrite (guarded_get_answer _ _ c) by done. by rewrite Hanswer.
Qed.
End ClientFacts.

(** * The batch executor *)

(** C1.  For every input sequence, every concurrency ceiling of at least
    one and every order of completion, [chunkRequests] is fulfilled with a
    sequence as long as the input whose element [j] is the result of the
    operation on element [j] of the input (called with index [j]). *)
Theorem chunkRequests_preserves_order {St InputElement Result : Type}
    (sched : nat -> list nat -> nat) (inputArray : list InputElement)
    (requestFn : InputElement -> nat -> Promise St Result) (concurrentRequests : nat)
    (f : InputElement -> nat -> Result) (s : St) :
  1 <= concurrentRequests ->
  (forall j v s, inputArray !! j = Some v -> (requestFn v j s).1 = Fulfilled (f v j)) ->
  exists output s' trace,
    chunkRequests sched inputArray requestFn concurrentRequests s = (Fulfilled output, s', trace)
    /\ length output = length inputArray
    /\ forall j, output !! j = (fun v => f v j) <$> inputArray !! j.
Proof.
  intros Hsize Hful.
  destruct (chunkRequests_fulfilled sched inputArray requestFn concurrentRequests f s
              Hsize Hful) as (s' & trace & ->).
  eexists _, s', trace. split_and!; [done| |].
  - by rewrite length_imap.
  - intros j. by rewrite list_lookup_imap.
Qed.

Lemma chunkRequests_preserves_order_witness :
  exists output s' trace,
    chunkRequests (fun _ => lifo) [10; 20; 30; 40; 50] Mock.recording 2 []
    = (Fulfilled output, s', trace)
    /\ length output = 5
    /\ forall j, output !! j = (fun v => v + j) <$> [10; 20; 30; 40; 50] !! j.
Proof.
  apply (chunkRequests_preserves_order (fun _ => lifo) [10; 20; 30; 40; 50]
           Mock.recording 2 (fun v j => v + j) []); [lia|].
  intros j v s _. reflexivity.
Defined.

(** The same run in full: within each group the later element completes
    first, and the output is in input order all the same. *)
Example chunkRequests_reversed_completion :
  chunkRequests (fun _ => lifo) [10; 20; 30; 40; 50] Mock.recording 2 []
  = (Fulfilled [10; 21; 32; 43; 54],
     [1; 0; 3; 2; 4],
     [Call 0 0; Call 0 1; Settled 0 1; Settled 0 0;
      Call 1 0; Call 1 1; Settled 1 1; Settled 1 0;
      Call 2 0; Settled 2 0]).
Proof. reflexivity. Qed.

(** C10.  On an empty input [chunkRequests] is fulfilled with the empty
    sequence, whatever the ceiling: the operation is never called (the
    trace is empty) and the store is left as it was. *)
Theorem chunkRequests_empty {St InputElement Result : Type}
    (sched : nat -> list nat -> nat)
    (requestFn : InputElement -> nat -> Promise St Result) (concurrentRequests : nat) (s : St) :
  chunkRequests sched [] requestFn concurrentRequests s = (Fulfilled [], s, []).
Proof. unfold chunkRequests. by rewrite chunk_nil. Qed.

(** C7.  In every run of [chunkRequests], at every instant at most
    [concurrentRequests] operations are pending; and when the operation at
    place [k] of group [i] is launched, the pending operations are exactly
    those at places [0..k-1] of the same group: a group is launched as a
    whole, and only after every operation of the groups before it has
    settled. *)
Theorem chunkRequests_in_flight {St InputElement Result : Type}
    (sched : nat -> list nat -> nat) (inputArray : list InputElement)
    (requestFn : InputElement -> nat -> Promise St Result) (concurrentRequests : nat) (s : St) :
  let trace := (chunkRequests sched inputArray requestFn concurrentRequests s).2 in
  (forall m, length (pending (take m trace)) <= concurrentRequests)
  /\ (forall m i k, trace !! m = Some (Call i k) ->
        pending (take m trace) = pair i <$> seq 0 k).
Proof.
  simpl. unfold chunkRequests.
  destruct (chunkRequests_loop _ _ _ _ _ _ s) as [[o s'] trace] eqn:Hrun.
  eapply chunkRequests_loop_discipline in Hrun; [exact Hrun|].
  eapply Forall_impl; [apply chunk_sizes|]. simpl. lia.
Qed.

Lemma chunkRequests_in_flight_witness :
  let trace := (chunkRequests (fun _ => lifo) [10; 20; 30; 40; 50] Mock.recording 2 []).2 in
  trace !! 5 = Some (Call 1 1) /\ pending (take 5 trace) = [(1, 0)].
Proof.
  split; [reflexivity|].
  apply (proj2 (chunkRequests_in_flight (fun _ => lifo) [10; 20; 30; 40; 50]
                  Mock.recording 2 []) 5 1 1).
  reflexivity.
Defined.

(** * The retry wrapper *)

Lemma digits_prefix_Some s a : exists v, digits_prefix s (Some a) = Some v.
Proof.
  revert a. induction s as [|c s IH]; intros a; simpl; [by eexists|].
  destruct (digit_of c); [apply IH|by eexists].
Qed.

(** *** Doubles *)


Lemma to_double_not_NaN (z : Z) : to_double z <> NaN.
Proof.
  unfold to_double. destruct (Z.abs z <? 2 ^ 53)%Z; [done|].
  cbv zeta. by destruct (2 ^ 1024 <=? _)%Z.
Qed.


(** [to_double] against the Standard Library's binary64 rounding: around
    2^53, where rounding starts; on 53-bit and longer integers with all
    residues; at the top of the range, where it overflows; on small
    integers.  The values of the second line are a header of
    9007199254740993 seconds and the product 9007199254740991 * 1000. *)
Example to_double_agrees_with_binary64 :
  doubles_agree 2000 (2 ^ 53 - 1000) 1 = true
  /\ to_double 9007199254740993 = Num 9007199254740992
  /\ jsmul (Num 9007199254740991) 1000 = Num 9007199254740990976
  /\ doubles_agree 2000 (2 ^ 60 + 12345) 7 = true
  /\ doubles_agree 500 (2 ^ 200 + 3) (2 ^ 147 + 1) = true
  /\ doubles_agree 300 (2 ^ 1023) (2 ^ 969 + 5) = true
  /\ to_double (2 ^ 1024 - 2 ^ 970 - 1) = Num (2 ^ 1024 - 2 ^ 971)
  /\ to_double (2 ^ 1024 - 2 ^ 970) = Infinity false
  /\ doubles_agree 200 0 1 = true.
Proof. vm_compute. by split_and!. Qed.

(** [parseInt] gives NaN exactly for the headers that are missing or do
    not start with a number. *)
Lemma parseInt_NaN input : parseInt input = NaN <-> numeric input = false.
Proof.
  destruct input as [s|]; [|done]. unfold parseInt, numeric.
  destruct (split_sign (trim_start s)) as [sign rest]. simpl.
  destruct rest as [|c rest]; simpl; [done|].
  destruct (digit_of c) as [d|]; [|done].
  destruct (digits_prefix_Some rest (10 * 0 + d)) as [v ->].
  split; [by intros ?%to_double_not_NaN|].
  intros Hfalse. apply bool_decide_eq_false in Hfalse. destruct Hfalse. by eexists.
Qed.

(** *** Reading a decimal numeral *)










(** A header of 9007199254740993 seconds is read as 9007199254740992, the
    nearest double, and its timer overflows no less: the wrapper retries
    all the same. *)
Example retry_after_beyond_2_53 :
  retryAfterRateLimitApplied
    (Mock.flaky 1 (Mock.too_many_requests (Some "9007199254740993")) "done") 0 0
  = (Fulfilled "done", 2,
     [RateLimitLog (Num 9007199254740992) 1; Timeout (Num 9007199254740992000)]).
Proof. vm_compute. reflexivity. Qed.

(** Rate-limited twice with [Retry-After: 1], then answered: two waits of
    one second, three invocations; and a second call starts again at
    retry 1. *)
Example retry_twice_then_success :
  retryAfterRateLimitApplied
    (Mock.flaky 2 (Mock.too_many_requests (Some "1")) "done") 0 0
  = (Fulfilled "done", 3,
     [RateLimitLog (Num 1) 1; Timeout (Num 1000);
      RateLimitLog (Num 1) 2; Timeout (Num 1000)]).
Proof. reflexivity. Qed.

Example retry_counts_afresh :
  retryAfterRateLimitApplied
    (Mock.flaky 4 (Mock.too_many_requests (Some "1")) "done") 0 3
  = (Fulfilled "done", 5, [RateLimitLog (Num 1) 1; Timeout (Num 1000)]).
Proof. reflexivity. Qed.

(** C3.  A rejection whose status is not 429, or any rejection once the
    attempt count has reached [MAX_RETRIES], is passed on as it is, with
    no wait and no further invocation.  Against an operation rejected on
    every invocation with the same 429 and [Retry-After: 0], a top-level
    call invokes the operation 11 times, waits 10 times (retries 1 to 10,
    of 0 ms each) and ends rejected with that error. *)
Theorem retry_wrapper_propagates {W T : Type} (innerFn : Promise W T) :
  (forall previousRetries w error w',
     innerFn w = (Rejected error, w') ->
     response_status error <> Some 429%Z \/ previousRetries >= 10 ->
     retryAfterRateLimitApplied innerFn previousRetries w = (Rejected error, w', []))
  /\ (forall error w,
        (forall w, (innerFn w).1 = Rejected error) ->
        response_status error = Some 429%Z ->
        retry_after_header error = Some "0" ->
        retryAfterRateLimitApplied innerFn 0 w
        = (Rejected error, invoke_times innerFn 11 w,
           retry_effects 0 (replicate 10 (Num 0)))).
Proof.
  split.
  - intros previousRetries w error w'. apply retry_propagates.
  - intros error w Hfail Hstatus Hheader.
    rewrite (retry_exhausted innerFn error 0 w Hfail Hstatus) by (unfold MAX_RETRIES; lia).
    by rewrite Hheader.
Qed.

Lemma retry_wrapper_propagates_witness :
  retryAfterRateLimitApplied
    (Mock.failing (T := string) (Mock.too_many_requests (Some "0"))) 0 0
  = (Rejected (Mock.too_many_requests (Some "0")), 11,
     retry_effects 0 (replicate 10 (Num 0))).
Proof.
  apply (proj2 (retry_wrapper_propagates
                  (Mock.failing (T := string) (Mock.too_many_requests (Some "0"))))
           (Mock.too_many_requests (Some "0")) 0).
  - intros w. reflexivity.
  - reflexivity.
  - reflexivity.
Defined.

Example retry_other_status :
  retryAfterRateLimitApplied (Mock.failing (T := string) Mock.server_error) 0 0
  = (Rejected Mock.server_error, 1, []).
Proof. reflexivity. Qed.

Example retry_not_authenticated :
  retryAfterRateLimitApplied
    (guarded_get (albums_endpoint (Mock.upstream Mock.second_listing_broken))
       new_SpotifyClient (albums_request "A")) 0
    {| server := 0; sent := []; journal := [] |}
  = (Rejected {| message := "Not authenticated"; response := None |},
     {| server := 0; sent := []; journal := [] |}, []).
Proof. reflexivity. Qed.

(** C4, as stated, does not hold: rate-limited once with no Retry-After
    header and answered on the second invocation, the wrapper does retry
    and is fulfilled. *)
Lemma unparseable_header_not_fatal :
  ~ header_failure_is_fatal (Mock.flaky 1 (Mock.too_many_requests None) "done") 0 0.
Proof.
  intros Hfatal.
  destruct (Hfatal (Mock.too_many_requests None) 1 eq_refl eq_refl eq_refl) as [fatal Hrun].
  vm_compute in Hrun. discriminate Hrun.
Qed.

Example retry_without_header :
  retryAfterRateLimitApplied (Mock.flaky 1 (Mock.too_many_requests None) "done") 0 0
  = (Fulfilled "done", 2, [RateLimitLog NaN 1; Timeout NaN]).
Proof. reflexivity. Qed.

Example retry_with_date_header :
  retryAfterRateLimitApplied
    (Mock.flaky 1 (Mock.too_many_requests (Some "Wed, 21 Oct 2015 07:28:00 GMT")) "done") 0 0
  = (Fulfilled "done", 2, [RateLimitLog NaN 1; Timeout NaN]).
Proof. reflexivity. Qed.

(** C4, amended.  A 429 below the retry ceiling whose Retry-After header
    is missing or does not start with a number is retried like any other:
    the wait reads as NaN, the line is printed and the timer set with NaN,
    and the operation runs again with the attempt count one higher. *)
Theorem retry_wrapper_unparseable_header {W T : Type}
    (innerFn : Promise W T) (previousRetries : nat) (w : W) (error : JsError) (w' : W) :
  innerFn w = (Rejected error, w') ->
  response_status error = Some 429%Z ->
  previousRetries < MAX_RETRIES ->
  numeric (retry_after_header error) = false ->
  retryAfterRateLimitApplied innerFn previousRetries w
  = (let '(o, w'', effects) := retryAfterRateLimitApplied innerFn (previousRetries + 1) w' in
     (o, w'', RateLimitLog NaN (previousRetries + 1) :: Timeout NaN :: effects)).
Proof.
  intros Hinner Hstatus Hlt Hheader. apply parseInt_NaN in Hheader.
  rewrite (retry_again innerFn previousRetries w error w') by done.
  by rewrite Hheader.
Qed.

Lemma retry_wrapper_unparseable_header_witness :
  retryAfterRateLimitApplied (Mock.flaky 1 (Mock.too_many_requests None) "done") 0 0
  = (let '(o, w'', effects) :=
       retryAfterRateLimitApplied
         (Mock.flaky 1 (Mock.too_many_requests None) "done") (0 + 1) 1 in
     (o, w'', RateLimitLog NaN (0 + 1) :: Timeout NaN :: effects)).
Proof.
  apply (retry_wrapper_unparseable_header
           (Mock.flaky 1 (Mock.too_many_requests None) "done") 0 0
           (Mock.too_many_requests None) 1).
  - reflexivity.
  - reflexivity.
  - unfold MAX_RETRIES. lia.
  - reflexivity.
Defined.

(** * The orchestrator *)

(** C5.  The identifier list that [main] resolves from the input records
    holds every identifier found in the records, each exactly once, in the
    order of their first occurrence. *)
Theorem resolve_spotifyIds_first_occurrences (inputRecords : list InputRecord) :
  let found := extract_spotifyIds inputRecords in
  let spotifyIds := resolve_spotifyIds inputRecords in
  NoDup spotifyIds
  /\ (forall x, x ∈ spotifyIds <-> x ∈ found)
  /\ (forall i j x y,
        spotifyIds !! i = Some x -> spotifyIds !! j = Some y -> i < j ->
        first_index x found < first_index y found).
Proof.
  simpl. unfold resolve_spotifyIds. split_and!.
  - apply NoDup_uniq.
  - intros x. apply elem_of_uniq.
  - apply uniq_first_occurrence_order.
Qed.

Lemma resolve_spotifyIds_first_occurrences_witness :
  first_index "B" (extract_spotifyIds (Mock.input_record <$> ["A"; "B"; "A"; "C"; "B"]))
  < first_index "C" (extract_spotifyIds (Mock.input_record <$> ["A"; "B"; "A"; "C"; "B"])).
Proof.
  apply (proj2 (proj2 (resolve_spotifyIds_first_occurrences
                         (Mock.input_record <$> ["A"; "B"; "A"; "C"; "B"])))
           1 2 "B" "C").
  - reflexivity.
  - reflexivity.
  - lia.
Defined.

Example resolve_spotifyIds_ABACB :
  resolve_spotifyIds (Mock.input_record <$> ["A"; "B"; "A"; "C"; "B"]) = ["A"; "B"; "C"].
Proof. reflexivity. Qed.

(** Records without a usable identifier are passed over. *)
Example resolve_spotifyIds_skips :
  resolve_spotifyIds
    [ {| originalInput := ∅; shop_artist_ids := None |};
      Mock.input_record "A";
      {| originalInput := ∅; shop_artist_ids := Some {| spotify := None |} |};
      {| originalInput := ∅;
         shop_artist_ids := Some {| spotify := Some {| ref_id := None |} |} |};
      Mock.input_record "";
      Mock.input_record "A" ]
  = ["A"].
Proof. reflexivity. Qed.

Section StageFacts.
Context {Server : Type} (up : Upstream Server).

Lemma fetch_latest_album_answered this c spotifyId i (st : Store Server) :
  client this = Some c ->
  (forall req srv, exists response srv',
      albums_endpoint up c req srv = (Fulfilled response, srv')) ->
  (fetch_latest_album up this spotifyId i st).1 = Fulfilled ()
  /\ sent (world (fetch_latest_album up this spotifyId i st).2)
     = sent (world st) ++ [albums_request spotifyId].
Proof.
  intros Hc Hup. unfold fetch_latest_album.
  destruct (Hup (albums_request spotifyId) (server (world st))) as (response & srv' & Hanswer).
  by rewrite (getLatestAlbum_answered up this c spotifyId (world st) response srv').
Qed.

Lemma fetch_artists_chunk_answered this c idsChunk index (st : Store Server) :
  client this = Some c ->
  (forall req srv, exists response srv',
      artists_endpoint up c req srv = (Fulfilled response, srv')) ->
  (fetch_artists_chunk up this idsChunk index st).1 = Fulfilled ()
  /\ sent (world (fetch_artists_chunk up this idsChunk index st).2)
     = sent (world st) ++ [artists_request idsChunk].
Proof.
  intros Hc Hup. unfold fetch_artists_chunk.
  destruct (Hup (artists_request idsChunk) (server (world st))) as (response & srv' & Hanswer).
  by rewrite (getArtists_answered up this c idsChunk (world st) response srv').
Qed.

(** What a stage sends when upstream answers: one request per element. *)
Lemma stage_requests {InputElement : Type} sched
    (requestFn : InputElement -> nat -> Promise (Store Server) ())
    (request : InputElement -> Request) (concurrentRequests : nat)
    (inputArray : list InputElement) (st : Store Server) :
  1 <= concurrentRequests ->
  (forall v j st, (requestFn v j st).1 = Fulfilled ()
                  /\ sent (world (requestFn v j st).2) = sent (world st) ++ [request v]) ->
  (chunkRequests sched inputArray requestFn concurrentRequests st).1.1
  = Fulfilled (imap (fun _ _ => ()) inputArray)
  /\ sent (world (chunkRequests sched inputArray requestFn concurrentRequests st).1.2)
     ≡ₚ sent (world st) ++ (request <$> inputArray).
Proof.
  intros Hsize Hop. split.
  - destruct (chunkRequests_fulfilled sched inputArray requestFn concurrentRequests
                (fun _ _ => ()) st Hsize) as (s' & trace & ->); [|done].
    intros j v s _. apply Hop.
  - unfold chunkRequests.
    destruct (chunkRequests_loop _ _ _ _ _ _ st) as [[o st'] trace] eqn:Hrun. simpl.
    eapply (chunkRequests_loop_logged (fun st => sent (world st)) sched _ concurrentRequests
              (fun _ _ => ()) (fun v _ => request v)) in Hrun; [|done|..].
    + rewrite Hrun. f_equiv. by rewrite <- imap_const.
    + intros k v s _. apply Hop.
    + intros k v s _. apply Hop.
Qed.
End StageFacts.

(** C6.  The artist-fetch stage cuts the identifier list into consecutive
    chunks of between 1 and 50 identifiers.  For every ceiling of at least
    one and every order of completion, when upstream answers the batch
    requests, the stage is fulfilled and the requests it has sent are, in
    some order, exactly one batch request per chunk.  For 120 identifiers
    the chunks have 50, 50 and 20 identifiers, so that three requests are
    sent. *)
Theorem artists_stage_one_request_per_chunk {Server : Type} (up : Upstream Server)
    (sched : nat -> list nat -> nat) (concurrentRequests : nat)
    (spotifyClient : SpotifyClient) (c : AxiosInstance)
    (spotifyIds : list string) (st : Store Server) :
  1 <= concurrentRequests ->
  client spotifyClient = Some c ->
  (forall req srv, exists response srv',
      artists_endpoint up c req srv = (Fulfilled response, srv')) ->
  let run := artists_stage up sched concurrentRequests spotifyClient spotifyIds st in
  (flatten (chunk spotifyIds 50) = spotifyIds
   /\ Forall (fun idsChunk => 1 <= length idsChunk <= 50) (chunk spotifyIds 50))
  /\ (exists output, run.1.1 = Fulfilled output)
  /\ sent (world run.1.2) ≡ₚ sent (world st) ++ (artists_request <$> chunk spotifyIds 50)
  /\ (length spotifyIds = 120 ->
      length <$> chunk spotifyIds 50 = [50; 50; 20]
      /\ length (sent (world run.1.2)) = length (sent (world st)) + 3).
Proof.
  intros Hsize Hc Hup. simpl.
  destruct (stage_requests sched (fetch_artists_chunk up spotifyClient) artists_request
              concurrentRequests (chunk spotifyIds 50) st Hsize) as [Hdone Hsent].
  { intros v j s. by apply (fetch_artists_chunk_answered up _ c). }
  fold (artists_stage up sched concurrentRequests spotifyClient spotifyIds st) in Hdone, Hsent.
  split_and!.
  - apply chunk_flatten. lia.
  - apply chunk_sizes.
  - by eexists.
  - done.
  - intros Hlen.
    assert (length <$> chunk spotifyIds 50 = [50; 50; 20]) as Hchunks.
    { rewrite chunk_lengths by lia. by rewrite Hlen. }
    split; [done|].
    rewrite Hsent, length_app, length_fmap.
    rewrite <- (length_fmap length (chunk spotifyIds 50)), Hchunks. done.
Qed.

Example identifiers_distinct : NoDup (Mock.identifiers 120).
Proof. apply (bool_decide_unpack _). by vm_compute. Qed.

Lemma artists_stage_one_request_per_chunk_witness :
  let st := {| world := {| server := 0; sent := []; journal := [] |};
               spotifyIdToArtistObjectDict := ∅; artistIdToLatestAlbumDict := ∅ |} in
  let run := artists_stage (Mock.upstream Mock.second_listing_broken) (fun _ => lifo) 2
               Mock.authenticated (Mock.identifiers 120) st in
  length <$> chunk (Mock.identifiers 120) 50 = [50; 50; 20]
  /\ length (sent (world run.1.2)) = length (sent (world st)) + 3.
Proof.
  intros st run.
  refine (proj2 (proj2 (proj2
            (artists_stage_one_request_per_chunk
               (Mock.upstream Mock.second_listing_broken) (fun _ => lifo) 2
               Mock.authenticated
               {| baseURL := "https://api.spotify.com/v1"; authorization := "Bearer token" |}
               (Mock.identifiers 120) st _ _ _))) _).
  - lia.
  - reflexivity.
  - intros req srv. eexists _, _. reflexivity.
  - reflexivity.
Defined.

(** C9.  When upstream answers the listing request, [getLatestAlbum]
    sends that one request, with [limit] set to 1, and is fulfilled with
    the first item of the page; for a page without items, with [None]
    (JavaScript's [undefined]), which is no error. *)
Theorem getLatestAlbum_first_item {Server : Type} (up : Upstream Server)
    (this : SpotifyClient) (c : AxiosInstance) (artistId : string)
    (w : World Server) (response : AxiosResponse (PagingObject SimplifiedAlbumObject))
    (srv : Server) :
  client this = Some c ->
  albums_endpoint up c (albums_request artistId) (server w) = (Fulfilled response, srv) ->
  params (albums_request artistId) = [("limit", PNum 1)]
  /\ getLatestAlbum up this artistId w
     = (Fulfilled (head (items (data response))),
        {| server := srv; sent := sent w ++ [albums_request artistId]; journal := journal w |})
  /\ (items (data response) = [] -> head (items (data response)) = None).
Proof.
  intros Hc Hanswer. split_and!; [done| |by intros ->].
  rewrite (getLatestAlbum_answered up this c artistId w response srv) by done.
  by rewrite head_lookup.
Qed.

Lemma getLatestAlbum_first_item_witness :
  getLatestAlbum (Mock.upstream Mock.second_listing_broken) Mock.authenticated "C"
    {| server := 0; sent := []; journal := [] |}
  = (Fulfilled None,
     {| server := 1; sent := [] ++ [albums_request "C"]; journal := [] |}).
Proof.
  apply (proj1 (proj2 (getLatestAlbum_first_item
                         (Mock.upstream Mock.second_listing_broken) Mock.authenticated
                         {| baseURL := "https://api.spotify.com/v1";
                            authorization := "Bearer token" |}
                         "C" {| server := 0; sent := []; journal := [] |}
                         {| data := {| items := [] |} |} 1 eq_refl eq_refl))).
Defined.

(** Rate-limited once, the same call sends its request a second time. *)
Example getLatestAlbum_rate_limited :
  getLatestAlbum (Mock.rate_limited_once Mock.second_listing_broken) Mock.authenticated "A"
    {| server := 0; sent := []; journal := [] |}
  = (Fulfilled (Some (Mock.album "r1" "First" "2020-05-01")),
     {| server := 2;
        sent := [albums_request "A"; albums_request "A"];
        journal := [RateLimitLog (Num 1) 1; Timeout (Num 1000)] |}).
Proof. reflexivity. Qed.

Example getLatestAlbum_of_A :
  (getLatestAlbum (Mock.upstream Mock.second_listing_broken) Mock.authenticated "A"
     {| server := 0; sent := []; journal := [] |}).1
  = Fulfilled (Some (Mock.album "r1" "First" "2020-05-01")).
Proof. reflexivity. Qed.

Example main_on_ABAC :
  let run :=
    main (Mock.upstream Mock.second_listing_broken) Mock.in_order "id" "secret"
      (Mock.input_record <$> ["A"; "C"; "A"]) 0 in
  let row_A :=
    [Some (Text "A"); Some (Text "A"); Some (Text "Alpha"); Some (Number 50);
     Some (Number 1000); Some (Text "First"); Some (Text "2020-05-01")] in
  let row_C :=
    [Some (Text "C"); Some (Text "C"); Some Undefined; Some Undefined; Some Undefined;
     Some Undefined; Some Undefined] in
  exit run = Fulfilled ()
  /\ sent (world (final run))
     = [artists_request ["A"; "C"]; albums_request "A"; albums_request "C"]
  /\ List.map (Mock.cells ("artist" :: computed_columns)) <$> written run
     = Some [row_A; row_C; row_A].
Proof. vm_compute. by split_and!. Qed.

(** An identifier that names a property of [Object.prototype]: every
    request is answered, no artist has this identifier, and reading the
    dictionary of artists finds the inherited function; [prepareOutputData]
    throws, the run ends rejected and the records written are none. *)
Example main_on_constructor :
  let run :=
    main (Mock.upstream Mock.second_listing_broken) Mock.in_order "id" "secret"
      [Mock.input_record "A"; Mock.input_record "constructor"] 0 in
  exit run = Rejected cannot_read_total
  /\ written run = Some []
  /\ sent (world (final run))
     = [artists_request ["A"; "constructor"]; albums_request "A";
        albums_request "constructor"].
Proof. vm_compute. by split_and!. Qed.

(** A column of the input named like a computed column is replaced. *)
Example prepareOutputData_replaces_columns :
  match
    prepareOutputData
      [{| originalInput := {["artistName" := "from the input"; "label" := "L"]};
          shop_artist_ids := None |}] ∅ ∅
  with
  | Fulfilled rows => List.map (Mock.cells ["label"; "artistName"; "spotifyId"]) rows
  | Rejected _ => []
  end
  = [[Some (Text "L"); Some Undefined; Some Undefined]].
Proof. vm_compute. reflexivity. Qed.

(** C8.  A run of the current [main] on records for the artists A and B,
    against an upstream whose release listing for B answers 500: the run
    ends rejected with that error and does write, but what it writes is
    the empty list of records, although both artists and the release of A
    have been fetched into the dictionaries by then. *)
Theorem main_failure_writes_no_data :
  let run :=
    main (Mock.upstream Mock.second_listing_broken) Mock.in_order "id" "secret"
      [Mock.input_record "A"; Mock.input_record "B"] 0 in
  exit run = Rejected Mock.server_error
  /\ written run = Some []
  /\ spotifyIdToArtistObjectDict (final run) !! "A" = Some (Mock.artist "A" "Alpha")
  /\ spotifyIdToArtistObjectDict (final run) !! "B" = Some (Mock.artist "B" "Beta")
  /\ artistIdToLatestAlbumDict (final run) !! "A"
     = Some (Some (Mock.album "r1" "First" "2020-05-01")).
Proof. vm_compute. by split_and!. Qed.

(** Whenever the current [main] ends rejected, it has written no record. *)
Lemma main_rejected_written {Server : Type} (up : Upstream Server) sch clientId clientSecret
    inputRecords (srv : Server) e :
  exit (main up sch clientId clientSecret inputRecords srv) = Rejected e ->
  written (main up sch clientId clientSecret inputRecords srv) = None
  \/ written (main up sch clientId clientSecret inputRecords srv) = Some [].
Proof.
  unfold main. destruct (authenticate _ _ _ _ _) as [[spotifyClient|e'] w]; [|by left].
  destruct (Promise_all _ _ _) as [[[output|e'] st] order]; [|by right].
  destruct (prepareOutputData _ _ _) as [rows|e']; [done|by right].
Qed.

(** The earlier revision, on the same input: its [finally] block writes
    the artists fetched and the releases found so far. *)
Example earlier_main_failure_writes_partial_data :
  let run :=
    Csv.main (Mock.upstream Mock.second_listing_broken) Mock.in_order "id" "secret"
      [Mock.input_record "A"; Mock.input_record "B"] 0 in
  exit run = Rejected Mock.server_error
  /\ written run
     = Some [ {| Csv.line_id := "A"; Csv.line_name := "Alpha"; Csv.line_popularity := 50;
                 Csv.line_followers := 1000; Csv.line_album_name := Some "First";
                 Csv.line_release_date := Some "2020-05-01" |};
              {| Csv.line_id := "B"; Csv.line_name := "Beta"; Csv.line_popularity := 50;
                 Csv.line_followers := 1000; Csv.line_album_name := None;
                 Csv.line_release_date := None |} ].
Proof. vm_compute. by split. Qed.

(** * Runs of the batch executor *)

Section RanFacts.
Context {St R : Type}.
Implicit Types (has : nat -> Promise St R -> Prop).

Lemma ran_mono has1 has2 js s s' err :
  (forall j p, has1 j p -> has2 j p) ->
  ran has1 js s s' err -> ran has2 js s s' err.
Proof.
  intros Hsub.
  induction 1; [constructor|eapply ran_fulfilled; eauto|eapply ran_rejected; eauto].
Qed.

Lemma ran_map (f : nat -> nat) has1 has2 js s s' err :
  (forall j p, has1 j p -> has2 (f j) p) ->
  ran has1 js s s' err -> ran has2 (f <$> js) s s' err.
Proof.
  intros Hsub.
  induction 1; csimpl; [constructor|eapply ran_fulfilled; eauto|eapply ran_rejected; eauto].
Qed.

Lemma ran_app has js1 js2 s s1 s' err :
  ran has js1 s s1 None -> ran has js2 s1 s' err -> ran has (js1 ++ js2) s s' err.
Proof.
  intros Hfirst. remember None as none eqn:Hnone.
  induction Hfirst; intros Hsecond; simpl; [done| |done].
  eapply ran_fulfilled; eauto.
Qed.

Lemma ran_rejected_inv has js s s' e :
  ran has js s s' (Some e) ->
  exists j p s0, j ∈ js /\ has j p /\ (p s0).1 = Rejected e.
Proof.
  remember (Some e) as err eqn:Herr. induction 1 as [|j p r s s1 js s' err ? ? ? IH|j p e' s s1 Hhas Hp].
  - done.
  - destruct (IH Herr) as (j' & p' & s0 & Hin & Hhas' & Hrej).
    exists j', p', s0. split_and!; [by apply list_elem_of_further|done..].
  - injection Herr as ->. exists j, p, s. split_and!; [apply list_elem_of_here|done|].
    by rewrite Hp.
Qed.

Lemma ran_never_rejects has js s s' err :
  (forall j p s, has j p -> exists r, (p s).1 = Fulfilled r) ->
  ran has js s s' err -> err = None.
Proof.
  intros Hful Hran. destruct err as [e|]; [|done].
  apply ran_rejected_inv in Hran as (j & p & s0 & _ & Hhas & Hrej).
  destruct (Hful j p s0 Hhas) as [r Hr]. congruence.
Qed.

Lemma ran_preserves (I : St -> Prop) has js s s' err :
  (forall j p s, j ∈ js -> has j p -> I s -> I (p s).2) ->
  ran has js s s' err -> I s -> I s'.
Proof.
  intros Hpres Hran. induction Hran as [|j p r s s1 js s' err Hhas Hp _ IH|j p e s s1 Hhas Hp];
    intros Hs; [done| |].
  - apply IH.
    + intros j' p' s0 Hin. apply Hpres. by apply list_elem_of_further.
    + pose proof (Hpres j p s (list_elem_of_here _ _) Hhas Hs) as Hnext. by rewrite Hp in Hnext.
  - pose proof (Hpres j p s (list_elem_of_here _ _) Hhas Hs) as Hnext. by rewrite Hp in Hnext.
Qed.

Lemma ran_establishes (P : St -> Prop) has js s s' j :
  ran has js s s' None ->
  j ∈ js ->
  (forall p s r s1, has j p -> p s = (Fulfilled r, s1) -> P s1) ->
  (forall j' p s, j' ∈ js -> has j' p -> P s -> P (p s).2) ->
  P s'.
Proof.
  intros Hran. remember None as none eqn:Hnone.
  induction Hran as [|j0 p r s s1 js s' err Hhas Hp Hrest IH|]; intros Hin Hest Hpres.
  - by apply elem_of_nil in Hin.
  - apply elem_of_cons in Hin as [->|Hin].
    + eapply ran_preserves; [|exact Hrest|by eapply Hest].
      intros j' p' s0 Hin'. apply Hpres. by apply list_elem_of_further.
    + apply IH; [done..|]. intros j' p' s0 Hin'. apply Hpres. by apply list_elem_of_further.
  - done.
Qed.

Lemma settle_ran fuel pick (pending : list (nat * Promise St R)) values s o s' order :
  settle fuel pick pending values s = (o, s', order) ->
  ran (fun pos p => (pos, p) ∈ pending) order s s' (rejection o).
Proof.
  revert pending values s o s' order.
  induction fuel as [|fuel IH]; intros pending values s o s' order; simpl.
  - intros [= <- <- <-]. constructor.
  - destruct (pending !! _) as [[pos p]|] eqn:Hk.
    2:{ intros [= <- <- <-]. constructor. }
    assert ((pos, p) ∈ pending) as Hin by (by eapply list_elem_of_lookup_2).
    destruct (p s) as [[r|e] s1] eqn:Hp.
    + destruct (settle fuel pick _ _ s1) as [[o1 s2] order1] eqn:Hrec.
      intros [= <- <- <-]. apply IH in Hrec.
      eapply ran_fulfilled; [exact Hin|exact Hp|].
      eapply ran_mono; [|exact Hrec]. intros j q. apply list_elem_of_delete_inv.
    + intros [= <- <- <-]. by eapply ran_rejected.
Qed.

Lemma Promise_all_ran pick (promises : list (Promise St R)) s o s' order :
  Promise_all pick promises s = (o, s', order) ->
  ran (fun pos p => promises !! pos = Some p) order s s' (rejection o).
Proof.
  unfold Promise_all. intros Hrun%settle_ran.
  eapply ran_mono; [|exact Hrun]. intros pos p. by rewrite elem_of_imap_tagged.
Qed.
End RanFacts.

Section IndexFacts.
Implicit Types (trace : list event).

Lemma called_indices_app c trace1 trace2 :
  called_indices c (trace1 ++ trace2) = called_indices c trace1 ++ called_indices c trace2.
Proof. apply omap_app. Qed.

Lemma settled_indices_app c trace1 trace2 :
  settled_indices c (trace1 ++ trace2) = settled_indices c trace1 ++ settled_indices c trace2.
Proof. apply omap_app. Qed.

Lemma called_indices_calls c i (ks : list nat) :
  called_indices c (Call i <$> ks) = (fun k => i * c + k) <$> ks.
Proof. induction ks as [|k ks IH]; [done|]. csimpl. by rewrite IH. Qed.

Lemma called_indices_settled c i (ks : list nat) : called_indices c (Settled i <$> ks) = [].
Proof. induction ks as [|k ks IH]; [done|]. csimpl. by rewrite IH. Qed.

Lemma settled_indices_calls c i (ks : list nat) : settled_indices c (Call i <$> ks) = [].
Proof. induction ks as [|k ks IH]; [done|]. csimpl. by rewrite IH. Qed.

Lemma settled_indices_settled c i (ks : list nat) :
  settled_indices c (Settled i <$> ks) = (fun k => i * c + k) <$> ks.
Proof. induction ks as [|k ks IH]; [done|]. csimpl. by rewrite IH. Qed.

Lemma fmap_add_seq_0 (base n : nat) : (fun k => base + k) <$> seq 0 n = seq base n.
Proof. by rewrite fmap_add_seq, Nat.add_0_r. Qed.
End IndexFacts.

Section LoopRuns.
Context {St InputElement Result : Type}.
Implicit Types (requestFn : InputElement -> nat -> Promise St Result).

(** The loop as a run: which operations were called, which settled, and
    what they made of the store. *)
Lemma chunkRequests_loop_run sched requestFn (concurrentRequests : nat) l :
  1 <= concurrentRequests ->
  forall i result s o s' trace,
  chunkRequests_loop sched requestFn concurrentRequests
    (chunk l concurrentRequests) i result s = (o, s', trace) ->
  ran (fun j p => exists k v, j = i * concurrentRequests + k /\ l !! k = Some v
                              /\ p = requestFn v j)
    (settled_indices concurrentRequests trace) s s' (rejection o)
  /\ (exists g,
        called_indices concurrentRequests trace
        = seq (i * concurrentRequests) ((g * concurrentRequests) `min` length l)
        /\ (rejection o = None -> length l <= g * concurrentRequests))
  /\ (rejection o = None ->
      settled_indices concurrentRequests trace ≡ₚ seq (i * concurrentRequests) (length l)).
Proof.
  intros Hsize. pattern l, (chunk l concurrentRequests). apply chunk_ind; [done| |]; clear l.
  - intros i result s o s' trace. simpl. intros [= <- <- <-]. split_and!.
    + constructor.
    + exists 0. simpl. split; [done|lia].
    + done.
  - intros l Hl IH i result s o s' trace. simpl.
    destruct (Promise_all _ _ s) as [[o1 s1] order] eqn:Hall.
    pose proof (Promise_all_order _ _ _ _ _ _ Hall) as [_ Hperm].
    rewrite length_imap in Hperm.
    apply Promise_all_ran in Hall.
    apply (ran_map (fun pos => i * concurrentRequests + pos) _
             (fun j p => exists k v, j = i * concurrentRequests + k /\ l !! k = Some v
                                     /\ p = requestFn v j)) in Hall.
    2:{ intros pos p. rewrite list_lookup_imap.
        destruct (take concurrentRequests l !! pos) as [v|] eqn:E; simpl; [|done].
        intros [= <-]. exists pos, v. split_and!; [done| |done].
        rewrite lookup_take_Some in E. by destruct E. }
    assert (length (take concurrentRequests l) = concurrentRequests `min` length l) as Hlen
      by apply length_take.
    assert (length l <> 0) as Hne by (by destruct l).
    destruct o1 as [values|e].
    + destruct (chunkRequests_loop _ _ _ _ _ _ s1) as [[o2 s2] trace2] eqn:Hrec.
      intros [= <- <- <-].
      apply IH in Hrec as (Hran & (g & Hcalled & Hall_called) & Hsettled).
      rewrite length_drop in Hcalled, Hall_called, Hsettled.
      rewrite !settled_indices_app, !called_indices_app.
      rewrite settled_indices_calls, settled_indices_settled.
      rewrite called_indices_calls, called_indices_settled, fmap_add_seq_0. simpl.
      specialize (Hperm ltac:(by eexists)).
      split_and!.
      * eapply ran_app; [exact Hall|].
        eapply ran_mono; [|exact Hran].
        intros j p (k & v & -> & Hk & ->). rewrite lookup_drop in Hk.
        exists (concurrentRequests + k), v. split_and!; [lia|done|f_equal; lia].
      * exists (S g). rewrite Hcalled, Hlen. split; [|intros Hnone; specialize (Hall_called Hnone); simpl; lia].
        destruct (decide (length l <= concurrentRequests)) as [Hle|Hgt].
        -- replace (length l - concurrentRequests) with 0 by lia.
           rewrite Nat.min_0_r. simpl. rewrite app_nil_r. f_equal. lia.
        -- replace (concurrentRequests `min` length l) with concurrentRequests by lia.
           replace ((i + 1) * concurrentRequests)
             with (i * concurrentRequests + concurrentRequests) by lia.
           rewrite <- seq_app. f_equal. simpl. lia.
      * intros Hnone. rewrite (Hsettled Hnone), Hperm, fmap_add_seq_0, Hlen.
        destruct (decide (length l <= concurrentRequests)) as [Hle|Hgt].
        -- replace (length l - concurrentRequests) with 0 by lia.
           simpl. rewrite app_nil_r. apply reflexive_eq. f_equal. lia.
        -- replace (concurrentRequests `min` length l) with concurrentRequests by lia.
           replace ((i + 1) * concurrentRequests)
             with (i * concurrentRequests + concurrentRequests) by lia.
           rewrite <- seq_app. apply reflexive_eq. f_equal. lia.
    + intros [= <- <- <-].
      rewrite !settled_indices_app, !called_indices_app.
      rewrite settled_indices_calls, settled_indices_settled.
      rewrite called_indices_calls, called_indices_settled, fmap_add_seq_0. simpl.
      rewrite app_nil_r. split_and!; [done| |done].
      exists 1. rewrite Hlen, Nat.mul_1_l. done.
Qed.

Lemma chunkRequests_run sched (inputArray : list InputElement) requestFn
    (concurrentRequests : nat) (s : St) o s' trace :
  chunkRequests sched inputArray requestFn concurrentRequests s = (o, s', trace) ->
  ran (operation_of requestFn inputArray) (settled_indices concurrentRequests trace)
    s s' (rejection o)
  /\ (1 <= concurrentRequests -> rejection o = None ->
      settled_indices concurrentRequests trace ≡ₚ seq 0 (length inputArray)).
Proof.
  unfold chunkRequests. intros Hrun.
  destruct (decide (1 <= concurrentRequests)) as [Hsize|Hzero].
  - apply chunkRequests_loop_run in Hrun as (Hran & _ & Hsettled); [|done].
    split; [|by intros _].
    eapply ran_mono; [|exact Hran]. intros j p (k & v & -> & Hk & ->). by exists v.
  - unfold chunk in Hrun. rewrite decide_True in Hrun by lia. simpl in Hrun.
    injection Hrun as <- <- <-. split; [constructor|lia].
Qed.

Lemma chunkRequests_keeps (I : St -> Prop) sched (inputArray : list InputElement) requestFn
    (concurrentRequests : nat) (s : St) :
  (forall j v s, inputArray !! j = Some v -> I s -> I (requestFn v j s).2) ->
  I s ->
  I (chunkRequests sched inputArray requestFn concurrentRequests s).1.2.
Proof.
  intros Hpres Hs.
  destruct (chunkRequests _ _ _ _ s) as [[o s'] trace] eqn:Hrun. simpl.
  apply chunkRequests_run in Hrun as [Hran _].
  eapply ran_preserves; [|exact Hran|exact Hs].
  intros j p s0 _ (v & Hv & ->). by apply Hpres.
Qed.

Lemma chunkRequests_reaches (P : St -> Prop) sched (inputArray : list InputElement) requestFn
    (concurrentRequests : nat) (s : St) output s' trace j v :
  1 <= concurrentRequests ->
  chunkRequests sched inputArray requestFn concurrentRequests s = (Fulfilled output, s', trace) ->
  inputArray !! j = Some v ->
  (forall s r s1, requestFn v j s = (Fulfilled r, s1) -> P s1) ->
  (forall j' v' s, inputArray !! j' = Some v' -> P s -> P (requestFn v' j' s).2) ->
  P s'.
Proof.
  intros Hsize [Hran Hall]%chunkRequests_run Hj Hest Hpres. simpl in *.
  specialize (Hall Hsize eq_refl).
  eapply (ran_establishes P _ _ _ _ j); [exact Hran| | |].
  - rewrite Hall. apply elem_of_seq. apply lookup_lt_Some in Hj. lia.
  - intros p s0 r s1 (v0 & Hv0 & ->). rewrite Hj in Hv0. injection Hv0 as <-. apply Hest.
  - intros j' p s0 _ (v' & Hv' & ->). by apply Hpres.
Qed.
End LoopRuns.

Section RanLogFacts.
Context {St R : Type}.
Implicit Types (has : nat -> Promise St R -> Prop).

Lemma ran_log_mono has1 has2 log s s' err :
  (forall j p, has1 j p -> has2 j p) ->
  ran_log has1 log s s' err -> ran_log has2 log s s' err.
Proof.
  intros Hsub.
  induction 1; [constructor|eapply ran_log_fulfilled; eauto|eapply ran_log_rejected; eauto].
Qed.

Lemma ran_log_map (f : nat -> nat) has1 has2 log s s' err :
  (forall j p, has1 j p -> has2 (f j) p) ->
  ran_log has1 log s s' err ->
  ran_log has2 (prod_map f id <$> log) s s' (prod_map f id <$> err).
Proof.
  intros Hsub.
  induction 1; csimpl;
    [constructor|eapply ran_log_fulfilled; eauto|eapply ran_log_rejected; eauto].
Qed.

Lemma ran_log_app has log1 log2 s s1 s' err :
  ran_log has log1 s s1 None -> ran_log has log2 s1 s' err ->
  ran_log has (log1 ++ log2) s s' err.
Proof.
  intros Hfirst. remember None as none eqn:Hnone.
  induction Hfirst; intros Hsecond; simpl; [done| |done].
  eapply ran_log_fulfilled; eauto.
Qed.

(** A rejected run, taken apart: the fulfilled operations, then the
    rejected one on the store they left. *)
Lemma ran_log_rejected_inv has log s s' j e :
  ran_log has log s s' (Some (j, e)) ->
  exists p s0, has j p /\ ran_log has log s s0 None /\ p s0 = (Rejected e, s').
Proof.
  remember (Some (j, e)) as err eqn:Herr.
  induction 1 as [|j0 p r s s1 log s' err Hhas Hp _ IH|j0 p e0 s s1 Hhas Hp].
  - done.
  - destruct (IH Herr) as (p' & s0 & Hhas' & Hbefore & Hlast).
    exists p', s0. split_and!; [done| |done]. by eapply ran_log_fulfilled.
  - injection Herr as -> ->. exists p, s. split_and!; [done|constructor|done].
Qed.

Lemma ran_log_names has log s s' err j r :
  ran_log has log s s' err -> (j, r) ∈ log -> exists p, has j p.
Proof.
  induction 1 as [|j0 p r0 s s1 log s' err Hhas Hp _ IH|]; intros Hin.
  - by apply elem_of_nil in Hin.
  - apply elem_of_cons in Hin as [[= -> ->]|Hin]; [by exists p|by apply IH].
  - by apply elem_of_nil in Hin.
Qed.

Lemma settled_in_app (log1 log2 : list (nat * R)) err :
  settled_in (log1 ++ log2) err = log1.*1 ++ settled_in log2 err.
Proof. unfold settled_in. by rewrite fmap_app, <- app_assoc. Qed.

Lemma length_fill (values : list (option R)) log : length (fill values log) = length values.
Proof.
  revert values. induction log as [|entry log IH]; intros values; [done|].
  unfold fill in *. simpl. by rewrite IH, length_insert.
Qed.

Lemma fill_lookup_other (values : list (option R)) log pos :
  pos ∉ log.*1 -> fill values log !! pos = values !! pos.
Proof.
  revert values. induction log as [|[pos0 r0] log IH]; intros values Hnot; [done|].
  apply not_elem_of_cons in Hnot as [Hne Hnot].
  unfold fill in *. simpl. rewrite IH by done. by apply list_lookup_insert_ne.
Qed.

Lemma fill_lookup (values : list (option R)) log pos r :
  NoDup log.*1 -> (pos, r) ∈ log -> pos < length values ->
  fill values log !! pos = Some (Some r).
Proof.
  revert values. induction log as [|[pos0 r0] log IH]; intros values Hnodup Hin Hpos.
  - by apply elem_of_nil in Hin.
  - apply NoDup_cons in Hnodup as [Hfresh Hnodup].
    apply elem_of_cons in Hin as [[= -> ->]|Hin].
    + change (fill (<[pos0 := Some r0]> values) log !! pos0 = Some (Some r0)).
      rewrite fill_lookup_other by done. by apply list_lookup_insert_eq.
    + change (fill (<[pos0 := Some r0]> values) log !! pos = Some (Some r)).
      apply IH; [done..|]. by rewrite length_insert.
Qed.

Lemma collect_filled_values (values : list (option R)) :
  (forall pos, pos < length values -> exists r, values !! pos = Some (Some r)) ->
  values = Some <$> collect values.
Proof.
  induction values as [|x values IH]; intros Hfilled; [done|].
  destruct (Hfilled 0 ltac:(simpl; lia)) as [r [= ->]].
  unfold collect in *. csimpl. f_equal. apply IH.
  intros pos Hpos. apply (Hfilled (S pos)). simpl. lia.
Qed.

Lemma settle_log fuel pick (pending : list (nat * Promise St R)) values s o s' order :
  settle fuel pick pending values s = (o, s', order) ->
  exists log err,
    ran_log (fun pos p => (pos, p) ∈ pending) log s s' err
    /\ order = settled_in log err
    /\ rejection o = snd <$> err
    /\ forall vs, o = Fulfilled vs -> vs = collect (fill values log).
Proof.
  revert pending values s o s' order.
  induction fuel as [|fuel IH]; intros pending values s o s' order; simpl.
  - intros [= <- <- <-]. exists [], None. split_and!; [constructor|done..|].
    by intros vs [= <-].
  - destruct (pending !! _) as [[pos p]|] eqn:Hk.
    2:{ intros [= <- <- <-]. exists [], None. split_and!; [constructor|done..|].
        by intros vs [= <-]. }
    assert ((pos, p) ∈ pending) as Hin by (by eapply list_elem_of_lookup_2).
    destruct (p s) as [[r|e] s1] eqn:Hp.
    + destruct (settle fuel pick _ _ s1) as [[o1 s2] order1] eqn:Hrec.
      intros [= <- <- <-].
      apply IH in Hrec as (log & err & Hran & -> & Herr & Hvalues).
      exists ((pos, r) :: log), err. split_and!; [|done..].
      eapply ran_log_fulfilled; [exact Hin|exact Hp|].
      eapply ran_log_mono; [|exact Hran]. intros j q. apply list_elem_of_delete_inv.
    + intros [= <- <- <-]. exists [], (Some (pos, e)).
      split_and!; [by eapply ran_log_rejected|done..].
Qed.

(** [Promise.all] as a run with its results: the value at each position
    is the one with which the promise of that position was fulfilled in
    this run. *)
Lemma Promise_all_log pick (promises : list (Promise St R)) s o s' order :
  Promise_all pick promises s = (o, s', order) ->
  exists log err,
    ran_log (fun pos p => promises !! pos = Some p) log s s' err
    /\ order = settled_in log err
    /\ rejection o = snd <$> err
    /\ forall vs, o = Fulfilled vs ->
         length vs = length promises
         /\ forall pos r, (pos, r) ∈ log -> vs !! pos = Some r.
Proof.
  intros Hrun. pose proof (Promise_all_order _ _ _ _ _ _ Hrun) as [_ Hperm].
  unfold Promise_all in Hrun.
  apply settle_log in Hrun as (log & err & Hran & -> & Herr & Hvalues).
  exists log, err. split_and!; [|done..|].
  { eapply ran_log_mono; [|exact Hran]. intros pos p. by rewrite elem_of_imap_tagged. }
  intros vs ->. specialize (Hperm ltac:(by eexists)).
  destruct err as [[j e]|]; [done|].
  unfold settled_in in Hperm. rewrite app_nil_r in Hperm.
  rewrite (Hvalues vs eq_refl).
  set (filled := fill (replicate (length promises) None) log).
  assert (length filled = length promises) as Hlen
    by (unfold filled; by rewrite length_fill, length_replicate).
  assert (NoDup log.*1) as Hnodup by (rewrite Hperm; apply NoDup_seq).
  assert (forall pos r, (pos, r) ∈ log -> filled !! pos = Some (Some r)) as Hin.
  { intros pos r Hpos. apply fill_lookup; [done..|]. rewrite length_replicate.
    assert (pos ∈ log.*1) as Hmem by (apply list_elem_of_fmap; by exists (pos, r)).
    rewrite Hperm in Hmem. apply elem_of_seq in Hmem. lia. }
  assert (filled = Some <$> collect filled) as Hcollect.
  { apply collect_filled_values. intros pos Hpos.
    assert (pos ∈ log.*1) as Hmem by (rewrite Hperm; apply elem_of_seq; lia).
    apply list_elem_of_fmap in Hmem as ([pos' r] & -> & Hmem). eauto. }
  split.
  - rewrite <- Hlen. rewrite Hcollect at 2. by rewrite length_fmap.
  - intros pos r Hpos. apply Hin in Hpos. rewrite Hcollect, list_lookup_fmap in Hpos.
    destruct (collect filled !! pos); simpl in Hpos; congruence.
Qed.
End RanLogFacts.

Section LoopLogs.
Context {St InputElement Result : Type}.
Implicit Types (requestFn : InputElement -> nat -> Promise St Result).

(** The loop as a run with its results, from group [i] on. *)
Lemma chunkRequests_loop_log sched requestFn (concurrentRequests : nat) l :
  1 <= concurrentRequests ->
  forall i result s o s' trace,
  chunkRequests_loop sched requestFn concurrentRequests
    (chunk l concurrentRequests) i result s = (o, s', trace) ->
  exists log err,
    ran_log (fun j p => exists k v, j = i * concurrentRequests + k /\ l !! k = Some v
                                    /\ p = requestFn v j) log s s' err
    /\ settled_indices concurrentRequests trace = settled_in log err
    /\ rejection o = snd <$> err
    /\ (forall output, o = Fulfilled output ->
        exists rest,
          output = flatten result ++ rest
          /\ length rest = length l
          /\ forall j r, (j, r) ∈ log ->
               i * concurrentRequests <= j /\ rest !! (j - i * concurrentRequests) = Some r)
    /\ (forall j e, err = Some (j, e) ->
        i * concurrentRequests <= j < i * concurrentRequests + length l
        /\ called_indices concurrentRequests trace
           = seq (i * concurrentRequests)
               ((((j - i * concurrentRequests) / concurrentRequests + 1) * concurrentRequests)
                  `min` length l)).
Proof.
  intros Hsize. pattern l, (chunk l concurrentRequests). apply chunk_ind; [done| |]; clear l.
  - intros i result s o s' trace. simpl. intros [= <- <- <-].
    exists [], None. split_and!; [constructor|done..| |done].
    intros output [= <-]. exists []. split_and!; [by rewrite app_nil_r|done|].
    intros j r Hin. by apply elem_of_nil in Hin.
  - intros l Hl IH i result s o s' trace. simpl.
    destruct (Promise_all _ _ s) as [[o1 s1] order] eqn:Hall.
    apply Promise_all_log in Hall as (log1 & err1 & Hran1 & -> & Herr1 & Hvalues).
    rewrite length_imap in Hvalues.
    assert (length (take concurrentRequests l) = concurrentRequests `min` length l) as Hlen
      by apply length_take.
    assert (forall pos e, err1 = Some (pos, e) -> pos < concurrentRequests `min` length l)
      as Hbound.
    { intros pos e ->.
      apply ran_log_rejected_inv in Hran1 as (p & s0 & Hp%lookup_lt_Some & _).
      by rewrite length_imap, Hlen in Hp. }
    apply (ran_log_map (fun pos => i * concurrentRequests + pos) _
             (fun j p => exists k v, j = i * concurrentRequests + k /\ l !! k = Some v
                                     /\ p = requestFn v j)) in Hran1.
    2:{ intros pos p. rewrite list_lookup_imap.
        destruct (take concurrentRequests l !! pos) as [v|] eqn:E; simpl; [|done].
        intros [= <-]. exists pos, v. split_and!; [done| |done].
        rewrite lookup_take_Some in E. by destruct E. }
    assert (length l <> 0) as Hne by (by destruct l).
    destruct o1 as [values|e].
    + destruct err1 as [[j1 e1]|]; [done|].
      destruct (Hvalues values eq_refl) as [Hlenv Hin1].
      destruct (chunkRequests_loop _ _ _ _ _ _ s1) as [[o2 s2] trace2] eqn:Hrec.
      intros [= <- <- <-].
      apply IH in Hrec as (log2 & err2 & Hran2 & Hsettled2 & Herr2 & Hout2 & Hcalled2).
      exists ((prod_map (fun pos => i * concurrentRequests + pos) id <$> log1) ++ log2), err2.
      split_and!.
      * eapply ran_log_app; [exact Hran1|].
        eapply ran_log_mono; [|exact Hran2].
        intros j p (k & v & -> & Hk & ->). rewrite lookup_drop in Hk.
        exists (concurrentRequests + k), v. split_and!; [lia|done|f_equal; lia].
      * rewrite !settled_indices_app, settled_indices_calls, settled_indices_settled.
        rewrite Hsettled2, settled_in_app. simpl. f_equal.
        unfold settled_in. rewrite app_nil_r, <- !list_fmap_compose.
        apply list_fmap_ext. by intros _ [pos r] _.
      * done.
      * intros output ->.
        destruct (Hout2 _ eq_refl) as (rest & -> & Hrest & Hin2).
        exists (values ++ rest). split_and!.
        -- unfold flatten. rewrite concat_app. simpl. by rewrite app_nil_r, <- app_assoc.
        -- rewrite length_app, Hlenv, Hrest, Hlen, length_drop. lia.
        -- intros j r [Hin|Hin]%elem_of_app.
           ++ apply list_elem_of_fmap in Hin as ([pos r'] & [= -> ->] & Hin).
              split; [lia|]. apply lookup_app_l_Some.
              replace (i * concurrentRequests + pos - i * concurrentRequests) with pos by lia.
              by apply Hin1.
           ++ destruct (ran_log_names _ _ _ _ _ _ _ Hran2 Hin) as (p & k & v & -> & Hk & _).
              rewrite lookup_drop in Hk. apply lookup_lt_Some in Hk.
              destruct (Hin2 _ _ Hin) as [_ Hr]. split; [lia|].
              rewrite lookup_app_r by (rewrite Hlenv, Hlen; lia).
              rewrite <- Hr. f_equal. rewrite Hlenv, Hlen. lia.
      * intros j e ->. destruct (Hcalled2 j e eq_refl) as [Hj Hseq].
        rewrite length_drop in Hj, Hseq.
        split; [lia|].
        rewrite !called_indices_app, called_indices_calls, called_indices_settled.
        rewrite fmap_add_seq_0, Hseq, Hlen. simpl.
        replace (concurrentRequests `min` length l) with concurrentRequests by lia.
        replace ((i + 1) * concurrentRequests)
          with (i * concurrentRequests + concurrentRequests) by lia.
        rewrite <- seq_app. f_equal.
        replace (j - i * concurrentRequests)
          with (j - (i * concurrentRequests + concurrentRequests) + 1 * concurrentRequests)
          by lia.
        rewrite Nat.div_add by lia. lia.
    + intros [= <- <- <-].
      destruct err1 as [[pos e1]|]; [|done]. injection Herr1 as <-.
      specialize (Hbound pos e eq_refl).
      exists (prod_map (fun pos => i * concurrentRequests + pos) id <$> log1),
        (Some (i * concurrentRequests + pos, e)).
      rewrite !settled_indices_app, settled_indices_calls, settled_indices_settled.
      rewrite !called_indices_app, called_indices_calls, called_indices_settled.
      rewrite fmap_add_seq_0, Hlen, app_nil_r. simpl.
      split_and!; [exact Hran1| |done|done|].
      * unfold settled_in. rewrite fmap_app, <- !list_fmap_compose. simpl. f_equal.
      * intros j e' [= <- <-]. split; [lia|].
        replace (i * concurrentRequests + pos - i * concurrentRequests) with pos by lia.
        rewrite Nat.div_small by lia. simpl. by rewrite Nat.add_0_r.
Qed.

(** A call of [chunkRequests] as a run with its results. *)
Lemma chunkRequests_log sched (inputArray : list InputElement) requestFn
    (concurrentRequests : nat) (s : St) o s' trace :
  chunkRequests sched inputArray requestFn concurrentRequests s = (o, s', trace) ->
  1 <= concurrentRequests ->
  exists log err,
    ran_log (operation_of requestFn inputArray) log s s' err
    /\ settled_indices concurrentRequests trace = settled_in log err
    /\ rejection o = snd <$> err
    /\ (forall output, o = Fulfilled output ->
        length output = length inputArray
        /\ forall j r, (j, r) ∈ log -> output !! j = Some r)
    /\ (forall j e, err = Some (j, e) ->
        j < length inputArray
        /\ called_indices concurrentRequests trace
           = seq 0 (((j / concurrentRequests + 1) * concurrentRequests)
                      `min` length inputArray)).
Proof.
  unfold chunkRequests. intros Hrun Hsize.
  apply chunkRequests_loop_log in Hrun
    as (log & err & Hran & Hsettled & Herr & Hout & Hcalled); [|done].
  exists log, err. split_and!; [|done..| |].
  - eapply ran_log_mono; [|exact Hran]. intros j p (k & v & -> & Hk & ->). by exists v.
  - intros output Ho. destruct (Hout output Ho) as (rest & -> & Hlen & Hin).
    simpl. split; [done|]. intros j r Hj. destruct (Hin j r Hj) as [_ Hr].
    rewrite <- Hr. f_equal. lia.
  - intros j e He. destruct (Hcalled j e He) as [Hj Hseq]. simpl in *.
    rewrite Nat.sub_0_r in Hseq. split; [lia|done].
Qed.
End LoopLogs.

(** * The batch executor: further properties *)



(** The run of the witness: the third operation is rejected; the fourth,
    launched with it, has been called, the fifth never is. *)
Example chunkRequests_stops_after_rejection :
  chunkRequests (fun _ => lifo) [10; 20; 30; 40; 50] (Mock.rejecting_at 2) 2 []
  = (Rejected Mock.server_error,
     [1; 0; 3; 2],
     [Call 0 0; Call 0 1; Settled 0 1; Settled 0 0;
      Call 1 0; Call 1 1; Settled 1 1; Settled 1 0]).
Proof. reflexivity. Qed.

(** X2.  When [chunkRequests] is rejected with [e], the operations that
    settled before were all fulfilled, one after the other from the initial
    store; the operation that settled last, on an element of the input, ran
    on the store they left and was rejected with this very [e]; and the
    store in which [chunkRequests] ends is the one that operation left. *)
Theorem chunkRequests_rejection_origin {St InputElement Result : Type}
    (sched : nat -> list nat -> nat) (inputArray : list InputElement)
    (requestFn : InputElement -> nat -> Promise St Result) (concurrentRequests : nat)
    (s : St) (e : JsError) (s' : St) (trace : list event) :
  chunkRequests sched inputArray requestFn concurrentRequests s = (Rejected e, s', trace) ->
  exists log j v s0,
    settled_indices concurrentRequests trace = log.*1 ++ [j]
    /\ ran_log (operation_of requestFn inputArray) log s s0 None
    /\ inputArray !! j = Some v
    /\ requestFn v j s0 = (Rejected e, s').
Proof.
  intros Hrun.
  destruct (decide (1 <= concurrentRequests)) as [Hsize|Hzero].
  - apply chunkRequests_log in Hrun as (log & err & Hran & Hsettled & Herr & _); [|done].
    destruct err as [[j e']|]; [|done]. injection Herr as ->.
    apply ran_log_rejected_inv in Hran as (p & s0 & (v & Hv & ->) & Hbefore & Hlast).
    by exists log, j, v, s0.
  - unfold chunkRequests, chunk in Hrun. by rewrite decide_True in Hrun by lia.
Qed.

Lemma chunkRequests_rejection_origin_witness :
  exists log j v s0,
    settled_indices 2
      [Call 0 0; Call 0 1; Settled 0 1; Settled 0 0;
       Call 1 0; Call 1 1; Settled 1 1; Settled 1 0]
    = log.*1 ++ [j]
    /\ ran_log (operation_of (Mock.rejecting_at 2) [10; 20; 30; 40; 50]) log [] s0 None
    /\ [10; 20; 30; 40; 50] !! j = Some v
    /\ Mock.rejecting_at 2 v j s0 = (Rejected Mock.server_error, [1; 0; 3; 2]).
Proof.
  apply (chunkRequests_rejection_origin (fun _ => lifo) [10; 20; 30; 40; 50]
           (Mock.rejecting_at 2) 2 [] Mock.server_error [1; 0; 3; 2]
           [Call 0 0; Call 0 1; Settled 0 1; Settled 0 0;
            Call 1 0; Call 1 1; Settled 1 1; Settled 1 0]).
  reflexivity.
Defined.

(** X3.  Whatever every operation preserves, [chunkRequests] preserves,
    in runs that are fulfilled and in runs that are rejected alike, for
    every ceiling and every order of completion. *)
Theorem chunkRequests_preserves {St InputElement Result : Type} (I : St -> Prop)
    (sched : nat -> list nat -> nat) (inputArray : list InputElement)
    (requestFn : InputElement -> nat -> Promise St Result) (concurrentRequests : nat) (s : St) :
  (forall j v s, inputArray !! j = Some v -> I s -> I (requestFn v j s).2) ->
  I s ->
  I (chunkRequests sched inputArray requestFn concurrentRequests s).1.2.
Proof. apply chunkRequests_keeps. Qed.

Lemma chunkRequests_preserves_witness :
  Forall (fun j => j < 5)
    (chunkRequests (fun _ => lifo) [10; 20; 30; 40; 50] (Mock.rejecting_at 2) 2 []).1.2.
Proof.
  apply (chunkRequests_preserves (Forall (fun j => j < 5)) (fun _ => lifo)
           [10; 20; 30; 40; 50] (Mock.rejecting_at 2) 2 []).
  - intros j v s Hj Hs. simpl. apply Forall_app. split; [exact Hs|].
    apply lookup_lt_Some in Hj. simpl in Hj. constructor; [lia|constructor].
  - constructor.
Defined.

(** X4.  In a fulfilled run with a ceiling of at least one, every
    operation has run and been fulfilled: what the operation on an element
    establishes when it is fulfilled, and no operation undoes, holds in the
    end. *)
Theorem chunkRequests_fulfilled_ran_all {St InputElement Result : Type} (P : St -> Prop)
    (sched : nat -> list nat -> nat) (inputArray : list InputElement)
    (requestFn : InputElement -> nat -> Promise St Result) (concurrentRequests : nat)
    (s : St) (output : list Result) (s' : St) (trace : list event) (j : nat) (v : InputElement) :
  1 <= concurrentRequests ->
  chunkRequests sched inputArray requestFn concurrentRequests s = (Fulfilled output, s', trace) ->
  inputArray !! j = Some v ->
  (forall s r s1, requestFn v j s = (Fulfilled r, s1) -> P s1) ->
  (forall j' v' s, inputArray !! j' = Some v' -> P s -> P (requestFn v' j' s).2) ->
  P s'.
Proof. apply chunkRequests_reaches. Qed.

Lemma chunkRequests_fulfilled_ran_all_witness :
  3 ∈ [1; 0; 3; 2; 4].
Proof.
  apply (chunkRequests_fulfilled_ran_all (fun completed => 3 ∈ completed) (fun _ => lifo)
           [10; 20; 30; 40; 50] Mock.recording 2 [] [10; 21; 32; 43; 54] [1; 0; 3; 2; 4]
           [Call 0 0; Call 0 1; Settled 0 1; Settled 0 0;
            Call 1 0; Call 1 1; Settled 1 1; Settled 1 0;
            Call 2 0; Settled 2 0] 3 40).
  - lia.
  - reflexivity.
  - reflexivity.
  - intros s r s1 [= _ <-]. apply elem_of_app. right. apply list_elem_of_here.
  - intros j' v' s _ Hs. simpl. apply elem_of_app. by left.
Defined.

(** X5.  The output of a fulfilled run, for operations whose results may
    depend on the store.  With a ceiling of zero it is empty whatever the
    input.  With a ceiling of at least one it is as long as the input; every
    operation settled once; and element [j] of the output is the value with
    which the operation on element [j] was fulfilled in this run, on the
    store left by the operations that settled before it. *)
Theorem chunkRequests_output_elementwise {St InputElement Result : Type}
    (sched : nat -> list nat -> nat) (inputArray : list InputElement)
    (requestFn : InputElement -> nat -> Promise St Result) (concurrentRequests : nat)
    (s : St) (output : list Result) (s' : St) (trace : list event) :
  chunkRequests sched inputArray requestFn concurrentRequests s = (Fulfilled output, s', trace) ->
  (concurrentRequests = 0 -> output = [])
  /\ (1 <= concurrentRequests ->
      length output = length inputArray
      /\ exists log,
           log.*1 = settled_indices concurrentRequests trace
           /\ log.*1 ≡ₚ seq 0 (length inputArray)
           /\ ran_log (operation_of requestFn inputArray) log s s' None
           /\ forall j r, (j, r) ∈ log -> output !! j = Some r).
Proof.
  intros Hrun. split.
  - intros ->. unfold chunkRequests in Hrun. simpl in Hrun. by injection Hrun as <- _ _.
  - intros Hsize.
    pose proof (chunkRequests_run _ _ _ _ _ _ _ _ Hrun) as [_ Hperm].
    specialize (Hperm Hsize eq_refl).
    apply chunkRequests_log in Hrun as (log & err & Hran & Hsettled & Herr & Hout & _);
      [|done].
    destruct err as [[j e]|]; [done|].
    unfold settled_in in Hsettled. rewrite app_nil_r in Hsettled.
    destruct (Hout output eq_refl) as [Hlen Hvalues].
    split; [done|]. exists log. split_and!; [done| |done|done].
    by rewrite <- Hsettled.
Qed.

Lemma chunkRequests_output_elementwise_witness :
  length [10; 21; 32; 43; 54] = length [10; 20; 30; 40; 50]
  /\ exists log,
       log.*1
       = settled_indices 2
           [Call 0 0; Call 0 1; Settled 0 1; Settled 0 0;
            Call 1 0; Call 1 1; Settled 1 1; Settled 1 0;
            Call 2 0; Settled 2 0]
       /\ log.*1 ≡ₚ seq 0 (length [10; 20; 30; 40; 50])
       /\ ran_log (operation_of Mock.recording [10; 20; 30; 40; 50]) log []
            [1; 0; 3; 2; 4] None
       /\ forall j r, (j, r) ∈ log -> [10; 21; 32; 43; 54] !! j = Some r.
Proof.
  apply (chunkRequests_output_elementwise (fun _ => lifo) [10; 20; 30; 40; 50]
           Mock.recording 2 [] [10; 21; 32; 43; 54] [1; 0; 3; 2; 4]
           [Call 0 0; Call 0 1; Settled 0 1; Settled 0 0;
            Call 1 0; Call 1 1; Settled 1 1; Settled 1 0;
            Call 2 0; Settled 2 0]).
  - reflexivity.
  - lia.
Defined.

(** * The retry wrapper and the client: further properties *)

Section RetryRuns.
Context {W T : Type}.
Implicit Types (innerFn : Promise W T) (w : W).

(** A call of the wrapper is a number of invocations of [innerFn], one
    after the other, with a console line and a timer between two of them. *)
Lemma retry_run_shape innerFn previousRetries w :
  exists k,
    1 <= k <= S (MAX_RETRIES - previousRetries)
    /\ (retryAfterRateLimitApplied innerFn previousRetries w).1.2 = invoke_times innerFn k w
    /\ (retryAfterRateLimitApplied innerFn previousRetries w).1.1
       = (innerFn (invoke_times innerFn (k - 1) w)).1
    /\ length (retryAfterRateLimitApplied innerFn previousRetries w).2 = 2 * (k - 1).
Proof.
  remember (MAX_RETRIES - previousRetries) as left eqn:Hleft.
  revert previousRetries w Hleft.
  induction left as [|left IH]; intros previousRetries w Hleft;
    rewrite retryAfterRateLimitApplied_unfold;
    destruct (innerFn w) as [[value|error] w'] eqn:Hinner;
    try (exists 1; unfold invoke_times; simpl; rewrite Hinner; split_and!; [lia..|done|done|done]);
    case_decide as Hstop;
    try (exists 1; unfold invoke_times; simpl; rewrite Hinner; split_and!; [lia..|done|done|done]).
  - exfalso. apply Hstop. right. lia.
  - destruct (IH (previousRetries + 1) w' ltac:(lia)) as (k & Hk & Hw & Ho & Heff).
    destruct (retryAfterRateLimitApplied innerFn (previousRetries + 1) w')
      as [[o w''] effects].
    cbn [fst snd] in *. exists (S k). split; [lia|]. split_and!.
    + by rewrite Hw, invoke_times_S, Hinner.
    + rewrite Ho. destruct k as [|k]; [lia|].
      replace (S (S k) - 1) with (S k) by lia. replace (S k - 1) with k by lia.
      by rewrite invoke_times_S, Hinner.
    + simpl. rewrite Heff. lia.
Qed.
End RetryRuns.

(** X6.  Whatever the wrapped operation does, one call of the wrapper
    invokes it at least once and at most [MAX_RETRIES - previousRetries + 1]
    times, one invocation after the other; the wrapper ends with the outcome
    of the last invocation, and has printed one line and awaited one timer
    for each invocation but the last. *)
Theorem retry_wrapper_invocations {W T : Type}
    (innerFn : Promise W T) (previousRetries : nat) (w : W) :
  let run := retryAfterRateLimitApplied innerFn previousRetries w in
  exists k,
    1 <= k <= MAX_RETRIES - previousRetries + 1
    /\ run.1.2 = invoke_times innerFn k w
    /\ run.1.1 = (innerFn (invoke_times innerFn (k - 1) w)).1
    /\ length run.2 = 2 * (k - 1).
Proof.
  simpl. destruct (retry_run_shape innerFn previousRetries w) as (k & Hk & Hrest).
  exists k. split; [lia|done].
Qed.

Section ClientRuns.
Context {Server : Type} (up : Upstream Server).
Implicit Types (this : SpotifyClient) (w : World Server).

Lemma invoke_guarded_get {D : Type}
    (endpoint : AxiosInstance -> Request -> Promise Server (AxiosResponse D))
    this c req k w :
  client this = Some c ->
  sent (invoke_times (guarded_get endpoint this req) k w) = sent w ++ replicate k req
  /\ journal (invoke_times (guarded_get endpoint this req) k w) = journal w.
Proof.
  intros Hc. induction k as [|k [IHsent IHjournal]]; simpl.
  - by rewrite app_nil_r.
  - unfold invoke_times in *. simpl.
    rewrite (guarded_get_answer _ _ c) by done. simpl.
    rewrite IHsent, IHjournal, <- app_assoc. split; [|done]. f_equal.
    by rewrite <- replicate_cons_app.
Qed.

Lemma retried_get_requests {D : Type}
    (endpoint : AxiosInstance -> Request -> Promise Server (AxiosResponse D))
    this c req w :
  client this = Some c ->
  exists k,
    1 <= k <= 11
    /\ sent (retryAfterRateLimitApplied (guarded_get endpoint this req) 0 w).1.2
       = sent w ++ replicate k req
    /\ journal (retryAfterRateLimitApplied (guarded_get endpoint this req) 0 w).1.2
       = journal w
    /\ length (retryAfterRateLimitApplied (guarded_get endpoint this req) 0 w).2
       = 2 * (k - 1).
Proof.
  intros Hc.
  destruct (retry_run_shape (guarded_get endpoint this req) 0 w) as (k & Hk & -> & _ & Heff).
  destruct (invoke_guarded_get endpoint this c req k w Hc) as [Hsent Hjournal].
  exists k. unfold MAX_RETRIES in Hk. split_and!; [lia|lia|done..].
Qed.

Lemma retried_get_unauthenticated {D : Type}
    (endpoint : AxiosInstance -> Request -> Promise Server (AxiosResponse D))
    this req w :
  client this = None ->
  retryAfterRateLimitApplied (guarded_get endpoint this req) 0 w
  = (Rejected {| message := "Not authenticated"; response := None |}, w, []).
Proof.
  intros Hc. apply retry_propagates; [|by left].
  unfold guarded_get, assertClient. by rewrite Hc.
Qed.
End ClientRuns.

(** X7.  Through an authenticated client, [getArtists] sends its one
    request, the same each time, at least once and at most 11 times, and
    nothing else; each sending but the last is followed by one line and one
    timer of the retry wrapper. *)
Theorem getArtists_requests {Server : Type} (up : Upstream Server)
    (this : SpotifyClient) (c : AxiosInstance) (ids : list string) (w : World Server) :
  client this = Some c ->
  exists k,
    1 <= k <= 11
    /\ sent (getArtists up this ids w).2 = sent w ++ replicate k (artists_request ids)
    /\ length (journal (getArtists up this ids w).2) = length (journal w) + 2 * (k - 1).
Proof.
  intros Hc.
  destruct (retried_get_requests (artists_endpoint up) this c (artists_request ids) w Hc)
    as (k & Hk & Hsent & Hjournal & Heff).
  exists k. unfold getArtists.
  destruct (retryAfterRateLimitApplied _ 0 w) as [[[response|e] w'] effects];
    simpl in *; rewrite length_app, Hjournal, Heff; done.
Qed.

Lemma getArtists_requests_witness :
  exists k,
    1 <= k <= 11
    /\ sent (getArtists (Mock.upstream Mock.all_listed) Mock.authenticated ["A"; "B"]
               {| server := 0; sent := []; journal := [] |}).2
       = [] ++ replicate k (artists_request ["A"; "B"])
    /\ length (journal (getArtists (Mock.upstream Mock.all_listed) Mock.authenticated
                          ["A"; "B"] {| server := 0; sent := []; journal := [] |}).2)
       = length (@nil RetryEffect) + 2 * (k - 1).
Proof.
  apply (getArtists_requests (Mock.upstream Mock.all_listed) Mock.authenticated
           {| baseURL := "https://api.spotify.com/v1"; authorization := "Bearer token" |}
           ["A"; "B"] {| server := 0; sent := []; journal := [] |}).
  reflexivity.
Defined.

(** X8.  The same for [getLatestAlbum]: its one request, with [limit] 1,
    between once and 11 times. *)
Theorem getLatestAlbum_requests {Server : Type} (up : Upstream Server)
    (this : SpotifyClient) (c : AxiosInstance) (artistId : string) (w : World Server) :
  client this = Some c ->
  exists k,
    1 <= k <= 11
    /\ sent (getLatestAlbum up this artistId w).2
       = sent w ++ replicate k (albums_request artistId)
    /\ length (journal (getLatestAlbum up this artistId w).2)
       = length (journal w) + 2 * (k - 1).
Proof.
  intros Hc.
  destruct (retried_get_requests (albums_endpoint up) this c (albums_request artistId) w Hc)
    as (k & Hk & Hsent & Hjournal & Heff).
  exists k. unfold getLatestAlbum.
  destruct (retryAfterRateLimitApplied _ 0 w) as [[[response|e] w'] effects];
    simpl in *; rewrite length_app, Hjournal, Heff; done.
Qed.

Lemma getLatestAlbum_requests_witness :
  exists k,
    1 <= k <= 11
    /\ sent (getLatestAlbum (Mock.rate_limited_once Mock.all_listed) Mock.authenticated "A"
               {| server := 0; sent := []; journal := [] |}).2
       = [] ++ replicate k (albums_request "A")
    /\ length (journal (getLatestAlbum (Mock.rate_limited_once Mock.all_listed)
                          Mock.authenticated "A"
                          {| server := 0; sent := []; journal := [] |}).2)
       = length (@nil RetryEffect) + 2 * (k - 1).
Proof.
  apply (getLatestAlbum_requests (Mock.rate_limited_once Mock.all_listed) Mock.authenticated
           {| baseURL := "https://api.spotify.com/v1"; authorization := "Bearer token" |}
           "A" {| server := 0; sent := []; journal := [] |}).
  reflexivity.
Defined.

(** X9.  Through a client that has not authenticated, [getArtists] and
    [getLatestAlbum] are rejected with "Not authenticated": no request is
    sent, nothing is printed and no timer is set. *)
Theorem client_not_authenticated {Server : Type} (up : Upstream Server)
    (this : SpotifyClient) (ids : list string) (artistId : string) (w : World Server) :
  client this = None ->
  getArtists up this ids w
  = (Rejected {| message := "Not authenticated"; response := None |}, w)
  /\ getLatestAlbum up this artistId w
     = (Rejected {| message := "Not authenticated"; response := None |}, w).
Proof.
  intros Hc. unfold getArtists, getLatestAlbum.
  rewrite !retried_get_unauthenticated by done.
  unfold record_effects. destruct w as [srv requests lines]. simpl.
  by rewrite app_nil_r.
Qed.

Lemma client_not_authenticated_witness :
  getArtists (Mock.upstream Mock.all_listed) new_SpotifyClient ["A"]
    {| server := 0; sent := []; journal := [] |}
  = (Rejected {| message := "Not authenticated"; response := None |},
     {| server := 0; sent := []; journal := [] |})
  /\ getLatestAlbum (Mock.upstream Mock.all_listed) new_SpotifyClient "A"
       {| server := 0; sent := []; journal := [] |}
     = (Rejected {| message := "Not authenticated"; response := None |},
        {| server := 0; sent := []; journal := [] |}).
Proof.
  apply (client_not_authenticated (Mock.upstream Mock.all_listed) new_SpotifyClient
           ["A"] "A" {| server := 0; sent := []; journal := [] |}).
  reflexivity.
Defined.

(** X10.  The two revisions of [getArtists] agree wherever upstream does
    not answer 429: with the retry wrapper or without it, the same request
    is sent once and the same result or error comes back. *)
Theorem getArtists_agrees_with_earlier {Server : Type} (up : Upstream Server)
    (this : SpotifyClient) (ids : list string) (w : World Server) :
  (forall e, (guarded_get (artists_endpoint up) this (artists_request ids) w).1 = Rejected e ->
             response_status e <> Some 429%Z) ->
  getArtists up this ids w = Plain.getArtists up this ids w.
Proof.
  intros Hother. unfold getArtists, Plain.getArtists.
  destruct (guarded_get _ this _ w) as [[response|e] w'] eqn:Hget.
  - rewrite (retry_fulfilled _ _ _ response w') by done.
    unfold record_effects. destruct w'. simpl. by rewrite app_nil_r.
  - rewrite (retry_propagates _ _ _ e w') by (try done; left; by apply Hother).
    unfold record_effects. destruct w'. simpl. by rewrite app_nil_r.
Qed.

Lemma getArtists_agrees_with_earlier_witness :
  getArtists (Mock.upstream Mock.all_listed) Mock.authenticated ["A"; "C"]
    {| server := 0; sent := []; journal := [] |}
  = Plain.getArtists (Mock.upstream Mock.all_listed) Mock.authenticated ["A"; "C"]
      {| server := 0; sent := []; journal := [] |}.
Proof.
  apply (getArtists_agrees_with_earlier (Mock.upstream Mock.all_listed) Mock.authenticated
           ["A"; "C"] {| server := 0; sent := []; journal := [] |}).
  intros e He. vm_compute in He. discriminate He.
Defined.

(** Where upstream does answer 429, they differ: the earlier revision
    gives up at once. *)
Example earlier_getArtists_does_not_retry :
  (Plain.getArtists
     {| token_endpoint := token_endpoint (Mock.upstream Mock.all_listed);
        artists_endpoint := fun _ _ n => (Rejected (Mock.too_many_requests (Some "1")), n + 1);
        albums_endpoint := albums_endpoint (Mock.upstream Mock.all_listed) |}
     Mock.authenticated ["A"] {| server := 0; sent := []; journal := [] |})
  = (Rejected (Mock.too_many_requests (Some "1")),
     {| server := 1; sent := [artists_request ["A"]]; journal := [] |}).
Proof. reflexivity. Qed.

(** * The orchestrator: further properties *)

(** ** Dictionaries *)

Section JsObjectFacts.
Context {V : Type} `{!JsObject.Stored V}.
Implicit Types (d : JsObject.Dict V) (key x : string) (value : V).

Lemma dict_lookup_own d x : d !! x = JsObject.own d !! x.
Proof. done. Qed.

(** A write leaves the own properties of other names alone. *)
Lemma lookup_assign_ne key value d x :
  key <> x -> JsObject.assign key value d !! x = d !! x.
Proof.
  intros Hne. unfold JsObject.assign. case_decide; [by destruct (JsObject.is_object _)|].
  rewrite !dict_lookup_own. simpl. by apply lookup_insert_ne.
Qed.

(** A write to a name other than ["__proto__"] makes an own property and
    leaves the prototype alone. *)
Lemma assign_plain key value d :
  key <> "__proto__" ->
  JsObject.assign key value d
  = {| JsObject.own := <[key := value]> (JsObject.own d);
       JsObject.prototype := JsObject.prototype d |}.
Proof. intros Hne. unfold JsObject.assign. rewrite decide_False; [done|]. by intros [? _]. Qed.

Lemma lookup_assign_plain key value d :
  key <> "__proto__" -> JsObject.assign key value d !! key = Some value.
Proof.
  intros Hne. rewrite assign_plain by done.
  rewrite dict_lookup_own. simpl. apply lookup_insert_eq.
Qed.

(** A write never removes an own property. *)
Lemma lookup_assign_is_Some key value d x :
  is_Some (d !! x) -> is_Some (JsObject.assign key value d !! x).
Proof.
  intros Hx. unfold JsObject.assign. case_decide; [by destruct (JsObject.is_object _)|].
  rewrite dict_lookup_own in *. simpl. rewrite lookup_insert_is_Some.
  destruct (decide (key = x)); auto.
Qed.

(** An own property found after a write was there before, or is the one
    written; a write to ["__proto__"] adds none unless the name is already
    an own property of the dictionary or of the object that replaced its
    prototype. *)
Lemma lookup_assign_inv key value d x :
  is_Some (JsObject.assign key value d !! x) ->
  is_Some (d !! x)
  \/ (x = key /\ (key <> "__proto__" \/ JsObject.holder_has key d)).
Proof.
  unfold JsObject.assign. case_decide as Hproto; [by destruct (JsObject.is_object _); auto|].
  rewrite !dict_lookup_own. simpl. rewrite lookup_insert_is_Some.
  intros [<-|[_ ?]]; [|by left].
  destruct (decide (key = "__proto__")) as [Hkey|Hkey]; [|by right; split; [|left]].
  destruct (JsObject.own d !! key) as [v|] eqn:Hown; [left; by eexists|].
  right. split; [done|]. right.
  destruct (decide (JsObject.holder_has key d)); [done|]. by destruct Hproto.
Qed.

Lemma read_own key value d : d !! key = Some value -> JsObject.read key d = JsObject.Own value.
Proof. rewrite dict_lookup_own. unfold JsObject.read. by intros ->. Qed.

(** An own property found after a write is the one written, or was there
    before with the same value. *)
Lemma lookup_assign_Some key value d x v :
  JsObject.assign key value d !! x = Some v ->
  d !! x = Some v \/ (x = key /\ v = value).
Proof.
  unfold JsObject.assign. case_decide; [destruct (JsObject.is_object _); auto|].
  rewrite !dict_lookup_own. simpl. rewrite lookup_insert_Some.
  intros [[<- <-]|[_ ?]]; auto.
Qed.

(** A write that reaches the accessor. *)
Lemma assign_proto value d :
  d !! "__proto__" = None -> ~ JsObject.holder_has "__proto__" d ->
  JsObject.assign "__proto__" value d
  = if JsObject.is_object value
    then {| JsObject.own := JsObject.own d; JsObject.prototype := Some value |}
    else d.
Proof. intros Hown Hholder. unfold JsObject.assign. by rewrite decide_True. Qed.
End JsObjectFacts.

(** Neither kind of object has an own property ["__proto__"]. *)
Lemma proto_not_artist_property : "__proto__" ∉ artist_property_names.
Proof. apply (bool_decide_unpack _). by vm_compute. Qed.

Lemma artists_holder_has_not key (d : JsObject.Dict ArtistObject) :
  key ∉ artist_property_names -> ~ JsObject.holder_has key d.
Proof.
  intros Hkey. unfold JsObject.holder_has. destruct (JsObject.prototype d); simpl; tauto.
Qed.

Lemma albums_holder_has_proto_not (d : JsObject.Dict (option SimplifiedAlbumObject)) :
  ~ JsObject.holder_has "__proto__" d.
Proof.
  unfold JsObject.holder_has. destruct (JsObject.prototype d) as [[album|]|]; simpl.
  - apply (bool_decide_unpack _). by vm_compute.
  - apply not_elem_of_nil.
  - tauto.
Qed.

(** In the dictionary of artists, an ordinary identifier finds the own
    property of that name, or nothing. *)
Lemma artist_columns_ordinary key (d : JsObject.Dict ArtistObject) :
  ordinary_key key -> artist_columns (JsObject.read key d) = Fulfilled (d !! key).
Proof.
  intros (Hproto & Hfun & Hfield). rewrite dict_lookup_own. unfold JsObject.read.
  destruct (JsObject.own d !! key) as [artist|]; [done|].
  destruct (JsObject.prototype d) as [holder|]; simpl;
    rewrite !decide_False by done; done.
Qed.

Lemma album_columns_own key (d : JsObject.Dict (option SimplifiedAlbumObject)) value :
  d !! key = Some value ->
  album_columns (JsObject.read key d) = (album_name <$> value, release_date <$> value).
Proof. intros Hkey. rewrite (read_own key value) by done. by destruct value. Qed.

Section DictionaryFacts.
Context {Server : Type} (up : Upstream Server).
Implicit Types (st : Store Server).

Lemma fetch_artists_chunk_albums this idsChunk index st :
  artistIdToLatestAlbumDict (fetch_artists_chunk up this idsChunk index st).2
  = artistIdToLatestAlbumDict st.
Proof. unfold fetch_artists_chunk. by destruct (getArtists _ _ _ _) as [[?|?] ?]. Qed.

Lemma fetch_latest_album_artists this spotifyId i st :
  spotifyIdToArtistObjectDict (fetch_latest_album up this spotifyId i st).2
  = spotifyIdToArtistObjectDict st.
Proof. unfold fetch_latest_album. by destruct (getLatestAlbum _ _ _ _) as [[?|?] ?]. Qed.

Lemma fetch_latest_album_keys this spotifyId i st x :
  is_Some (artistIdToLatestAlbumDict (fetch_latest_album up this spotifyId i st).2 !! x) ->
  (x = spotifyId /\ x <> "__proto__") \/ is_Some (artistIdToLatestAlbumDict st !! x).
Proof.
  unfold fetch_latest_album. destruct (getLatestAlbum _ _ _ _) as [[album|e] w]; simpl; [|auto].
  intros [Hold|[-> [Hne|Hholder]]]%lookup_assign_inv; [auto..|].
  destruct (decide (spotifyId = "__proto__")) as [->|Hne]; [|auto].
  by apply albums_holder_has_proto_not in Hholder.
Qed.

Lemma fetch_latest_album_keeps_keys this spotifyId i st x :
  is_Some (artistIdToLatestAlbumDict st !! x) ->
  is_Some (artistIdToLatestAlbumDict (fetch_latest_album up this spotifyId i st).2 !! x).
Proof.
  unfold fetch_latest_album. destruct (getLatestAlbum _ _ _ _) as [[album|e] w]; simpl; [|auto].
  apply lookup_assign_is_Some.
Qed.

Lemma fetch_latest_album_fulfilled this spotifyId i st r st1 :
  spotifyId <> "__proto__" ->
  fetch_latest_album up this spotifyId i st = (Fulfilled r, st1) ->
  is_Some (artistIdToLatestAlbumDict st1 !! spotifyId).
Proof.
  intros Hne. unfold fetch_latest_album.
  destruct (getLatestAlbum _ _ _ _) as [[album|e] w]; [|done].
  intros [= _ <-]. simpl. by rewrite lookup_assign_plain.
Qed.

Lemma artists_stage_albums sched concurrentRequests this spotifyIds st :
  artistIdToLatestAlbumDict
    (artists_stage up sched concurrentRequests this spotifyIds st).1.2
  = artistIdToLatestAlbumDict st.
Proof.
  apply (chunkRequests_keeps
           (fun st' => artistIdToLatestAlbumDict st' = artistIdToLatestAlbumDict st));
    [|done].
  intros j v s _ <-. apply fetch_artists_chunk_albums.
Qed.

Lemma albums_stage_artists sched concurrentRequests this spotifyIds st :
  spotifyIdToArtistObjectDict
    (albums_stage up sched concurrentRequests this spotifyIds st).1.2
  = spotifyIdToArtistObjectDict st.
Proof.
  apply (chunkRequests_keeps
           (fun st' => spotifyIdToArtistObjectDict st' = spotifyIdToArtistObjectDict st));
    [|done].
  intros j v s _ <-. apply fetch_latest_album_artists.
Qed.

(** [artistsChunk.forEach(...)], one artist at a time. *)
Lemma store_artists_snoc artistsChunk artist st :
  spotifyIdToArtistObjectDict (store_artists (artistsChunk ++ [artist]) st)
  = JsObject.assign (artist_id artist) artist
      (spotifyIdToArtistObjectDict (store_artists artistsChunk st)).
Proof. unfold store_artists. simpl. by rewrite foldl_app. Qed.

Lemma store_artists_own artistsChunk st :
  spotifyIdToArtistObjectDict st !! "__proto__" = None ->
  (forall x, x <> "__proto__" ->
     spotifyIdToArtistObjectDict (store_artists artistsChunk st) !! x
     = match last (filter (fun a => artist_id a = x) artistsChunk) with
       | Some a => Some a
       | None => spotifyIdToArtistObjectDict st !! x
       end)
  /\ spotifyIdToArtistObjectDict (store_artists artistsChunk st) !! "__proto__" = None
  /\ JsObject.prototype (spotifyIdToArtistObjectDict (store_artists artistsChunk st))
     = match last (filter (fun a => artist_id a = "__proto__") artistsChunk) with
       | Some a => Some a
       | None => JsObject.prototype (spotifyIdToArtistObjectDict st)
       end.
Proof.
  intros Hproto.
  induction artistsChunk as [|a artistsChunk (IHown & IHproto & IHprototype)] using rev_ind;
    [done|].
  rewrite store_artists_snoc.
  set (d := spotifyIdToArtistObjectDict (store_artists artistsChunk st)) in *.
  destruct (decide (artist_id a = "__proto__")) as [Ha|Ha].
  - rewrite Ha, assign_proto;
      [|done|apply artists_holder_has_not, proto_not_artist_property].
    simpl. split_and!.
    + intros x Hx. rewrite filter_app, filter_cons_False, filter_nil, app_nil_r by congruence.
      by apply IHown.
    + done.
    + by rewrite filter_app, filter_cons_True, filter_nil, last_snoc by done.
  - rewrite assign_plain by done. unfold lookup, dict_lookup in *. simpl. split_and!.
    + intros x Hx. rewrite filter_app. destruct (decide (artist_id a = x)) as [<-|Hne].
      * rewrite filter_cons_True, filter_nil, last_snoc by done. apply lookup_insert_eq.
      * rewrite filter_cons_False, filter_nil, app_nil_r by done.
        rewrite lookup_insert_ne by done. by apply IHown.
    + by rewrite lookup_insert_ne.
    + by rewrite filter_app, filter_cons_False, filter_nil, app_nil_r.
Qed.
End DictionaryFacts.

(** X11.  In every run, fulfilled or rejected, the artist stage leaves
    the dictionary of latest albums as it found it, and the album stage
    leaves the dictionary of artists as it found it: the two stages that
    [main] runs side by side write to different dictionaries. *)
Theorem stages_write_different_dictionaries {Server : Type} (up : Upstream Server)
    (sched : nat -> list nat -> nat) (concurrentRequests : nat)
    (spotifyClient : SpotifyClient) (spotifyIds : list string) (st : Store Server) :
  artistIdToLatestAlbumDict
    (artists_stage up sched concurrentRequests spotifyClient spotifyIds st).1.2
  = artistIdToLatestAlbumDict st
  /\ spotifyIdToArtistObjectDict
       (albums_stage up sched concurrentRequests spotifyClient spotifyIds st).1.2
     = spotifyIdToArtistObjectDict st.
Proof.
  split.
  - apply (chunkRequests_keeps
             (fun st' => artistIdToLatestAlbumDict st' = artistIdToLatestAlbumDict st));
      [|done].
    intros j v s _ <-. apply fetch_artists_chunk_albums.
  - apply (chunkRequests_keeps
             (fun st' => spotifyIdToArtistObjectDict st' = spotifyIdToArtistObjectDict st));
      [|done].
    intros j v s _ <-. apply fetch_latest_album_artists.
Qed.

(** X12.  When the album stage is fulfilled (ceiling at least one), the
    dictionary of latest albums has an own property, possibly [undefined],
    for every identifier of the list other than ["__proto__"], and no own
    property besides these that it did not have before.  (A write to
    ["__proto__"] sets the prototype of the dictionary, or does nothing.) *)
Theorem albums_stage_records_every_identifier {Server : Type} (up : Upstream Server)
    (sched : nat -> list nat -> nat) (concurrentRequests : nat)
    (spotifyClient : SpotifyClient) (spotifyIds : list string) (st : Store Server)
    (output : list ()) (st' : Store Server) (trace : list event) :
  1 <= concurrentRequests ->
  albums_stage up sched concurrentRequests spotifyClient spotifyIds st
  = (Fulfilled output, st', trace) ->
  forall x,
    is_Some (artistIdToLatestAlbumDict st' !! x)
    <-> (x ∈ spotifyIds /\ x <> "__proto__") \/ is_Some (artistIdToLatestAlbumDict st !! x).
Proof.
  intros Hsize Hrun x. unfold albums_stage in Hrun. split.
  - pose proof (chunkRequests_keeps
                  (fun s => is_Some (artistIdToLatestAlbumDict s !! x) ->
                            (x ∈ spotifyIds /\ x <> "__proto__")
                            \/ is_Some (artistIdToLatestAlbumDict st !! x))
                  sched spotifyIds (fetch_latest_album up spotifyClient)
                  concurrentRequests st) as Hkeeps.
    rewrite Hrun in Hkeeps. apply Hkeeps; [|auto].
    intros j v s Hv Hs [[-> Hne]|Hold]%fetch_latest_album_keys; [|auto].
    left. split; [|done]. by eapply list_elem_of_lookup_2.
  - intros [[[j Hj]%list_elem_of_lookup Hne]|Hold].
    + eapply (chunkRequests_reaches (fun s => is_Some (artistIdToLatestAlbumDict s !! x)));
        [exact Hsize|exact Hrun|exact Hj| |].
      * intros s r s1. by apply fetch_latest_album_fulfilled.
      * intros j' v' s _. apply fetch_latest_album_keeps_keys.
    + pose proof (chunkRequests_keeps
                    (fun s => is_Some (artistIdToLatestAlbumDict s !! x))
                    sched spotifyIds (fetch_latest_album up spotifyClient)
                    concurrentRequests st) as Hkeeps.
      rewrite Hrun in Hkeeps. apply Hkeeps; [|done].
      intros j v s _. apply fetch_latest_album_keeps_keys.
Qed.

Lemma albums_stage_records_every_identifier_witness :
  is_Some
    (artistIdToLatestAlbumDict
       (albums_stage (Mock.upstream Mock.all_listed) (fun _ => lifo) 2 Mock.authenticated
          ["A"; "__proto__"; "C"]
          {| world := {| server := 0; sent := []; journal := [] |};
             spotifyIdToArtistObjectDict := ∅; artistIdToLatestAlbumDict := ∅ |}).1.2
     !! "C").
Proof.
  destruct (albums_stage (Mock.upstream Mock.all_listed) (fun _ => lifo) 2 Mock.authenticated
              ["A"; "__proto__"; "C"]
              {| world := {| server := 0; sent := []; journal := [] |};
                 spotifyIdToArtistObjectDict := ∅; artistIdToLatestAlbumDict := ∅ |})
    as [[o st'] trace] eqn:Hrun.
  assert (exists output, o = Fulfilled output) as [output ->].
  { apply (f_equal (fun r => r.1.1)) in Hrun. vm_compute in Hrun. subst o. by eexists. }
  apply (proj2 (albums_stage_records_every_identifier
                  (Mock.upstream Mock.all_listed) (fun _ => lifo) 2 Mock.authenticated
                  ["A"; "__proto__"; "C"] _ output st' trace ltac:(lia) Hrun "C")).
  left. split; [|done]. do 2 apply list_elem_of_further. apply list_elem_of_here.
Defined.

(** The same run: no own property is made for ["__proto__"]. *)
Example albums_stage_on_proto :
  artistIdToLatestAlbumDict
    (albums_stage (Mock.upstream Mock.all_listed) (fun _ => lifo) 2 Mock.authenticated
       ["A"; "__proto__"; "C"]
       {| world := {| server := 0; sent := []; journal := [] |};
          spotifyIdToArtistObjectDict := ∅; artistIdToLatestAlbumDict := ∅ |}).1.2
  !! "__proto__" = None.
Proof. vm_compute. reflexivity. Qed.

(** X13.  Storing a chunk of artists in a dictionary that has no own
    property ["__proto__"].  Afterwards an identifier other than
    ["__proto__"] maps to the last artist of the chunk that bears it, and to
    what it mapped to before when no artist of the chunk bears it.  An
    artist whose identifier is ["__proto__"] makes no own property: the last
    such artist becomes the prototype of the dictionary. *)
Theorem store_artists_lookup {Server : Type} (artistsChunk : list ArtistObject)
    (st : Store Server) :
  let before := spotifyIdToArtistObjectDict st in
  let after := spotifyIdToArtistObjectDict (store_artists artistsChunk st) in
  let last_with := fun x => last (filter (fun a => artist_id a = x) artistsChunk) in
  before !! "__proto__" = None ->
  (forall x, x <> "__proto__" ->
     after !! x = match last_with x with
                  | Some a => Some a
                  | None => before !! x
                  end)
  /\ after !! "__proto__" = None
  /\ JsObject.prototype after
     = match last_with "__proto__" with
       | Some a => Some a
       | None => JsObject.prototype before
       end.
Proof. simpl. by apply store_artists_own. Qed.

Lemma store_artists_lookup_witness :
  let st : Store nat :=
    {| world := {| server := 0; sent := []; journal := [] |};
       spotifyIdToArtistObjectDict := ∅; artistIdToLatestAlbumDict := ∅ |} in
  let artistsChunk :=
    [Mock.artist "A" "Alpha"; Mock.artist "__proto__" "Proto"; Mock.artist "A" "Again"] in
  let after := spotifyIdToArtistObjectDict (store_artists artistsChunk st) in
  after !! "A" = Some (Mock.artist "A" "Again")
  /\ after !! "__proto__" = None
  /\ JsObject.prototype after = Some (Mock.artist "__proto__" "Proto").
Proof.
  destruct (store_artists_lookup
              [Mock.artist "A" "Alpha"; Mock.artist "__proto__" "Proto";
               Mock.artist "A" "Again"]
              {| world := {| server := 0; sent := []; journal := [] |};
                 spotifyIdToArtistObjectDict := ∅; artistIdToLatestAlbumDict := ∅ |}
              ltac:(by vm_compute)) as (Hown & Hproto & Hprototype).
  split_and!; [|exact Hproto|exact Hprototype].
  apply (Hown "A"). discriminate.
Defined.

(** ** [prepareOutputData] *)

Section PrepareFacts.
Implicit Types (spotifyIdToArtistObject : JsObject.Dict ArtistObject)
  (artistIdToLatestAlbumDict : JsObject.Dict (option SimplifiedAlbumObject)).

Lemma prepare_record_cells spotifyIdToArtistObject artistIdToLatestAlbumDict r row :
  prepare_record spotifyIdToArtistObject artistIdToLatestAlbumDict r = Fulfilled row ->
  exists spotifyArtist,
    from_option (fun key => artist_columns (JsObject.read key spotifyIdToArtistObject))
      (Fulfilled None) (truthy_spotify_id r) = Fulfilled spotifyArtist
    /\ (forall column, column ∉ computed_columns ->
          row !! column = Text <$> originalInput r !! column)
    /\ row !! "spotifyId" = Some (text_cell (truthy_spotify_id r))
    /\ row !! "artistName" = Some (text_cell (artist_name <$> spotifyArtist))
    /\ row !! "popularity" = Some (number_cell (artist_popularity <$> spotifyArtist))
    /\ row !! "followers" = Some (number_cell (followers_total <$> spotifyArtist))
    /\ row !! "latestAlbumName"
       = Some (text_cell
                 (from_option
                    (fun key => album_columns (JsObject.read key artistIdToLatestAlbumDict))
                    (None, None) (truthy_spotify_id r)).1)
    /\ row !! "latestAlbumReleaseDate"
       = Some (text_cell
                 (from_option
                    (fun key => album_columns (JsObject.read key artistIdToLatestAlbumDict))
                    (None, None) (truthy_spotify_id r)).2).
Proof.
  unfold prepare_record.
  destruct (truthy_spotify_id r) as [key|]; simpl.
  - destruct (artist_columns _) as [spotifyArtist|e]; [|done].
    intros [= <-]. exists spotifyArtist. split; [done|]. split.
    + intros column Hcolumn. unfold computed_columns in Hcolumn.
      repeat (apply not_elem_of_cons in Hcolumn as [? Hcolumn]).
      rewrite !lookup_insert_ne by done. apply lookup_fmap.
    + split_and!; by rewrite ?lookup_insert_ne by done; rewrite lookup_insert_eq.
  - intros [= <-]. exists None. split; [done|]. split.
    + intros column Hcolumn. unfold computed_columns in Hcolumn.
      repeat (apply not_elem_of_cons in Hcolumn as [? Hcolumn]).
      rewrite !lookup_insert_ne by done. apply lookup_fmap.
    + split_and!; by rewrite ?lookup_insert_ne by done; rewrite lookup_insert_eq.
Qed.

Lemma prepare_record_throws spotifyIdToArtistObject artistIdToLatestAlbumDict r e :
  prepare_record spotifyIdToArtistObject artistIdToLatestAlbumDict r = Rejected e ->
  e = cannot_read_total
  /\ exists key,
       truthy_spotify_id r = Some key
       /\ artist_columns (JsObject.read key spotifyIdToArtistObject)
          = Rejected cannot_read_total.
Proof.
  unfold prepare_record. destruct (truthy_spotify_id r) as [key|]; simpl; [|done].
  destruct (artist_columns _) as [spotifyArtist|e'] eqn:Hread; [done|].
  intros [= ->].
  assert (e = cannot_read_total) as ->.
  { unfold artist_columns in Hread.
    destruct (JsObject.read key spotifyIdToArtistObject) as [?|[?|]|?|?|];
      by simplify_eq. }
  split; [done|]. by exists key.
Qed.

Lemma prepareOutputData_Fulfilled inputRecords spotifyIdToArtistObject
    artistIdToLatestAlbumDict rows :
  prepareOutputData inputRecords spotifyIdToArtistObject artistIdToLatestAlbumDict
  = Fulfilled rows ->
  Forall2 (fun r row =>
             prepare_record spotifyIdToArtistObject artistIdToLatestAlbumDict r
             = Fulfilled row) inputRecords rows.
Proof.
  revert rows. induction inputRecords as [|r inputRecords IH]; intros rows; simpl.
  - intros [= <-]. constructor.
  - destruct (prepare_record _ _ r) as [row|e] eqn:Hrow; [|done].
    destruct (prepareOutputData inputRecords _ _) as [rows'|e]; [|done].
    intros [= <-]. constructor; [done|]. by apply IH.
Qed.

Lemma prepareOutputData_Rejected inputRecords spotifyIdToArtistObject
    artistIdToLatestAlbumDict e :
  prepareOutputData inputRecords spotifyIdToArtistObject artistIdToLatestAlbumDict
  = Rejected e ->
  exists r, r ∈ inputRecords
            /\ prepare_record spotifyIdToArtistObject artistIdToLatestAlbumDict r
               = Rejected e.
Proof.
  induction inputRecords as [|r inputRecords IH]; simpl; [done|].
  destruct (prepare_record _ _ r) as [row|e'] eqn:Hrow.
  - destruct (prepareOutputData inputRecords _ _) as [rows'|e']; [done|].
    intros [= ->]. destruct (IH eq_refl) as (r' & Hin & Hr').
    exists r'. split; [by apply list_elem_of_further|done].
  - intros [= ->]. exists r. split; [apply list_elem_of_here|done].
Qed.

(** No record throws when every identifier is ordinary. *)
Lemma prepareOutputData_ordinary inputRecords spotifyIdToArtistObject
    artistIdToLatestAlbumDict :
  Forall ordinary_key (extract_spotifyIds inputRecords) ->
  exists rows,
    prepareOutputData inputRecords spotifyIdToArtistObject artistIdToLatestAlbumDict
    = Fulfilled rows.
Proof.
  intros Hordinary.
  destruct (prepareOutputData inputRecords _ _) as [rows|e] eqn:Hrows; [by eexists|].
  apply prepareOutputData_Rejected in Hrows as (r & Hin & Hr).
  apply prepare_record_throws in Hr as (_ & key & Hkey & Hthrow).
  rewrite Forall_forall in Hordinary.
  rewrite artist_columns_ordinary in Hthrow; [done|].
  apply Hordinary. unfold extract_spotifyIds. apply list_elem_of_omap. by exists r.
Qed.
End PrepareFacts.



(** Reads that go up the prototype chain.  The identifier "valueOf" with
    an artist stored under it finds, in the empty dictionary of albums, the
    function inherited from [Object.prototype], whose name becomes the album
    name.  With no artist under it, the read of the artist dictionary finds
    the function as well, and reading [followers.total] of it throws. *)
Example prepareOutputData_inherited_function :
  match
    prepareOutputData [Mock.input_record "valueOf"]
      {| JsObject.own := {["valueOf" := Mock.artist "valueOf" "V"]};
         JsObject.prototype := None |} ∅
  with
  | Fulfilled rows =>
      List.map (Mock.cells ["artistName"; "latestAlbumName"; "latestAlbumReleaseDate"]) rows
  | Rejected _ => []
  end
  = [[Some (Text "V"); Some (Text "valueOf"); Some Undefined]]
  /\ prepareOutputData [Mock.input_record "valueOf"] ∅ ∅ = Rejected cannot_read_total.
Proof. vm_compute. by split. Qed.

(** X15.  The identifiers that [main] resolves are exactly the non-empty
    strings found under [shop_artist_ids.spotify.id] in some input record:
    records with [shop_artist_ids] null, without a [spotify] entry, or with
    a null or empty [id] contribute nothing. *)
Theorem resolve_spotifyIds_members (inputRecords : list InputRecord) (x : string) :
  x ∈ resolve_spotifyIds inputRecords
  <-> x <> ""
      /\ exists columns,
           {| originalInput := columns;
              shop_artist_ids := Some {| spotify := Some {| ref_id := Some x |} |} |}
           ∈ inputRecords.
Proof.
  unfold resolve_spotifyIds, extract_spotifyIds.
  rewrite elem_of_uniq, list_elem_of_omap. split.
  - intros (r & Hr & Hx). unfold truthy_spotify_id in Hx.
    destruct r as [columns [[[[[s|]]|]]|]]; simpl in Hx; try done.
    case_decide; [done|]. injection Hx as ->. split; [done|]. by exists columns.
  - intros (Hne & columns & Hin). eexists. split; [exact Hin|].
    unfold truthy_spotify_id. simpl. by rewrite decide_False.
Qed.

Lemma resolve_spotifyIds_members_witness :
  "A" ∈ resolve_spotifyIds [Mock.input_record ""; Mock.input_record "A"].
Proof.
  apply (proj2 (resolve_spotifyIds_members [Mock.input_record ""; Mock.input_record "A"] "A")).
  split; [discriminate|].
  exists {["artist" := "A"]}. apply list_elem_of_further, list_elem_of_here.
Defined.

(** X16.  When the token endpoint refuses the credentials, [main] ends
    rejected with that error before anything is fetched: no request has
    been sent and no output is written at all.  The same holds for the
    earlier revision of [main]. *)
Theorem main_authentication_failure {Server : Type} (up : Upstream Server) (sch : Schedule)
    (clientId clientSecret : string) (inputRecords : list InputRecord)
    (srv : Server) (e : JsError) (srv' : Server) :
  token_endpoint up clientId clientSecret srv = (Rejected e, srv') ->
  let run := main up sch clientId clientSecret inputRecords srv in
  let earlier := Csv.main up sch clientId clientSecret inputRecords srv in
  (exit run = Rejected e /\ written run = None /\ sent (world (final run)) = [])
  /\ (exit earlier = Rejected e /\ written earlier = None
      /\ sent (world (final earlier)) = []).
Proof.
  intros Htoken. simpl. unfold main, Csv.main, authenticate. cbn [server].
  by rewrite Htoken.
Qed.

Lemma main_authentication_failure_witness :
  let run :=
    main (Mock.refusing Mock.all_listed) Mock.in_order "id" "wrong"
      [Mock.input_record "A"] 0 in
  let earlier :=
    Csv.main (Mock.refusing Mock.all_listed) Mock.in_order "id" "wrong"
      [Mock.input_record "A"] 0 in
  (exit run = Rejected Mock.unauthorized /\ written run = None
   /\ sent (world (final run)) = [])
  /\ (exit earlier = Rejected Mock.unauthorized /\ written earlier = None
      /\ sent (world (final earlier)) = []).
Proof.
  apply (main_authentication_failure (Mock.refusing Mock.all_listed) Mock.in_order
           "id" "wrong" [Mock.input_record "A"] 0 Mock.unauthorized 1).
  reflexivity.
Defined.

(** * Complete runs against an upstream that answers *)

Section RunLogs.
Context {St InputElement Result X : Type}.

(** A log to which every operation appends one entry holds, after a run,
    the entries of the operations that ran, in the order they settled. *)
Lemma ran_logged (m : St -> list X) (x : nat -> option X)
    (has : nat -> Promise St Result -> Prop) js s s' err :
  (forall j p s, has j p -> exists y, x j = Some y /\ m (p s).2 = m s ++ [y]) ->
  ran has js s s' err -> m s' = m s ++ omap x js.
Proof.
  intros Hop. induction 1 as [s|j p r s s1 js s' err Hhas Hp _ IH|j p e s s1 Hhas Hp].
  - by rewrite app_nil_r.
  - destruct (Hop j p s Hhas) as (y & Hx & Hm). rewrite Hp in Hm. simpl in Hm.
    simpl. rewrite Hx, IH, Hm, <- app_assoc. done.
  - destruct (Hop j p s Hhas) as (y & Hx & Hm). rewrite Hp in Hm. simpl in Hm.
    simpl. by rewrite Hx.
Qed.

Lemma omap_lookup_seq (f : InputElement -> X) (l0 l : list InputElement) :
  omap (fun j => f <$> (l0 ++ l) !! j) (seq (length l0) (length l)) = f <$> l.
Proof.
  revert l0. induction l as [|a l IH]; intros l0; [done|].
  simpl. rewrite list_lookup_middle by done. simpl. f_equal.
  specialize (IH (l0 ++ [a])). rewrite <- app_assoc, length_app in IH. simpl in IH.
  by rewrite Nat.add_1_r in IH.
Qed.

(** When no operation rejects and each one appends its request to the log,
    the batch executor is fulfilled and the log has grown by one request per
    element, in some order. *)
Lemma chunkRequests_answered_log (m : St -> list X) (request : InputElement -> X) sched
    (inputArray : list InputElement)
    (requestFn : InputElement -> nat -> Promise St Result) (concurrentRequests : nat) (s : St) :
  1 <= concurrentRequests ->
  (forall j v s, inputArray !! j = Some v ->
     (exists r, (requestFn v j s).1 = Fulfilled r)
     /\ m (requestFn v j s).2 = m s ++ [request v]) ->
  exists output,
    (chunkRequests sched inputArray requestFn concurrentRequests s).1.1 = Fulfilled output
    /\ m (chunkRequests sched inputArray requestFn concurrentRequests s).1.2
       ≡ₚ m s ++ (request <$> inputArray).
Proof.
  intros Hsize Hop.
  destruct (chunkRequests sched inputArray requestFn concurrentRequests s)
    as [[o s'] trace] eqn:Hrun.
  destruct (chunkRequests_run _ _ _ _ _ _ _ _ Hrun) as [Hran Hperm].
  assert (rejection o = None) as Hnone.
  { eapply ran_never_rejects; [|exact Hran].
    intros j p s0 (v & Hv & ->). by apply Hop. }
  destruct o as [output|e]; [|done]. exists output. split; [done|]. simpl.
  assert (m s' = m s ++ omap (fun j => request <$> inputArray !! j)
                         (settled_indices concurrentRequests trace)) as ->.
  { eapply ran_logged; [|exact Hran].
    intros j p s0 (v & Hv & ->). exists (request v). rewrite Hv. split; [done|].
    by apply Hop. }
  rewrite (Hperm Hsize Hnone).
  pose proof (omap_lookup_seq request [] inputArray) as Hseq. simpl in Hseq.
  by rewrite Hseq.
Qed.
End RunLogs.

Section Listed.
Context {Server : Type} (up : Upstream Server).
Context (catalogue : Request -> list ArtistObject).
Context (listing : Request -> list SimplifiedAlbumObject).
Implicit Types (st : Store Server) (this : SpotifyClient).

Lemma getArtists_listed this c ids w :
  artists_answered_by up catalogue -> client this = Some c ->
  exists w',
    getArtists up this ids w = (Fulfilled (catalogue (artists_request ids)), w')
    /\ sent w' = sent w ++ [artists_request ids].
Proof.
  intros Hup Hc. destruct (Hup c (artists_request ids) (server w)) as [srv' Hanswer].
  rewrite (getArtists_answered up this c ids w _ srv' Hc Hanswer). by eexists.
Qed.

Lemma getLatestAlbum_listed this c artistId w :
  albums_answered_by up listing -> client this = Some c ->
  exists w',
    getLatestAlbum up this artistId w
    = (Fulfilled (head (listing (albums_request artistId))), w')
    /\ sent w' = sent w ++ [albums_request artistId].
Proof.
  intros Hup Hc. destruct (Hup c (albums_request artistId) (server w)) as [srv' Hanswer].
  rewrite (getLatestAlbum_answered up this c artistId w _ srv' Hc Hanswer).
  simpl. rewrite <- head_lookup. by eexists.
Qed.

Lemma fetch_artists_chunk_listed this c idsChunk index st :
  artists_answered_by up catalogue -> client this = Some c ->
  exists w',
    fetch_artists_chunk up this idsChunk index st
    = (Fulfilled (),
       store_artists (catalogue (artists_request idsChunk)) (with_world st w')).
Proof.
  intros Hup Hc. unfold fetch_artists_chunk.
  destruct (getArtists_listed this c idsChunk (world st) Hup Hc) as (w' & -> & _).
  by exists w'.
Qed.

Lemma fetch_latest_album_listed this c spotifyId i st :
  albums_answered_by up listing -> client this = Some c ->
  exists w',
    fetch_latest_album up this spotifyId i st
    = (Fulfilled (),
       store_album spotifyId (head (listing (albums_request spotifyId)))
         (with_world st w')).
Proof.
  intros Hup Hc. unfold fetch_latest_album.
  destruct (getLatestAlbum_listed this c spotifyId (world st) Hup Hc) as (w' & -> & _).
  by exists w'.
Qed.

(** What the dictionaries hold is what was stored. *)
Lemma store_album_values (Q : string -> option SimplifiedAlbumObject -> Prop)
    spotifyId album st :
  (forall y v, artistIdToLatestAlbumDict st !! y = Some v -> Q y v) ->
  Q spotifyId album ->
  forall y v, artistIdToLatestAlbumDict (store_album spotifyId album st) !! y = Some v -> Q y v.
Proof.
  intros Hold Hnew y v. unfold store_album. simpl.
  intros [Hy|[-> ->]]%lookup_assign_Some; [by apply Hold|done].
Qed.

Lemma store_artists_values (Q : string -> ArtistObject -> Prop) artistsChunk st :
  (forall y a, spotifyIdToArtistObjectDict st !! y = Some a -> Q y a) ->
  (forall a, a ∈ artistsChunk -> Q (artist_id a) a) ->
  forall y a, spotifyIdToArtistObjectDict (store_artists artistsChunk st) !! y = Some a -> Q y a.
Proof.
  intros Hold. induction artistsChunk as [|a0 artistsChunk IH] using rev_ind; intros Hnew y a.
  - apply Hold.
  - rewrite store_artists_snoc. intros [Hy|[-> ->]]%lookup_assign_Some.
    + apply IH; [|done]. intros a' Hin. apply Hnew. apply elem_of_app. by left.
    + apply Hnew. apply elem_of_app. right. apply list_elem_of_here.
Qed.

Lemma store_artists_keeps artistsChunk st x :
  is_Some (spotifyIdToArtistObjectDict st !! x) ->
  is_Some (spotifyIdToArtistObjectDict (store_artists artistsChunk st) !! x).
Proof.
  intros Hx. induction artistsChunk as [|a0 artistsChunk IH] using rev_ind; [done|].
  rewrite store_artists_snoc. by apply lookup_assign_is_Some.
Qed.

Lemma store_artists_has artistsChunk st a :
  a ∈ artistsChunk -> artist_id a <> "__proto__" ->
  is_Some (spotifyIdToArtistObjectDict (store_artists artistsChunk st) !! artist_id a).
Proof.
  intros Hin Hne. induction artistsChunk as [|a0 artistsChunk IH] using rev_ind.
  - by apply elem_of_nil in Hin.
  - rewrite store_artists_snoc. apply elem_of_app in Hin as [Hin|Hin].
    + apply lookup_assign_is_Some. by apply IH.
    + apply list_elem_of_singleton in Hin as <-. rewrite lookup_assign_plain by done.
      by eexists.
Qed.

(** The album stage against such an upstream. *)
Lemma albums_stage_listed sched concurrentRequests this c spotifyIds st :
  albums_answered_by up listing -> client this = Some c -> 1 <= concurrentRequests ->
  let run := albums_stage up sched concurrentRequests this spotifyIds st in
  ((forall y v, artistIdToLatestAlbumDict st !! y = Some v ->
                v = head (listing (albums_request y))) ->
   forall y v, artistIdToLatestAlbumDict run.1.2 !! y = Some v ->
               v = head (listing (albums_request y)))
  /\ (forall x, is_Some (artistIdToLatestAlbumDict st !! x) ->
                is_Some (artistIdToLatestAlbumDict run.1.2 !! x))
  /\ (forall x, x ∈ spotifyIds -> x <> "__proto__" ->
                is_Some (artistIdToLatestAlbumDict run.1.2 !! x)).
Proof.
  intros Hup Hc Hsize. simpl. unfold albums_stage. split_and!.
  - intros Hold.
    apply (chunkRequests_keeps
             (fun s => forall y v, artistIdToLatestAlbumDict s !! y = Some v ->
                                   v = head (listing (albums_request y)))); [|done].
    intros j x s _ Hs.
    destruct (fetch_latest_album_listed this c x j s Hup Hc) as (w' & ->). simpl.
    by apply store_album_values.
  - intros x Hx.
    apply (chunkRequests_keeps (fun s => is_Some (artistIdToLatestAlbumDict s !! x)));
      [|done].
    intros j v s _. apply fetch_latest_album_keeps_keys.
  - intros x [j Hj]%list_elem_of_lookup Hne.
    destruct (chunkRequests sched spotifyIds (fetch_latest_album up this)
                concurrentRequests st) as [[o st'] trace] eqn:Hrun.
    assert (exists output, o = Fulfilled output) as [output ->].
    { destruct (stage_requests sched (fetch_latest_album up this) albums_request
                  concurrentRequests spotifyIds st Hsize) as [Hdone _].
      - intros v k s. apply (fetch_latest_album_answered up _ c); [done|].
        intros req srv. destruct (Hup c req srv) as [srv' ->]. by eexists _, _.
      - rewrite Hrun in Hdone. simpl in Hdone. by eexists. }
    simpl.
    eapply (chunkRequests_reaches (fun s => is_Some (artistIdToLatestAlbumDict s !! x)));
      [exact Hsize|exact Hrun|exact Hj| |].
    + intros s r s1. by apply fetch_latest_album_fulfilled.
    + intros j' v' s _. apply fetch_latest_album_keeps_keys.
Qed.

(** The artist stage against such an upstream. *)
Lemma artists_stage_listed (Q : string -> ArtistObject -> Prop)
    sched concurrentRequests this c spotifyIds st :
  artists_answered_by up catalogue -> client this = Some c -> 1 <= concurrentRequests ->
  let run := artists_stage up sched concurrentRequests this spotifyIds st in
  ((forall idsChunk a, idsChunk ∈ chunk spotifyIds 50 ->
                       a ∈ catalogue (artists_request idsChunk) -> Q (artist_id a) a) ->
   (forall y a, spotifyIdToArtistObjectDict st !! y = Some a -> Q y a) ->
   forall y a, spotifyIdToArtistObjectDict run.1.2 !! y = Some a -> Q y a)
  /\ (forall x, is_Some (spotifyIdToArtistObjectDict st !! x) ->
                is_Some (spotifyIdToArtistObjectDict run.1.2 !! x))
  /\ (forall idsChunk a, idsChunk ∈ chunk spotifyIds 50 ->
        a ∈ catalogue (artists_request idsChunk) -> artist_id a <> "__proto__" ->
        is_Some (spotifyIdToArtistObjectDict run.1.2 !! artist_id a)).
Proof.
  intros Hup Hc Hsize. simpl. unfold artists_stage.
  assert (forall x idsChunk j s,
            is_Some (spotifyIdToArtistObjectDict s !! x) ->
            is_Some (spotifyIdToArtistObjectDict
                       (fetch_artists_chunk up this idsChunk j s).2 !! x)) as Hkeeps.
  { intros x idsChunk j s Hx.
    destruct (fetch_artists_chunk_listed this c idsChunk j s Hup Hc) as (w' & ->). simpl.
    by apply store_artists_keeps. }
  split_and!.
  - intros Hnew Hold.
    apply (chunkRequests_keeps
             (fun s => forall y a, spotifyIdToArtistObjectDict s !! y = Some a -> Q y a));
      [|done].
    intros j idsChunk s Hj Hs.
    destruct (fetch_artists_chunk_listed this c idsChunk j s Hup Hc) as (w' & ->). simpl.
    apply store_artists_values; [done|].
    intros a Ha. eapply Hnew; [|exact Ha]. by eapply list_elem_of_lookup_2.
  - intros x Hx.
    apply (chunkRequests_keeps (fun s => is_Some (spotifyIdToArtistObjectDict s !! x)));
      [|done].
    intros j v s _. apply Hkeeps.
  - intros idsChunk a [j Hj]%list_elem_of_lookup Ha Hne.
    destruct (chunkRequests sched (chunk spotifyIds 50) (fetch_artists_chunk up this)
                concurrentRequests st) as [[o st'] trace] eqn:Hrun.
    assert (exists output, o = Fulfilled output) as [output ->].
    { destruct (stage_requests sched (fetch_artists_chunk up this) artists_request
                  concurrentRequests (chunk spotifyIds 50) st Hsize) as [Hdone _].
      - intros v k s. apply (fetch_artists_chunk_answered up _ c); [done|].
        intros req srv. destruct (Hup c req srv) as [srv' ->]. by eexists _, _.
      - rewrite Hrun in Hdone. simpl in Hdone. by eexists. }
    simpl.
    eapply (chunkRequests_reaches
              (fun s => is_Some (spotifyIdToArtistObjectDict s !! artist_id a)));
      [exact Hsize|exact Hrun|exact Hj| |].
    + intros s r s1.
      destruct (fetch_artists_chunk_listed this c idsChunk j s Hup Hc) as (w' & ->).
      intros [= _ <-]. by apply store_artists_has.
    + intros j' v' s _. apply Hkeeps.
Qed.
End Listed.

Lemma elem_of_flatten {A : Type} (x : A) (ls : list (list A)) :
  x ∈ flatten ls <-> exists l, l ∈ ls /\ x ∈ l.
Proof.
  unfold flatten. induction ls as [|l ls IH]; simpl.
  - split; [by intros ?%elem_of_nil|by intros (l & ?%elem_of_nil & _)].
  - rewrite elem_of_app, IH. split.
    + intros [Hx|(l' & Hl' & Hx)].
      * exists l. split; [apply list_elem_of_here|done].
      * exists l'. split; [by apply list_elem_of_further|done].
    + intros (l' & [->|Hl']%elem_of_cons & Hx); [by left|right; by exists l'].
Qed.

(** X17.  The earlier revision of [main] against an upstream that grants
    the token, answers every artists request with the artists [catalogue]
    gives for it (none of them with the identifier ["__proto__"]) and every
    albums request with the page [listing] gives for it.  The run is
    fulfilled.  The artists are the answers to the chunks of 50 identifiers,
    in the order of the chunks.  The report has one line per artist, in this
    order, with the artist's own columns and the name and release date of
    the first item of the page listed for that artist, or two empty cells
    when the page has no item.  The requests sent are, in some order, one
    per chunk and one per artist (not per input identifier). *)
Theorem earlier_main_answered {Server : Type} (up : Upstream Server) (sch : Schedule)
    (clientId clientSecret : string) (inputRecords : list InputRecord) (srv : Server)
    (catalogue : Request -> list ArtistObject)
    (listing : Request -> list SimplifiedAlbumObject) :
  token_granted up ->
  artists_answered_by up catalogue ->
  albums_answered_by up listing ->
  (forall req a, a ∈ catalogue req -> artist_id a <> "__proto__") ->
  let run := Csv.main up sch clientId clientSecret inputRecords srv in
  let spotifyIds := resolve_spotifyIds inputRecords in
  let artists :=
    flatten ((fun idsChunk => catalogue (artists_request idsChunk)) <$> chunk spotifyIds 50) in
  exit run = Fulfilled ()
  /\ written run
     = Some ((fun a =>
                let latest := head (listing (albums_request (artist_id a))) in
                {| Csv.line_id := artist_id a;
                   Csv.line_name := artist_name a;
                   Csv.line_popularity := artist_popularity a;
                   Csv.line_followers := followers_total a;
                   Csv.line_album_name := album_name <$> latest;
                   Csv.line_release_date := release_date <$> latest |}) <$> artists)
  /\ sent (world (final run))
     ≡ₚ (artists_request <$> chunk spotifyIds 50)
        ++ ((fun a => albums_request (artist_id a)) <$> artists).
Proof.
  intros Htoken Hartists Halbums Hproto. simpl. unfold Csv.main, authenticate. cbn [server].
  destruct (Htoken clientId clientSecret srv) as (token & srv' & ->). cbn [sent journal].
  set (c := {| baseURL := "https://api.spotify.com/v1";
               authorization := "Bearer " +:+ access_token token |}).
  set (spotifyClient := {| accessToken := Some token; client := Some c |}).
  set (spotifyIds := resolve_spotifyIds inputRecords).
  set (st0 := with_world _ _).
  assert (forall req srv0, exists response srv1,
            albums_endpoint up c req srv0 = (Fulfilled response, srv1)) as Halbums'.
  { intros req srv0. destruct (Halbums c req srv0) as [srv1 ->]. by eexists _, _. }
  (* the artists *)
  assert (forall j v s,
            (Csv.fetch_artists_chunk up spotifyClient v j s).1
            = Fulfilled (catalogue (artists_request v))
            /\ sent (world (Csv.fetch_artists_chunk up spotifyClient v j s).2)
               = sent (world s) ++ [artists_request v]
            /\ artistIdToLatestAlbumDict (Csv.fetch_artists_chunk up spotifyClient v j s).2
               = artistIdToLatestAlbumDict s) as Hfirst.
  { intros j v s. unfold Csv.fetch_artists_chunk.
    destruct (getArtists_listed up catalogue spotifyClient c v (world s) Hartists eq_refl)
      as (w' & -> & Hsent).
    by rewrite <- Hsent. }
  destruct (chunkRequests_fulfilled (sched_artists sch) (chunk spotifyIds 50)
              (Csv.fetch_artists_chunk up spotifyClient) 10
              (fun v _ => catalogue (artists_request v)) st0 ltac:(lia))
    as (st1 & trace1 & Hrun1); [intros j v s _; apply Hfirst|].
  destruct (chunkRequests_answered_log (fun st => sent (world st)) artists_request
              (sched_artists sch) (chunk spotifyIds 50)
              (Csv.fetch_artists_chunk up spotifyClient) 10 st0 ltac:(lia))
    as (output1 & _ & Hsent1).
  { intros j v s _. split; [eexists; apply Hfirst|apply Hfirst]. }
  pose proof (chunkRequests_keeps
                (fun s => artistIdToLatestAlbumDict s = artistIdToLatestAlbumDict st0)
                (sched_artists sch) (chunk spotifyIds 50)
                (Csv.fetch_artists_chunk up spotifyClient) 10 st0) as Hdict1.
  rewrite Hrun1 in Hsent1, Hdict1 |- *. simpl in Hsent1, Hdict1.
  specialize (Hdict1 ltac:(by intros j v s _ <-; apply Hfirst) eq_refl).
  rewrite (imap_const (fun v => catalogue (artists_request v))).
  set (artists := flatten _).
  (* their latest albums *)
  assert (forall (a : ArtistObject) j s, exists w',
            Csv.fetch_latest_album up spotifyClient a j s
            = (Fulfilled (),
               store_album (artist_id a) (head (listing (albums_request (artist_id a))))
                 (with_world s w'))) as Hsecond.
  { intros a j s.
    apply (fetch_latest_album_listed up listing spotifyClient c (artist_id a) j s Halbums).
    done. }
  destruct (chunkRequests_answered_log (fun st => sent (world st))
              (fun a => albums_request (artist_id a))
              (sched_albums sch) artists
              (Csv.fetch_latest_album up spotifyClient) 10 st1 ltac:(lia))
    as (output2 & Hdone2 & Hsent2).
  { intros j v s _.
    destruct (fetch_latest_album_answered up spotifyClient c (artist_id v) j s eq_refl Halbums')
      as [Hf Hs].
    split; [by eexists|exact Hs]. }
  destruct (chunkRequests (sched_albums sch) artists _ 10 st1)
    as [[o2 st2] trace2] eqn:Hrun2.
  simpl in Hdone2, Hsent2. subst o2. simpl.
  split_and!; [done| |by rewrite Hsent2, Hsent1].
  f_equal. unfold Csv.writeOutput. apply list_fmap_ext. intros i a Hi.
  assert (artist_id a <> "__proto__") as Hne.
  { assert (a ∈ artists) as Ha by (by eapply list_elem_of_lookup_2).
    apply elem_of_flatten in Ha as (l & Hl & Ha).
    apply list_elem_of_fmap in Hl as (idsChunk & -> & _). by eapply Hproto. }
  assert (is_Some (artistIdToLatestAlbumDict st2 !! artist_id a)) as [v Hv].
  { eapply (chunkRequests_reaches
              (fun s => is_Some (artistIdToLatestAlbumDict s !! artist_id a)));
      [|exact Hrun2|exact Hi| |]; [lia| |].
    + intros s r s1. by apply (fetch_latest_album_fulfilled up spotifyClient (artist_id a) i).
    + intros j' v' s _.
      apply (fetch_latest_album_keeps_keys up spotifyClient (artist_id v') j'). }
  assert (v = head (listing (albums_request (artist_id a)))) as <-.
  { pose proof (chunkRequests_keeps
                  (fun s => forall y v, artistIdToLatestAlbumDict s !! y = Some v ->
                                        v = head (listing (albums_request y)))
                  (sched_albums sch) artists (Csv.fetch_latest_album up spotifyClient)
                  10 st1) as Hvalues.
    rewrite Hrun2 in Hvalues. simpl in Hvalues. eapply Hvalues; [| |exact Hv].
    - intros j a' s _ Hs. destruct (Hsecond a' j s) as (w' & ->). simpl.
      by apply store_album_values.
    - intros y v'. rewrite Hdict1. unfold st0. simpl. by rewrite dict_lookup_own. }
  by rewrite (album_columns_own _ _ v Hv).
Qed.

Lemma earlier_main_answered_witness :
  let run :=
    Csv.main (Mock.upstream Mock.all_listed) Mock.in_order "id" "secret"
      (Mock.input_record <$> ["A"; "C"; "A"]) 0 in
  exit run = Fulfilled ()
  /\ written run
     = Some [ {| Csv.line_id := "A"; Csv.line_name := "Alpha"; Csv.line_popularity := 50;
                 Csv.line_followers := 1000; Csv.line_album_name := Some "First";
                 Csv.line_release_date := Some "2020-05-01" |} ]
  /\ sent (world (final run)) ≡ₚ [artists_request ["A"; "C"]; albums_request "A"].
Proof.
  refine (earlier_main_answered (Mock.upstream Mock.all_listed) Mock.in_order "id" "secret"
            (Mock.input_record <$> ["A"; "C"; "A"]) 0
            (Mock.artists_of Mock.all_listed) (Mock.listing_of Mock.all_listed) _ _ _ _).
  - intros a b srv. eexists _, _. reflexivity.
  - intros c req srv. eexists. reflexivity.
  - intros c req srv. eexists. reflexivity.
  - intros req a [_ Ha]%list_elem_of_filter.
    revert Ha. unfold Mock.all_listed. simpl.
    intros [->|[->|Ha%elem_of_nil]%elem_of_cons]%elem_of_cons; done.
Defined.

(** X19.  The current [main] against an upstream that grants the token,
    answers every artists request with the artists [catalogue] gives for it
    and every albums request with the page [listing] gives for it, when no
    resolved identifier names a property that the dictionary of artists can
    inherit.  The run is fulfilled and has sent, in some order, one artists
    request per chunk of 50 resolved identifiers and one albums request per
    resolved identifier.  It writes one record per input record, in order.
    A record has the columns of its input record, except those named like a
    computed column, and its identifier under [spotifyId].  For a record
    with an identifier its album columns are the name and release date of
    the first item of the page listed for the identifier, and its artist
    columns are those of an artist with this identifier that upstream
    returned for some chunk, or undefined when upstream returned none. *)
Theorem main_answered {Server : Type} (up : Upstream Server) (sch : Schedule)
    (clientId clientSecret : string) (inputRecords : list InputRecord) (srv : Server)
    (catalogue : Request -> list ArtistObject)
    (listing : Request -> list SimplifiedAlbumObject) :
  token_granted up ->
  artists_answered_by up catalogue ->
  albums_answered_by up listing ->
  Forall ordinary_key (resolve_spotifyIds inputRecords) ->
  let run := main up sch clientId clientSecret inputRecords srv in
  let spotifyIds := resolve_spotifyIds inputRecords in
  let returned :=
    flatten ((fun idsChunk => catalogue (artists_request idsChunk)) <$> chunk spotifyIds 50) in
  exit run = Fulfilled ()
  /\ sent (world (final run))
     ≡ₚ (artists_request <$> chunk spotifyIds 50) ++ (albums_request <$> spotifyIds)
  /\ exists rows,
       written run = Some rows
       /\ length rows = length inputRecords
       /\ forall i r row, inputRecords !! i = Some r -> rows !! i = Some row ->
            (forall column, column ∉ computed_columns ->
               row !! column = Text <$> originalInput r !! column)
            /\ row !! "spotifyId" = Some (text_cell (truthy_spotify_id r))
            /\ exists (spotifyArtist : option ArtistObject)
                      (latestAlbum : option SimplifiedAlbumObject),
                 row !! "artistName" = Some (text_cell (artist_name <$> spotifyArtist))
                 /\ row !! "popularity"
                    = Some (number_cell (artist_popularity <$> spotifyArtist))
                 /\ row !! "followers"
                    = Some (number_cell (followers_total <$> spotifyArtist))
                 /\ row !! "latestAlbumName" = Some (text_cell (album_name <$> latestAlbum))
                 /\ row !! "latestAlbumReleaseDate"
                    = Some (text_cell (release_date <$> latestAlbum))
                 /\ match truthy_spotify_id r with
                    | None => spotifyArtist = None /\ latestAlbum = None
                    | Some x =>
                        latestAlbum = head (listing (albums_request x))
                        /\ match spotifyArtist with
                           | Some a => artist_id a = x /\ a ∈ returned
                           | None => forall a, a ∈ returned -> artist_id a <> x
                           end
                    end.
Proof.
  intros Htoken Hartists Halbums Hordinary. simpl. unfold main, authenticate. cbn [server].
  destruct (Htoken clientId clientSecret srv) as (token & srv' & ->). cbn [sent journal].
  set (c := {| baseURL := "https://api.spotify.com/v1";
               authorization := "Bearer " +:+ access_token token |}).
  set (spotifyClient := {| accessToken := Some token; client := Some c |}).
  set (spotifyIds := resolve_spotifyIds inputRecords) in *.
  set (returned := flatten _).
  set (st0 := with_world _ _).
  set (phases := [_; _]).
  assert (forall req srv0, exists response srv1,
            artists_endpoint up c req srv0 = (Fulfilled response, srv1)) as Hartists'.
  { intros req srv0. destruct (Hartists c req srv0) as [srv1 ->]. by eexists _, _. }
  assert (forall req srv0, exists response srv1,
            albums_endpoint up c req srv0 = (Fulfilled response, srv1)) as Halbums'.
  { intros req srv0. destruct (Halbums c req srv0) as [srv1 ->]. by eexists _, _. }
  assert (forall st,
            (artists_stage up (sched_artists sch) 10 spotifyClient spotifyIds st).1.1
            = Fulfilled (imap (fun _ _ => ()) (chunk spotifyIds 50))
            /\ sent (world (artists_stage up (sched_artists sch) 10 spotifyClient
                              spotifyIds st).1.2)
               ≡ₚ sent (world st) ++ (artists_request <$> chunk spotifyIds 50)) as HA.
  { intros st. apply stage_requests; [lia|].
    intros v j s. by apply (fetch_artists_chunk_answered up _ c). }
  assert (forall st,
            (albums_stage up (sched_albums sch) 10 spotifyClient spotifyIds st).1.1
            = Fulfilled (imap (fun _ _ => ()) spotifyIds)
            /\ sent (world (albums_stage up (sched_albums sch) 10 spotifyClient
                              spotifyIds st).1.2)
               ≡ₚ sent (world st) ++ (albums_request <$> spotifyIds)) as HB.
  { intros st. apply stage_requests; [lia|].
    intros v j s. by apply (fetch_latest_album_answered up _ c). }
  destruct (Promise_all_fulfilled
              (fun pos => match pos with
                          | 0 => imap (fun _ _ => ()) (chunk spotifyIds 50)
                          | _ => imap (fun _ _ => ()) spotifyIds
                          end)
              (sched_phases sch) phases st0) as (st & order & Hall).
  { intros [|[|pos]] p s; simpl; intros [= <-]; simpl; [apply HA|apply HB]. }
  rewrite Hall.
  pose proof (Promise_all_order _ _ _ _ _ _ Hall) as [_ Hperm].
  specialize (Hperm ltac:(by eexists)). simpl in Hperm.
  pose proof (Promise_all_ran _ _ _ _ _ _ Hall) as Hran. simpl in Hran.
  (* what a phase is *)
  assert (forall pos p, phases !! pos = Some p ->
            (pos = 0 /\ p = fun st => (artists_stage up (sched_artists sch) 10 spotifyClient
                                         spotifyIds st).1)
            \/ (pos = 1 /\ p = fun st => (albums_stage up (sched_albums sch) 10 spotifyClient
                                            spotifyIds st).1)) as Hphase.
  { intros [|[|pos]] p; simpl; intros [= <-]; auto. }
  (* the dictionary of artists *)
  assert (forall y a, spotifyIdToArtistObjectDict st !! y = Some a ->
                      artist_id a = y /\ a ∈ returned) as Hartist_values.
  { refine (ran_preserves
              (fun s => forall y a, spotifyIdToArtistObjectDict s !! y = Some a ->
                                    artist_id a = y /\ a ∈ returned) _ _ _ _ _ _ Hran _).
    - intros pos p s _ [[-> ->]|[-> ->]]%Hphase Hs; simpl.
      + apply (proj1 (artists_stage_listed up catalogue
                        (fun y a => artist_id a = y /\ a ∈ returned)
                        (sched_artists sch) 10 spotifyClient c spotifyIds s
                        Hartists eq_refl ltac:(lia))); [|exact Hs].
        intros idsChunk a Hchunk Ha. split; [done|].
        apply elem_of_flatten. exists (catalogue (artists_request idsChunk)).
        split; [|done]. apply list_elem_of_fmap. by exists idsChunk.
      + by rewrite albums_stage_artists.
    - intros y a. unfold st0. simpl. by rewrite dict_lookup_own. }
  assert (forall a, a ∈ returned -> artist_id a <> "__proto__" ->
                    is_Some (spotifyIdToArtistObjectDict st !! artist_id a)) as Hartist_stored.
  { intros a (l & (idsChunk & -> & Hchunk)%list_elem_of_fmap & Ha)%elem_of_flatten Hne.
    apply (ran_establishes
             (fun s => is_Some (spotifyIdToArtistObjectDict s !! artist_id a))
             _ _ _ _ 0 Hran).
    - rewrite Hperm. apply list_elem_of_here.
    - intros p s r s1 [[_ ->]|[? _]]%Hphase; [|done]. intros Hp.
      apply (f_equal snd) in Hp. simpl in Hp. subst s1.
      by apply (proj2 (proj2 (artists_stage_listed up catalogue (fun _ _ => True)
                                (sched_artists sch) 10 spotifyClient c spotifyIds s
                                Hartists eq_refl ltac:(lia))) idsChunk a).
    - intros pos p s _ [[-> ->]|[-> ->]]%Hphase Hs; simpl.
      + by apply (proj1 (proj2 (artists_stage_listed up catalogue (fun _ _ => True)
                                  (sched_artists sch) 10 spotifyClient c spotifyIds s
                                  Hartists eq_refl ltac:(lia)))).
      + by rewrite albums_stage_artists. }
  (* the dictionary of latest albums *)
  assert (forall y v, artistIdToLatestAlbumDict st !! y = Some v ->
                      v = head (listing (albums_request y))) as Halbum_values.
  { refine (ran_preserves
              (fun s => forall y v, artistIdToLatestAlbumDict s !! y = Some v ->
                                    v = head (listing (albums_request y)))
              _ _ _ _ _ _ Hran _).
    - intros pos p s _ [[-> ->]|[-> ->]]%Hphase Hs; simpl.
      + by rewrite artists_stage_albums.
      + by apply (proj1 (albums_stage_listed up listing (sched_albums sch) 10 spotifyClient c
                           spotifyIds s Halbums eq_refl ltac:(lia))).
    - intros y v. unfold st0. simpl. by rewrite dict_lookup_own. }
  assert (forall x, x ∈ spotifyIds -> x <> "__proto__" ->
                    is_Some (artistIdToLatestAlbumDict st !! x)) as Halbum_stored.
  { intros x Hx Hne.
    apply (ran_establishes (fun s => is_Some (artistIdToLatestAlbumDict s !! x))
             _ _ _ _ 1 Hran).
    - rewrite Hperm. apply list_elem_of_further, list_elem_of_here.
    - intros p s r s1 [[? _]|[_ ->]]%Hphase; [done|]. intros Hp.
      apply (f_equal snd) in Hp. simpl in Hp. subst s1.
      by apply (proj2 (proj2 (albums_stage_listed up listing (sched_albums sch) 10
                                spotifyClient c spotifyIds s Halbums eq_refl ltac:(lia)))).
    - intros pos p s _ [[-> ->]|[-> ->]]%Hphase Hs; simpl.
      + by rewrite artists_stage_albums.
      + by apply (proj1 (proj2 (albums_stage_listed up listing (sched_albums sch) 10
                                  spotifyClient c spotifyIds s Halbums eq_refl ltac:(lia)))). }
  (* the records *)
  assert (forall r x, r ∈ inputRecords -> truthy_spotify_id r = Some x ->
                      x ∈ spotifyIds /\ ordinary_key x) as Hids.
  { intros r x Hr Hx.
    assert (x ∈ spotifyIds) as Hin.
    { unfold spotifyIds, resolve_spotifyIds, extract_spotifyIds.
      apply elem_of_uniq, list_elem_of_omap. by exists r. }
    split; [done|]. rewrite Forall_forall in Hordinary. by apply Hordinary. }
  destruct (prepareOutputData_ordinary inputRecords (spotifyIdToArtistObjectDict st)
              (artistIdToLatestAlbumDict st)) as [rows Hrows].
  { apply Forall_forall. intros x (r & Hr & Hx)%list_elem_of_omap.
    by apply (Hids r x). }
  rewrite Hrows. simpl. split; [done|]. split.
  { apply (Promise_all_logged_many (fun st => sent (world st))
             (fun pos => match pos with
                         | 0 => artists_request <$> chunk spotifyIds 50
                         | _ => albums_request <$> spotifyIds
                         end)) in Hall.
    - rewrite Hall, Hperm. csimpl. by rewrite app_nil_r.
    - intros [|[|pos]] p s; simpl; intros [= <-]; simpl; [apply HA|apply HB]. }
  exists rows. split; [done|].
  apply prepareOutputData_Fulfilled in Hrows. split; [symmetry; by eapply Forall2_length|].
  intros i r row Hr Hrow.
  pose proof (Forall2_lookup_lr _ _ _ _ _ _ Hrows Hr Hrow) as Hcells. simpl in Hcells.
  apply prepare_record_cells in Hcells
    as (spotifyArtist & Hread & Horiginal & Hid & Hname & Hpopularity & Hfollowers
        & Halbum_name & Hrelease).
  split; [done|]. split; [done|].
  destruct (truthy_spotify_id r) as [x|] eqn:Hx; simpl in *.
  - destruct (Hids r x) as [Hin Hkey]; [by eapply list_elem_of_lookup_2|done|].
    rewrite artist_columns_ordinary in Hread by done. injection Hread as <-.
    destruct (Halbum_stored x Hin (proj1 Hkey)) as [v Hv].
    rewrite (album_columns_own _ _ v Hv) in Halbum_name, Hrelease.
    exists (spotifyIdToArtistObjectDict st !! x), v.
    split_and!; [done..| |].
    + by apply Halbum_values.
    + destruct (spotifyIdToArtistObjectDict st !! x) as [a|] eqn:Ha.
      * by apply Hartist_values.
      * intros a Hreturned <-.
        destruct (Hartist_stored a Hreturned (proj1 Hkey)) as [a' Ha']. congruence.
  - injection Hread as <-. by exists None, None.
Qed.

Lemma main_answered_witness :
  let run :=
    main (Mock.upstream Mock.all_listed) Mock.in_order "id" "secret"
      (Mock.input_record <$> ["A"; "C"; "A"]) 0 in
  exit run = Fulfilled ()
  /\ sent (world (final run))
     ≡ₚ [artists_request ["A"; "C"]; albums_request "A"; albums_request "C"].
Proof.
  pose proof (main_answered (Mock.upstream Mock.all_listed) Mock.in_order "id" "secret"
                (Mock.input_record <$> ["A"; "C"; "A"]) 0
                (Mock.artists_of Mock.all_listed) (Mock.listing_of Mock.all_listed))
    as Hmain.
  destruct Hmain as (Hexit & Hsent & _).
  - intros a b srv. eexists _, _. reflexivity.
  - intros c req srv. eexists. reflexivity.
  - intros c req srv. eexists. reflexivity.
  - apply (bool_decide_unpack _). by vm_compute.
  - split; [exact Hexit|exact Hsent].
Defined.

(** * The first command-line program *)

(** X18.  The first command-line program is determined by what upstream
    answers.  When the token request is rejected the program is rejected
    with that error, has sent no request and printed nothing.  Otherwise it
    sends exactly one request, which carries all the identifiers given
    after the fourth argument, however many they are, with the granted
    token; it never waits or retries.  When that request is rejected the
    program is rejected with that error and has printed nothing; when it is
    answered the program is fulfilled and has printed the header followed
    by one row per artist of that answer, in the order of the answer. *)
Theorem cli_main_single_request {Server : Type} (up : Upstream Server)
    (argv : list string) (srv : Server) :
  let clientId := default "undefined" (argv !! 2) in
  let clientSecret := default "undefined" (argv !! 3) in
  let request := artists_request (drop 4 argv) in
  Cli.main up argv srv
  = match token_endpoint up clientId clientSecret srv with
    | (Rejected e, srv1) =>
        (Rejected e, {| server := srv1; sent := []; journal := [] |}, [])
    | (Fulfilled token, srv1) =>
        let c := {| baseURL := "https://api.spotify.com/v1";
                    authorization := "Bearer " +:+ access_token token |} in
        match artists_endpoint up c request srv1 with
        | (Rejected e, srv2) =>
            (Rejected e, {| server := srv2; sent := [request]; journal := [] |}, [])
        | (Fulfilled response, srv2) =>
            (Fulfilled (), {| server := srv2; sent := [request]; journal := [] |},
             Cli.Header
             :: ((fun artist =>
                    Cli.Row (artist_id artist) (artist_name artist)
                      (artist_popularity artist) (followers_total artist))
                   <$> artists (data response)))
        end
    end.
Proof.
  simpl. unfold Cli.main, authenticate. cbn [server sent journal].
  destruct (token_endpoint up _ _ srv) as [[token|e] srv']; [|done].
  unfold Plain.getArtists.
  rewrite (guarded_get_answer _ _
             {| baseURL := "https://api.spotify.com/v1";
                authorization := "Bearer " +:+ access_token token |}) by done.
  cbn [server sent journal].
  by destruct (artists_endpoint up _ _ srv') as [[response|e] srv''].
Qed.

Example cli_main_two_artists :
  let run :=
    Cli.main (Mock.upstream Mock.all_listed) ["node"; "index.js"; "id"; "secret"; "A"; "B"] 0 in
  run.1.1 = Fulfilled ()
  /\ sent run.1.2 = [artists_request ["A"; "B"]]
  /\ run.2 = [Cli.Header; Cli.Row "A" "Alpha" 50 1000; Cli.Row "B" "Beta" 50 1000].
Proof. vm_compute. by split_and!. Qed.

Example cli_main_one_request :
  let run :=
    Cli.main (Mock.upstream Mock.all_listed) ["node"; "index.js"; "id"; "secret"; "Z"] 0 in
  sent run.1.2 = [artists_request ["Z"]] /\ journal run.1.2 = [].
Proof. vm_compute. by split. Qed.
